(** * Unity asset ripper: a shallow embedding of [unity_ripper.py]

    The development follows the source file top to bottom: the name
    sanitizer, version detection (with the three header patterns of the
    [re] module), the compatibility check, file discovery, the per-object
    extraction loop and the batch loop of the front end.

    Python values are modelled as the program uses them:
    - a [str] is a list of Unicode code points ([N]);
    - a [bytes] object is a list of bytes ([N] below 256);
    - an [int] is a [Z];
    - effects on the file system and the log are recorded as a trace of
      events, in program order;
    - a call into the external parser (UnityPy, PIL) either returns a value
      or raises, and its outcome is part of the input. *)

From Stdlib Require Import ZArith NArith List Bool Lia.
From Stdlib Require Import Strings.String Strings.Ascii.
From Stdlib Require Import Numbers.DecimalString Numbers.DecimalZ Numbers.DecimalFacts.
From stdpp Require Import base option list gmap strings.

Import ListNotations.
Local Open Scope N_scope.

(** ** Python strings and bytes *)

(** A Unicode code point. *)
Abbreviation codepoint := N (only parsing).
(** A Python [str]. *)
Abbreviation str := (list N) (only parsing).
(** A Python [bytes] (or [bytearray]) object. *)
Abbreviation bytes := (list N) (only parsing).

(** A literal of the source, as the list of its characters. *)
Definition lit (s : string) : list N :=
  List.map N_of_ascii (list_ascii_of_string s).

Definition str_eqb (a b : list N) : bool := bool_decide (a = b).

(** [c in s] for a one-character [c]. *)
Definition char_in (c : N) (s : list N) : bool := existsb (N.eqb c) s.

(** [s.startswith(p)] *)
Fixpoint startswith (p s : list N) : bool :=
  match p, s with
  | [], _ => true
  | _ :: _, [] => false
  | a :: p', b :: s' => N.eqb a b && startswith p' s'
  end.

(** [k in s] for strings: [k] occurs as a contiguous substring of [s]. *)
Fixpoint contains (k s : list N) : bool :=
  startswith k s ||
  match s with
  | [] => false
  | _ :: s' => contains k s'
  end.

(** The outcome of a call that may raise; the exception carries the text
    that [str(e)] gives. *)
Abbreviation exn := (list N) (only parsing).

Inductive result (A : Type) : Type :=
| Ok (a : A)
| Raise (e : exn).
Arguments Ok {A} a.
Arguments Raise {A} e.

(** ** [sanitize_name] *)

(** The [keep] string of the source, character by character: the ASCII
    part, then the extended alphabet as the source file spells it, then
    the digits once more. *)
Definition keep_extended : str :=
  [ 8211; 8734; 8211; 177; 8211; 8804; 8211; 8805; 8211; 165; 8211; 181;
    8212; 235; 8211; 8706; 8211; 8721; 8211; 8719; 8211; 960; 8211; 8747;
    8211; 170; 8211; 186; 8211; 937; 8211; 230; 8211; 248; 8212; 196;
    8212; 197; 8212; 199; 8212; 201; 8212; 209; 8212; 214; 8212; 220;
    8212; 225; 8212; 224; 8212; 226; 8212; 228; 8212; 227; 8212; 229;
    8212; 231; 8212; 233; 8212; 232; 8211; 234; 8211; 235; 8211; 237;
    8211; 236; 8211; 238; 8211; 239; 8211; 197; 8211; 241; 8211; 243;
    8211; 242; 8211; 244; 8211; 246; 8211; 245; 8211; 250; 8211; 249;
    8211; 251; 8211; 252; 8211; 8224; 8211; 176; 8211; 162; 8211; 163;
    8211; 167; 8211; 8226; 8211; 182; 8211; 223; 8211; 174; 8211; 169;
    8211; 8482; 8211; 180; 8211; 168; 8211; 8800; 8211; 198; 8211; 216 ].

Definition keep : str :=
  lit "-_.() abcdefghijklmnopqrstuvwxyzABCDEFGHIJKLMNOPQRSTUVWXYZ0123456789"
  ++ keep_extended ++ lit "0123456789".

Definition underscore : codepoint := 95.

(** [name or "unnamed"]: [None] and the empty string are falsy. *)
Definition or_unnamed (name : option str) : str :=
  match name with
  | None => lit "unnamed"
  | Some [] => lit "unnamed"
  | Some s => s
  end.

(** ["".join(c if c in keep else "_" for c in (name or "unnamed"))] *)
Definition sanitize_name (name : option str) : str :=
  List.map (fun c => if char_in c keep then c else underscore) (or_unnamed name).

(** The longest prefix of [s] whose characters satisfy [p], and the rest. *)
Fixpoint span (p : N -> bool) (s : list N) : list N * list N :=
  match s with
  | c :: s' =>
      if p c then
        let '(ds, rest) := span p s' in (c :: ds, rest)
      else ([], s)
  | [] => ([], [])
  end.

(** ** A backtracking matcher for the patterns of the source

    The [re] module is a backtracking matcher: a greedy quantifier tries the
    longest repetition first, a lazy one the shortest, and [re.search] tries
    the start positions from left to right.  Every quantifier of the source
    ranges over a single character class, so the repeated part is a
    predicate on characters. *)

Inductive regex : Type :=
| Eps
| Chr (c : N)                                  (* a literal character *)
| Cls (p : N -> bool)                          (* a character class *)
| Rep (greedy : bool) (min : nat) (p : N -> bool) (* a repetition of p, [min] times or more *)
| Cat (r1 r2 : regex)
| Group (n : nat) (r : regex).                 (* the n-th parenthesis *)

(** The groups captured so far, by number. *)
Abbreviation captures := (gmap nat (list N)) (only parsing).

Section Matcher.
Context {R : Type}.

(** [p{min,}], longest repetition first. *)
Fixpoint rep_greedy (p : N -> bool) (min : nat) (s : list N)
         (k : list N -> option R) : option R :=
  let stop := match min with O => k s | S _ => None end in
  match s with
  | c :: s' =>
      if p c then
        match rep_greedy p (Nat.pred min) s' k with
        | Some x => Some x
        | None => stop
        end
      else stop
  | [] => stop
  end.

(** [p{min,}?], shortest repetition first. *)
Fixpoint rep_lazy (p : N -> bool) (min : nat) (s : list N)
         (k : list N -> option R) : option R :=
  let more :=
    match s with
    | c :: s' => if p c then rep_lazy p (Nat.pred min) s' k else None
    | [] => None
    end in
  match min with
  | O => match k s with
         | Some x => Some x
         | None => more
         end
  | S _ => more
  end.

(** Match [r] at the start of [s], then continue with [k] on the rest;
    a failing continuation makes the matcher backtrack. *)
Fixpoint rmatch (r : regex) (s : list N) (g : captures)
         (k : list N -> captures -> option R) : option R :=
  match r with
  | Eps => k s g
  | Chr c =>
      match s with
      | c' :: s' => if N.eqb c c' then k s' g else None
      | [] => None
      end
  | Cls p =>
      match s with
      | c' :: s' => if p c' then k s' g else None
      | [] => None
      end
  | Rep true min p => rep_greedy p min s (fun s' => k s' g)
  | Rep false min p => rep_lazy p min s (fun s' => k s' g)
  | Cat r1 r2 => rmatch r1 s g (fun s1 g1 => rmatch r2 s1 g1 k)
  | Group n r1 =>
      rmatch r1 s g
        (fun s' g' => k s' (<[n := take (length s - length s') s]> g'))
  end.
End Matcher.

(** [re.match(r, s)]: the groups of a match at the start of [s]. *)
Definition re_match (r : regex) (s : list N) : option captures :=
  rmatch r s ∅ (fun _ g => Some g).

(** [re.search(r, s)]: the groups of the leftmost match. *)
Fixpoint re_search (r : regex) (s : list N) : option captures :=
  match re_match r s with
  | Some g => Some g
  | None =>
      match s with
      | [] => None
      | _ :: s' => re_search r s'
      end
  end.

(** A literal string inside a pattern. *)
Fixpoint chars (s : list N) : regex :=
  match s with
  | [] => Eps
  | c :: s' => Cat (Chr c) (chars s')
  end.

(** [\d] in a bytes pattern: the ASCII digits. *)
Definition is_digit (c : N) : bool := (48 <=? c) && (c <=? 57).
(** [[a-z0-9]] *)
Definition is_lower_alnum (c : N) : bool :=
  ((97 <=? c) && (c <=? 122)) || is_digit c.
(** [.] without DOTALL: anything but a newline. *)
Definition is_dot (c : N) : bool := negb (c =? 10).

Definition dot : N := 46.

(** [\d+\.\d+] over a class [d] of digits. *)
Definition major_minor (d : N -> bool) : regex :=
  Cat (Rep true 1 d) (Cat (Chr dot) (Rep true 1 d)).
(** [\d+\.\d+\.\d+] *)
Definition major_minor_patch (d : N -> bool) : regex :=
  Cat (Rep true 1 d) (Cat (Chr dot) (Cat (Rep true 1 d) (Cat (Chr dot) (Rep true 1 d)))).

(** The first pattern: one group around [\d+\.\d+\.\d+] followed by any
    number of characters of [[a-z0-9]]. *)
Definition pattern_bare : regex :=
  Group 1 (Cat (major_minor_patch is_digit) (Rep true 0 is_lower_alnum)).
(** The second pattern: [Unity ], then the group [\d+\.\d+\.\d+]. *)
Definition pattern_unity : regex :=
  Cat (chars (lit "Unity ")) (Group 1 (major_minor_patch is_digit)).
(** The third pattern: [UnityFS], a lazy run of [.], then the group
    [\d+\.\d+]. *)
Definition pattern_unityfs : regex :=
  Cat (chars (lit "UnityFS"))
      (Cat (Rep false 0 is_dot) (Group 1 (major_minor is_digit))).

(** The list [version_patterns], in the order of the source. *)
Definition version_patterns : list regex :=
  [pattern_bare; pattern_unity; pattern_unityfs].

(** ** [detect_unity_version] *)

Record version_info : Type := {
  version : str;
  detected_from : option str;
  compatible : bool;
  warning : option str
}.

(** What the outside world answers for one path: [path.name], the outcome of
    [UnityPy.load] (the [version] attribute of the environment when it has
    one) and the outcome of opening the file and reading it. *)
Record probe : Type := {
  probe_name : str;
  probe_load : result (option str);
  probe_bytes : result bytes
}.

(** [bytes.decode('utf-8', errors='ignore')] on the ASCII range, where a
    byte is its own code point; a byte outside it is dropped.  The groups of
    the three patterns hold ASCII bytes only (see [group_ascii] below). *)
Definition decode_ignore (b : bytes) : str :=
  List.filter (fun c => c <? 128) b.

(** [m.group(1)]; a group that did not take part would make the following
    method call raise. *)
Definition no_group : exn := lit "'NoneType' object has no attribute 'decode'".

(** The loop over the patterns: the first pattern that matches the header
    sets the two fields and breaks. *)
Fixpoint scan_patterns (ps : list regex) (header : bytes) (name : str)
         (vi : version_info) : result version_info :=
  match ps with
  | [] => Ok vi
  | pattern :: ps' =>
      match re_search pattern header with
      | Some m =>
          match m !! 1%nat with
          | Some g =>
              Ok {| version := decode_ignore g;
                    detected_from := Some name;
                    compatible := compatible vi;
                    warning := warning vi |}
          | None => Raise no_group
          end
      | None => scan_patterns ps' header name vi
      end
  end.

Definition unknown_version : version_info :=
  {| version := lit "Unknown"; detected_from := None;
     compatible := true; warning := None |}.

Definition with_warning (vi : version_info) (e : exn) : version_info :=
  {| version := version vi; detected_from := detected_from vi;
     compatible := compatible vi; warning := Some e |}.

(** The body of the [try] block: [Ok] is a normal exit with the dictionary
    as it then is, [Raise] an exception.  Every assignment to the dictionary
    is followed by a [return] or a [break], so an exception always finds the
    dictionary as it was created. *)
Definition detect_body (patterns : list regex) (f : probe) : result version_info :=
  match probe_load f with
  | Raise e => Raise e
  | Ok (Some v) =>
      Ok {| version := v; detected_from := Some (probe_name f);
            compatible := true; warning := None |}
  | Ok None =>
      match probe_bytes f with
      | Raise e => Raise e
      | Ok data =>
          let header := take 1024 data in
          scan_patterns patterns header (probe_name f) unknown_version
      end
  end.

Definition detect_with (patterns : list regex) (f : probe) : version_info :=
  match detect_body patterns f with
  | Ok vi => vi
  | Raise e => with_warning unknown_version e
  end.

Definition detect_unity_version (f : probe) : version_info :=
  detect_with version_patterns f.

(** ** [check_version_compatibility] *)

Section Compatibility.
(** The pattern of this function is a [str] pattern, where [\d] is any
    Unicode decimal digit, and [int] reads those digits as well.  The
    table of the interpreter is a parameter: the decimal value of a code
    point that is a decimal digit. *)
Variable decimal_value : codepoint -> option N.

Definition is_decimal (c : codepoint) : bool :=
  match decimal_value c with
  | Some _ => true
  | None => false
  end.

(** The pattern: group 1 around [\d+], a dot, group 2 around [\d+]. *)
Definition pattern_major_minor : regex :=
  Cat (Group 1 (Rep true 1 is_decimal))
      (Cat (Chr dot) (Group 2 (Rep true 1 is_decimal))).

Fixpoint int_digits (acc : Z) (s : str) : option Z :=
  match s with
  | [] => Some acc
  | c :: s' =>
      match decimal_value c with
      | Some d => int_digits (10 * acc + Z.of_N d)%Z s'
      | None => None
      end
  end.

(** The default of [sys.get_int_max_str_digits()]: [int] refuses a string
    of more decimal digits than this with a [ValueError]. *)
Definition int_max_str_digits : nat := 4300.

(** [int(s)] for a string of digits.  The empty string, a character that
    is no digit and a string of more digits than the limit (leading zeros
    count) are a [ValueError]; the value itself is unbounded. *)
Definition int_of (s : str) : option Z :=
  match s with
  | [] => None
  | _ :: _ =>
      if (int_max_str_digits <? length s)%nat then None else int_digits 0%Z s
  end.

Definition int_group (m : captures) (n : nat) : option Z :=
  match m !! n with
  | Some s => int_of s
  | None => None
  end.

Definition too_old : bool * str := (false, lit "Unity version too old (< 3.4)").
Definition newer : bool * str := (true, lit "Newer version - may have limited support").
Definition supported : bool * str := (true, lit "Fully supported").
Definition inconclusive : bool * str := (true, lit "Version check inconclusive").

(** An exception inside the [try] is swallowed by the bare [except], and
    control reaches the final [return]. *)
Definition check_version_compatibility (version_str : str) : bool * str :=
  match re_match pattern_major_minor version_str with
  | Some m =>
      match int_group m 1, int_group m 2 with
      | Some major, Some minor =>
          if ((major <? 3) || ((major =? 3) && (minor <? 4)))%Z then too_old
          else if (major >? 2023)%Z then newer
          else supported
      | _, _ => inconclusive
      end
  | None => inconclusive
  end.

(** *** The classifier as the specification words it *)

(** The longest run of digits at the start of [s], and what follows it. *)
Definition span_digits (s : str) : str * str := span is_decimal s.

(** The scanner for a leading [digits '.' digits]. *)
Definition leading_major_minor (s : str) : option (Z * Z) :=
  let '(a, r) := span_digits s in
  match a, r with
  | _ :: _, c :: r' =>
      if N.eqb c dot then
        let '(b, _) := span_digits r' in
        match b with
        | _ :: _ =>
            match int_digits 0%Z a, int_digits 0%Z b with
            | Some major, Some minor => Some (major, minor)
            | _, _ => None
            end
        | [] => None
        end
      else None
  | _, _ => None
  end.

(** The two runs of digits that the scanner reads. *)
Definition leading_texts (s : str) : option (str * str) :=
  let '(a, r) := span_digits s in
  match a, r with
  | _ :: _, c :: r' =>
      if N.eqb c dot then
        let '(b, _) := span_digits r' in
        match b with
        | _ :: _ => Some (a, b)
        | [] => None
        end
      else None
  | _, _ => None
  end.

(** Both runs are short enough for [int]. *)
Definition within_int_limit (s : str) : Prop :=
  match leading_texts s with
  | Some (a, b) =>
      (length a <= int_max_str_digits)%nat /\ (length b <= int_max_str_digits)%nat
  | None => True
  end.

(** The four rules, in their order. *)
Definition classify (s : str) : bool * str :=
  match leading_major_minor s with
  | None => inconclusive
  | Some (major, minor) =>
      if bool_decide (major < 3 \/ (major = 3 /\ minor < 4))%Z then too_old
      else if bool_decide (major > 2023)%Z then newer
      else supported
  end.
End Compatibility.

(** The table restricted to ASCII, where the decimal digits are [0]-[9]. *)
Definition ascii_decimal (c : codepoint) : option N :=
  if is_digit c then Some (c - 48) else None.

(** ** [find_input_files] *)

(** A directory tree as the walk sees it: the children of a directory in
    the order in which the operating system lists them. *)
Inductive node : Type :=
| File (name : str)
| Dir (name : str) (children : list node).

(** A [Path]: its components. *)
Abbreviation path := (list (list N)) (only parsing).

(** [p.name] *)
Definition path_name (p : path) : str := List.last p [].

(** An entry of a listing: the path and the answer of [is_file]. *)
Record entry : Type := { entry_path : path; entry_is_file : bool }.

(** The entry of a node that lives in directory [base]. *)
Definition node_entry (base : path) (n : node) : entry :=
  match n with
  | File name => {| entry_path := base ++ [name]; entry_is_file := true |}
  | Dir name _ => {| entry_path := base ++ [name]; entry_is_file := false |}
  end.

(** Everything strictly below [n], which lives in directory [base], in the
    order of [rglob]: the entries of a directory as it lists them, then
    what is below each of its subdirectories, in the same order. *)
Fixpoint below (base : path) (n : node) : list entry :=
  match n with
  | File _ => []
  | Dir name children =>
      List.map (node_entry (base ++ [name])) children
      ++ List.flat_map (below (base ++ [name])) children
  end.

(** A directory given as input: where it is and what it holds. *)
Record directory : Type := { dir_path : path; dir_children : list node }.

(** [root.rglob("*")]: every path below the root, the root excluded.  The
    entries of the root come first, then the subdirectories are visited
    one after the other. *)
Definition rglob (root : directory) : list entry :=
  List.map (node_entry (dir_path root)) (dir_children root)
  ++ List.flat_map (below (dir_path root)) (dir_children root).

(** [root.iterdir()]: the immediate children. *)
Definition iterdir (root : directory) : list entry :=
  List.map (node_entry (dir_path root)) (dir_children root).

(** [s.rfind(c)], counting positions from [i]; [None] stands for -1. *)
Fixpoint rfind (c : N) (s : str) (i : nat) : option nat :=
  match s with
  | [] => None
  | x :: s' =>
      match rfind c s' (S i) with
      | Some j => Some j
      | None => if N.eqb x c then Some i else None
      end
  end.

(** [p.suffix] of pathlib: the part of the name from its last dot on, when
    that dot is neither the first nor the last character. *)
Definition suffix (name : str) : str :=
  match rfind dot name 0 with
  | Some i =>
      if (0 <? i)%nat && (i <? length name - 1)%nat then drop i name else []
  | None => []
  end.

(** The default value of the parameter [exts]. *)
Definition default_exts : list str :=
  [ lit ".assets"; lit ".unity3d"; lit ".assetbundle"; lit ".bundle";
    lit ".resS"; lit ".sharedassets"; lit ".resources"; lit ".resource";
    lit ".dat"; lit ".ress" ].

(** The tuple of name fragments. *)
Definition name_keys : list str :=
  [ lit "sharedassets"; lit "resources"; lit ".unity3d"; lit "assetbundle";
    lit "globalgamemanagers"; lit "level" ].

(** [x in exts] for a set of strings. *)
Definition in_set (x : str) (xs : list str) : bool := existsb (str_eqb x) xs.

Section Discovery.
(** [str.lower] of the interpreter, which follows the Unicode tables. *)
Variable lower : str -> str.

(** The condition of the inner [if]. *)
Definition is_candidate (exts : list str) (name : str) : bool :=
  in_set (lower (suffix name)) exts
  || existsb (fun k => contains k (lower name)) name_keys.

(** The walk is over a readable tree: the two [except] branches, which
    keep what was found before the error, are not taken. *)
Definition find_input_files (root : directory) (exts : option (list str))
  : list path :=
  let exts := match exts with
              | None => default_exts
              | Some e => e
              end in
  let files :=
    List.map entry_path
      (List.filter
         (fun p => entry_is_file p && is_candidate exts (path_name (entry_path p)))
         (rglob root)) in
  match files with
  | [] => List.map entry_path (List.filter entry_is_file (iterdir root))
  | _ :: _ => files
  end.

(** *** The selection rule as the specification words it *)

(** Equality of two strings without regard to case. *)
Definition eq_nocase (a b : str) : bool := str_eqb (lower a) (lower b).

(** The extension is, case-insensitively, one of the set. *)
Definition ext_in_set_nocase (name : str) (exts : list str) : bool :=
  existsb (eq_nocase (suffix name)) exts.

(** The name contains, case-insensitively, one of the fragments. *)
Definition name_contains_nocase (name : str) : bool :=
  existsb (fun k => contains (lower k) (lower name)) name_keys.

Definition kept_by_rule (name : str) : bool :=
  ext_in_set_nocase name default_exts || name_contains_nocase name.
End Discovery.

(** Lower-casing of the ASCII letters, every other character unchanged. *)
Definition ascii_lower_char (c : codepoint) : codepoint :=
  if (65 <=? c) && (c <=? 90) then c + 32 else c.
Definition ascii_lower (s : str) : str := List.map ascii_lower_char s.

Definition is_ascii (s : str) : Prop := Forall (fun c => c < 128) s.

(** ** Values of the external parser *)

(** [str(n)] for an [int], which is also how an f-string renders it. *)
Definition str_int (z : Z) : str :=
  lit (NilZero.string_of_int (Z.to_int z)).

(** The plain data that an attribute of a decoded object may hold. *)
Inductive pyval : Type :=
| PNone
| PStr (s : str)
| PBytes (b : bytes)
| PInt (z : Z).

(** Truth value of a value in a condition. *)
Definition truthy (v : pyval) : bool :=
  match v with
  | PNone => false
  | PStr s => negb (bool_decide (s = []))
  | PBytes b => negb (bool_decide (b = []))
  | PInt z => negb (z =? 0)%Z
  end.

(** [a or b] *)
Definition py_or (a b : pyval) : pyval := if truthy a then a else b.

(** A decoded picture; saving it to a path may raise. *)
Record pil_image : Type := { save : result unit }.

(** The result of [read_typetree]: a dictionary of fields, in the order
    of their insertion.  The code asks whether it is empty and dumps it as
    JSON. *)
Abbreviation typetree := (list (list N * pyval)) (only parsing).

(** A decoded object, as far as the program looks at it: plain attributes
    by name, and the properties and methods whose evaluation is a
    computation of the parser and may raise. *)
Record decoded : Type := {
  attrs : gmap string pyval;
  image : result (option pil_image);            (* the property [image] *)
  samples : result (option (list (str * bytes))); (* the property [samples] *)
  export : result str;                          (* the method [export] *)
  read_typetree : result typetree               (* the method [read_typetree] *)
}.

(** An object of a container: the name of its type, its persistent id and
    the outcome of decoding it. *)
Record object : Type := {
  type_name : str;
  path_id : Z;
  read : result decoded
}.

(** [getattr(d, name, default)] and [hasattr(d, name)] on plain attributes. *)
Definition getattr (d : decoded) (name : string) (default : pyval) : pyval :=
  match attrs d !! name with
  | Some v => v
  | None => default
  end.
Definition hasattr (d : decoded) (name : string) : bool :=
  match attrs d !! name with
  | Some _ => true
  | None => false
  end.

Definition type_error : exn := lit "TypeError".

(** [sanitize_name(v)] on a value: a falsy value gives the fallback, a
    non-empty string is sanitized, and iterating anything else (or testing
    one of its items for membership in a string) is a [TypeError]. *)
Definition sanitize_value (v : pyval) : result str :=
  if truthy v then
    match v with
    | PStr s => Ok (sanitize_name (Some s))
    | _ => Raise type_error
    end
  else Ok (sanitize_name None).

(** *** [str] of a value *)

Definition hex_digit (n : N) : N := if n <? 10 then 48 + n else 87 + n.

(** One byte inside the [repr] of a bytes object quoted with [q]. *)
Definition repr_byte (q : N) (c : N) : str :=
  if (c =? q) || (c =? 92) then [92; c]
  else if c =? 9 then lit "\t"
  else if c =? 10 then lit "\n"
  else if c =? 13 then lit "\r"
  else if (c <? 32) || (127 <=? c) then [92; 120; hex_digit (c / 16); hex_digit (c mod 16)]
  else [c].

(** [repr(b)]: single quotes, unless the bytes hold a single quote and no
    double quote. *)
Definition repr_bytes (b : bytes) : str :=
  let q := if char_in 39 b && negb (char_in 34 b) then 34 else 39 in
  [98; q] ++ List.flat_map (repr_byte q) b ++ [q].

Definition py_str (v : pyval) : str :=
  match v with
  | PNone => lit "None"
  | PStr s => s
  | PBytes b => repr_bytes b
  | PInt z => str_int z
  end.

(** ** Effects *)

Inductive kind : Type :=
| textures | sprites | audio | meshes | texts | fonts | scripts | materials
| other.

Global Instance kind_eq_dec : EqDecision kind.
Proof. solve_decision. Defined.

(** The key of a kind in the dictionaries, and the name of its directory. *)
Definition kind_name (k : kind) : str :=
  match k with
  | textures => lit "textures"
  | sprites => lit "sprites"
  | audio => lit "audio"
  | meshes => lit "meshes"
  | texts => lit "texts"
  | fonts => lit "fonts"
  | scripts => lit "scripts"
  | materials => lit "materials"
  | other => lit "other"
  end.

(** A dictionary with the nine kinds as its keys. *)
Definition kind_stats := kind -> nat.

Definition zero_stats : kind_stats := fun _ => O.

(** [stats[k] += n] *)
Definition add_to (k : kind) (n : nat) (s : kind_stats) : kind_stats :=
  fun k' => if bool_decide (k' = k) then (s k' + n)%nat else s k'.

(** The extraction options: one flag per kind. *)
Definition options := kind -> bool.

(** The default of [extract_from_file]: everything enabled. *)
Definition default_options : options := fun _ => true.

(** What is written to a file. *)
Inductive content : Type :=
| Png (i : pil_image)
| Text (s : str)
| Binary (b : bytes)
| Json (t : typetree)
| Unfinished.                 (* left incomplete by a write that raised *)

Inductive level : Type := info | warning_level | error.

(** The lines of the log, by the place that writes them. *)
Inductive message : Type :=
| Processing (src : path)
| LoadFailed (src : path) (e : exn)
| Saved (k : kind) (p : path)
| SpriteNoImage (name : str)
| SpriteError (e : exn)
| ScriptError (e : exn)
| MeshNotExported (e : exn)
| MaterialNotExported (e : exn)
| ObjectError (e : exn)
| Stats (s : kind_stats).

(** The lines the front end shows in its own window. *)
Inductive gui_line : Type :=
| GuiProcessing (idx total : nat) (name : str)
| GuiExtracted (n : nat)
| GuiError (name : str) (e : exn).

(** What a run does to the outside world, in program order. *)
Inductive event : Type :=
| Mkdir (p : path)                     (* [mkdir(parents, exist_ok)] *)
| Write (p : path) (c : content)       (* a file created or overwritten *)
| Log (l : level) (m : message)
| Gui (g : gui_line).

(** The state a computation runs in: the dictionary of counts it updates
    and the events so far. *)
Record state : Type := { counts : kind_stats; trace : list event }.

(** A computation that updates the state and returns or raises. *)
Definition M (A : Type) : Type := state -> state * result A.

Global Instance M_ret : MRet M := fun A a s => (s, Ok a).
Global Instance M_bind : MBind M := fun A B f m s =>
  match m s with
  | (s', Ok a) => f a s'
  | (s', Raise e) => (s', Raise e)
  end.

Definition raise {A} (e : exn) : M A := fun s => (s, Raise e).

(** [try: m except Exception as e: h e] *)
Definition try_except {A} (m : M A) (h : exn -> M A) : M A := fun s =>
  match m s with
  | (s', Ok a) => (s', Ok a)
  | (s', Raise e) => h e s'
  end.

(** The outcome of an external call, inside a computation. *)
Definition call {A} (r : result A) : M A := fun s => (s, r).

Definition emit (ev : event) : M unit := fun s =>
  ({| counts := counts s; trace := trace s ++ [ev] |}, Ok tt).

(** [stats[k] += 1] *)
Definition count (k : kind) : M unit := fun s =>
  ({| counts := add_to k 1 (counts s); trace := trace s |}, Ok tt).

Definition logging (l : level) (m : message) : M unit := emit (Log l m).

(** [for x in l: body x] *)
Fixpoint for_each {A} (l : list A) (body : A -> M unit) : M unit :=
  match l with
  | [] => mret tt
  | x :: l' => body x;; for_each l' body
  end.

(** [p / name] *)
Definition child (p : path) (name : str) : path := p ++ [name].

(** [ensure_dir] *)
Definition ensure_dir (p : path) : M path := emit (Mkdir p);; mret p.

(** [image.save(out_path)] *)
Definition save_image (i : pil_image) (p : path) : M unit :=
  call (save i);; emit (Write p (Png i)).

(** Opening [p] in binary mode and writing [v] to it: the file is created
    by the [open], and writing anything but bytes then raises. *)
Definition write_binary (p : path) (v : pyval) : M unit :=
  match v with
  | PBytes b => emit (Write p (Binary b))
  | _ => emit (Write p (Binary []));; raise type_error
  end.

(** *** Text files *)

(** A surrogate code point, for which UTF-8 has no bytes. *)
Definition is_surrogate (c : codepoint) : bool := (55296 <=? c) && (c <=? 57343).

(** The surrogates U+DC80 to U+DCFF, each of which stands for one raw byte
    under [errors="surrogateescape"]. *)
Definition is_escaped_byte (c : codepoint) : bool := (56448 <=? c) && (c <=? 56575).

(** The error handler of a file opened for text. *)
Inductive errors : Type := strict | surrogateescape.

(** A string that the file can encode.  The encoding is UTF-8: the code
    names it, or leaves it to the locale, which is taken to be a UTF-8
    one. *)
Definition encodes (h : errors) (s : str) : bool :=
  forallb (fun c =>
             negb (is_surrogate c)
             || match h with
                | strict => false
                | surrogateescape => is_escaped_byte c
                end) s.

Definition encode_error : exn := lit "UnicodeEncodeError".

(** Opening [p] for text and writing [s] to it.  The file is created by
    the [open]; the string is encoded as a whole before any of it is
    written, so a string that does not encode leaves the file empty and
    raises. *)
Definition write_text (h : errors) (p : path) (s : str) : M unit :=
  if encodes h s then emit (Write p (Text s))
  else emit (Write p (Text []));; raise encode_error.

(** What stops [json.dump] at a value: a [bytes] object is not
    serializable, and a string is written as it is ([ensure_ascii=False])
    and must encode. *)
Definition json_value_error (v : pyval) : option exn :=
  match v with
  | PBytes _ => Some type_error
  | PStr s => if encodes strict s then None else Some encode_error
  | _ => None
  end.

(** The first failure of a dump of the fields, if there is one. *)
Fixpoint json_error (t : typetree) : option exn :=
  match t with
  | [] => None
  | (k, v) :: t' =>
      if encodes strict k then
        match json_value_error v with
        | Some e => Some e
        | None => json_error t'
        end
      else Some encode_error
  end.

(** Opening [p] for text and dumping [t] to it as JSON.  The dump writes
    piece by piece, so a failure leaves the file with what came before. *)
Definition write_json (p : path) (t : typetree) : M unit :=
  match json_error t with
  | None => emit (Write p (Json t))
  | Some e => emit (Write p Unfinished);; raise e
  end.

(** ** The extractors of [extract_from_file] *)

(** The file name of an object is built with f-strings. *)
Definition default_name (stem : string) (id : Z) : pyval :=
  PStr (lit stem ++ str_int id).

(** The branch for [Texture2D]. *)
Definition extract_texture (out_root : path) (obj : object) : M unit :=
  data ← call (read obj);
  img ← call (image data);
  match img with
  | Some i =>
      tex_name ← call (sanitize_value
                         (py_or (getattr data "name" PNone)
                            (py_or (getattr data "m_Name" PNone)
                               (default_name "texture_" (path_id obj)))));
      out_dir ← ensure_dir (child out_root (lit "textures"));
      let out_path :=
        child out_dir (tex_name ++ lit "_" ++ str_int (path_id obj) ++ lit ".png") in
      save_image i out_path;;
      logging info (Saved textures out_path);;
      count textures
  | None => mret tt
  end.

(** [extract_sprite] *)
Definition extract_sprite (sprite_obj : object) (out_dir : path) (id : Z) : M bool :=
  try_except
    (sprite ← call (read sprite_obj);
     name ← call (sanitize_value (getattr sprite "m_Name" (default_name "sprite_" id)));
     img ← call (image sprite);
     match img with
     | Some i =>
         let out_path := child out_dir (name ++ lit "_" ++ str_int id ++ lit ".png") in
         save_image i out_path;;
         logging info (Saved sprites out_path);;
         mret true
     | None =>
         logging warning_level (SpriteNoImage name);;
         mret false
     end)
    (fun e => logging error (SpriteError e);; mret false).

(** The words whose presence in the first hundred characters makes a
    script a [.cs] file. *)
Definition source_words : list str :=
  [lit "using "; lit "namespace "; lit "class "].

(** [extract_mono_script] *)
Definition extract_mono_script (script_obj : object) (out_dir : path) (id : Z) : M bool :=
  try_except
    (script ← call (read script_obj);
     name ← call (sanitize_value (getattr script "m_Name" (default_name "script_" id)));
     let script_data :=
       if hasattr script "m_Script" then getattr script "m_Script" PNone
       else if hasattr script "script" then getattr script "script" PNone
       else PNone in
     dumped ←
       (if truthy script_data then mret false
        else
          try_except
            (tree ← call (read_typetree script);
             match tree with
             | _ :: _ =>
                 let out_path := child out_dir (name ++ lit "_" ++ str_int id ++ lit ".json") in
                 write_json out_path tree;;
                 logging info (Saved scripts out_path);;
                 mret true
             | [] => mret false
             end)
            (fun _ => mret false));
     if (dumped : bool) then mret true
     else if truthy script_data then
       let ext :=
         if existsb (fun x => contains x (take 100 (py_str script_data))) source_words
         then lit ".cs" else lit ".txt" in
       let out_path := child out_dir (name ++ lit "_" ++ str_int id ++ ext) in
       match script_data with
       | PStr s => write_text surrogateescape out_path s
       | PBytes b => emit (Write out_path (Binary b))
       | _ => mret tt
       end;;
       logging info (Saved scripts out_path);;
       mret true
     else mret false)
    (fun e => logging error (ScriptError e);; mret false).

(** The branch for [Sprite]. *)
Definition extract_sprites (out_root : path) (obj : object) : M unit :=
  out_dir ← ensure_dir (child out_root (lit "sprites"));
  ok ← extract_sprite obj out_dir (path_id obj);
  if (ok : bool) then count sprites else mret tt.

(** The branch for [AudioClip]. *)
Definition extract_audio (out_root : path) (obj : object) : M unit :=
  clip ← call (read obj);
  smp ← call (samples clip);
  out_dir ← ensure_dir (child out_root (lit "audio"));
  match smp with
  | Some ((_ :: _) as d) =>
      for_each d (fun '(name, b) =>
        let fname :=
          sanitize_name
            (Some (if bool_decide (name = [])
                   then lit "audio_" ++ str_int (path_id obj) else name)) in
        let out_path := child out_dir (fname ++ lit ".wav") in
        emit (Write out_path (Binary b));;
        logging info (Saved audio out_path);;
        count audio)
  | _ => mret tt
  end.

(** The branch for [Mesh]. *)
Definition extract_mesh (out_root : path) (obj : object) : M unit :=
  mesh ← call (read obj);
  try_except
    (mesh_text ← call (export mesh);
     out_dir ← ensure_dir (child out_root (lit "meshes"));
     name ← call (sanitize_value (getattr mesh "m_Name" (default_name "mesh_" (path_id obj))));
     let out_path := child out_dir (name ++ lit ".obj") in
     write_text strict out_path mesh_text;;
     logging info (Saved meshes out_path);;
     count meshes)
    (fun e => logging warning_level (MeshNotExported e)).

(** The raw data of a text asset: [m_Script or script or text]. *)
Definition text_data (ta : decoded) : pyval :=
  py_or (getattr ta "m_Script" PNone)
    (py_or (getattr ta "script" PNone) (getattr ta "text" PNone)).

(** The branch for [TextAsset]. *)
Definition extract_text (out_root : path) (obj : object) : M unit :=
  ta ← call (read obj);
  out_dir ← ensure_dir (child out_root (lit "texts"));
  name ← call (sanitize_value (getattr ta "m_Name" (default_name "text_" (path_id obj))));
  let out_path := child out_dir (name ++ lit ".txt") in
  match text_data ta with
  | PStr s => write_text surrogateescape out_path s
  | PBytes b => emit (Write out_path (Binary b))
  | _ => mret tt
  end;;
  logging info (Saved texts out_path);;
  count texts.

(** The branch for [Font]. *)
Definition extract_font (out_root : path) (obj : object) : M unit :=
  font ← call (read obj);
  out_dir ← ensure_dir (child out_root (lit "fonts"));
  name ← call (sanitize_value (getattr font "m_Name" (default_name "font_" (path_id obj))));
  let font_data := getattr font "m_FontData" PNone in
  if truthy font_data then
    let extension :=
      match font_data with
      | PBytes b => if str_eqb (take 4 b) (lit "OTTO") then lit ".otf" else lit ".ttf"
      | _ => lit ".ttf"
      end in
    let out_path := child out_dir (name ++ extension) in
    write_binary out_path font_data;;
    logging info (Saved fonts out_path);;
    count fonts
  else mret tt.

(** The branch for [MonoBehaviour] and [MonoScript]. *)
Definition extract_scripts (out_root : path) (obj : object) : M unit :=
  out_dir ← ensure_dir (child out_root (lit "scripts"));
  ok ← extract_mono_script obj out_dir (path_id obj);
  if (ok : bool) then count scripts else mret tt.

(** The branch for [Material]. *)
Definition extract_material (out_root : path) (obj : object) : M unit :=
  mat ← call (read obj);
  try_except
    (tree ← call (read_typetree mat);
     match tree with
     | _ :: _ =>
         out_dir ← ensure_dir (child out_root (lit "materials"));
         name ← call (sanitize_value
                        (getattr mat "m_Name" (default_name "material_" (path_id obj))));
         let out_path := child out_dir (name ++ lit "_" ++ str_int (path_id obj) ++ lit ".json") in
         write_json out_path tree;;
         logging info (Saved materials out_path);;
         count materials
     | [] => mret tt
     end)
    (fun e => logging warning_level (MaterialNotExported e)).

(** The chain of [if]/[elif] on the type name and the option. *)
Definition handle_object (out_root : path) (opts : options) (obj : object) : M unit :=
  let tname := type_name obj in
  if str_eqb tname (lit "Texture2D") && opts textures then extract_texture out_root obj
  else if str_eqb tname (lit "Sprite") && opts sprites then extract_sprites out_root obj
  else if str_eqb tname (lit "AudioClip") && opts audio then extract_audio out_root obj
  else if str_eqb tname (lit "Mesh") && opts meshes then extract_mesh out_root obj
  else if str_eqb tname (lit "TextAsset") && opts texts then extract_text out_root obj
  else if str_eqb tname (lit "Font") && opts fonts then extract_font out_root obj
  else if in_set tname [lit "MonoBehaviour"; lit "MonoScript"] && opts scripts
       then extract_scripts out_root obj
  else if str_eqb tname (lit "Material") && opts materials then extract_material out_root obj
  else count other.

(** One turn of the loop over the objects: the body inside its [try]. *)
Definition guarded_object (out_root : path) (opts : options) (obj : object) : M unit :=
  try_except (handle_object out_root opts obj)
             (fun e => logging error (ObjectError e)).

(** Run [m] on a fresh dictionary of counts and return that dictionary;
    the counts of the caller are left as they were. *)
Definition with_new_stats (m : M unit) : M kind_stats := fun s =>
  match m {| counts := zero_stats; trace := trace s |} with
  | (s', Ok _) => ({| counts := counts s; trace := trace s' |}, Ok (counts s'))
  | (s', Raise e) => ({| counts := counts s; trace := trace s' |}, Raise e)
  end.

(** A file given to the engine: its path and what [UnityPy.load] answers,
    the objects of the environment or an exception. *)
Record source : Type := { src_path : path; src_load : result (list object) }.

(** [if options is None: options = ...] *)
Definition options_or_default (opts : option options) : options :=
  match opts with
  | None => default_options
  | Some o => o
  end.

(** [extract_from_file]; [None] stands for the value [None]. *)
Definition extract_from_file (src : source) (out_root : path) (opts : option options)
  : M (option kind_stats) :=
  let opts := options_or_default opts in
  logging info (Processing (src_path src));;
  match src_load src with
  | Raise e =>
      logging error (LoadFailed (src_path src) e);;
      mret None
  | Ok objects =>
      stats ← with_new_stats (for_each objects (guarded_object out_root opts));
      logging info (Stats stats);;
      mret (Some stats)
  end.

(** ** The batch loop of [start_extraction] *)

(** [p.stem] *)
Definition stem (name : str) : str :=
  match rfind dot name 0 with
  | Some i =>
      if (0 <? i)%nat && (i <? length name - 1)%nat then take i name else name
  | None => name
  end.

(** The keys of a dictionary of counts, in the order of their insertion. *)
Definition all_kinds : list kind :=
  [textures; sprites; audio; meshes; texts; fonts; scripts; materials; other].

(** [total_stats[k] += v] *)
Definition add_total (k : kind) (v : nat) : M unit := fun s =>
  ({| counts := add_to k v (counts s); trace := trace s |}, Ok tt).

(** [sum(v for k, v in stats.items() if k != "other")] *)
Definition total_extracted (stats : kind_stats) : nat :=
  list_sum (List.map stats (List.filter (fun k => negb (bool_decide (k = other))) all_kinds)).

(** [enumerate(files, i)] *)
Fixpoint enumerate {A} (i : nat) (l : list A) : list (nat * A) :=
  match l with
  | [] => []
  | x :: l' => (i, x) :: enumerate (S i) l'
  end.

(** The body of the loop over the files, inside its [try]; the state holds
    [total_stats]. *)
Definition process_file (n : nat) (out_root : path) (opts : options)
           (idx : nat) (f : source) : M unit :=
  try_except
    (sub_out ← ensure_dir (child out_root (stem (path_name (src_path f))));
     emit (Gui (GuiProcessing idx n (path_name (src_path f))));;
     stats ← extract_from_file f sub_out (Some opts);
     match stats with
     | Some st =>
         for_each all_kinds (fun k => add_total k (st k));;
         emit (Gui (GuiExtracted (total_extracted st)))
     | None => mret tt
     end)
    (fun e => emit (Gui (GuiError (path_name (src_path f)) e))).

(** The loop of [start_extraction] over the files it found, from the
    creation of [total_stats] to the end of the loop: the totals and the
    events of the run. *)
Definition start_extraction (files : list source) (out_root : path) (opts : options)
  : kind_stats * list event :=
  let '(s, _) :=
    for_each (enumerate 1 files)
      (fun '(idx, f) => process_file (length files) out_root opts idx f)
      {| counts := zero_stats; trace := [Mkdir out_root] |} in
  (counts s, trace s).

(** ** Notions used to state the properties *)

(** What a pattern matches, without the order in which the matcher tries
    the alternatives: [matches r s s'] says that [r] matches a prefix of
    [s] and leaves [s']. *)
Inductive matches : regex -> list N -> list N -> Prop :=
| matches_eps s : matches Eps s s
| matches_chr c s : matches (Chr c) (c :: s) s
| matches_cls (p : N -> bool) c s : p c = true -> matches (Cls p) (c :: s) s
| matches_rep greedy min (p : N -> bool) ds s :
    Forall (fun c => p c = true) ds -> (min <= length ds)%nat ->
    matches (Rep greedy min p) (ds ++ s) s
| matches_cat r1 r2 s s1 s2 :
    matches r1 s s1 -> matches r2 s1 s2 -> matches (Cat r1 r2) s s2
| matches_group n r s s' : matches r s s' -> matches (Group n r) s s'.

(** [r] matches somewhere in [h]. *)
Definition occurs (r : regex) (h : list N) : Prop :=
  exists pre t s', h = pre ++ t /\ matches r t s'.

(** The priority order as the specification gives it: the pattern with the
    [Unity ] prefix first, the bare version second, [UnityFS] third. *)
Definition specified_order : list regex :=
  [pattern_unity; pattern_bare; pattern_unityfs].

(** The record for the version text [v] found in the header of [f]. *)
Definition found_in_header (f : probe) (v : str) : version_info :=
  {| version := v; detected_from := Some (probe_name f);
     compatible := true; warning := None |}.

(** The record of a failed detection. *)
Definition unknown_with (w : option str) : version_info :=
  {| version := lit "Unknown"; detected_from := None;
     compatible := true; warning := w |}.

(** The characters a pattern can consume. *)
Fixpoint accepts (r : regex) (c : N) : Prop :=
  match r with
  | Eps => False
  | Chr c' => c = c'
  | Cls p => p c = true
  | Rep _ _ p => p c = true
  | Cat r1 r2 => accepts r1 c \/ accepts r2 c
  | Group _ r1 => accepts r1 c
  end.

(** The kind a type name belongs to, in the order of the tests of
    [extract_from_file]. *)
Definition kind_of_type (tname : str) : kind :=
  if str_eqb tname (lit "Texture2D") then textures
  else if str_eqb tname (lit "Sprite") then sprites
  else if str_eqb tname (lit "AudioClip") then audio
  else if str_eqb tname (lit "Mesh") then meshes
  else if str_eqb tname (lit "TextAsset") then texts
  else if str_eqb tname (lit "Font") then fonts
  else if in_set tname [lit "MonoBehaviour"; lit "MonoScript"] then scripts
  else if str_eqb tname (lit "Material") then materials
  else other.

(** The kind an object is handled as: the kind of its type name when the
    option of that kind is enabled, and [other] in every other case. *)
Definition dispatched (opts : options) (obj : object) : kind :=
  let k := kind_of_type (type_name obj) in
  if opts k then k else other.

(** The directory of a kind under the output root. *)
Definition kind_dir (out_root : path) (k : kind) : path :=
  child out_root (kind_name k).

(** The paths of the files written, in order. *)
Fixpoint written (tr : list event) : list path :=
  match tr with
  | [] => []
  | Write p _ :: tr' => p :: written tr'
  | _ :: tr' => written tr'
  end.

(** The directories created, in order. *)
Fixpoint created (tr : list event) : list path :=
  match tr with
  | [] => []
  | Mkdir p :: tr' => p :: created tr'
  | _ :: tr' => created tr'
  end.

(** The files on which the engine was started, in order: the paths of the
    lines that [extract_from_file] logs when it is entered. *)
Fixpoint processed (tr : list event) : list path :=
  match tr with
  | [] => []
  | Log info (Processing p) :: tr' => p :: processed tr'
  | _ :: tr' => processed tr'
  end.

(** The state before anything has happened. *)
Definition start : state := {| counts := zero_stats; trace := [] |}.

(** The value [extract_from_file] returns for a file of a batch. *)
Definition file_stats (out_root : path) (opts : options) (f : source)
  : option kind_stats :=
  match extract_from_file f (child out_root (stem (path_name (src_path f))))
          (Some opts) start with
  | (_, Ok r) => r
  | (_, Raise _) => None
  end.

(** What a file adds to the count of [k]: nothing when it has no stats. *)
Definition contribution (out_root : path) (opts : options) (k : kind) (f : source) : nat :=
  match file_stats out_root opts f with
  | Some st => st k
  | None => O
  end.

(** A computation whose events do not depend on the events before it: it
    only appends to the trace. *)
Definition shift {A} (t : list event) (r : state * result A) : state * result A :=
  ({| counts := counts r.1; trace := t ++ trace r.1 |}, r.2).

Definition appends {A} (m : M A) : Prop :=
  forall c t, m {| counts := c; trace := t |} = shift t (m {| counts := c; trace := [] |}).

(** Every event of the computation satisfies [P]. *)
Definition emits {A} (P : event -> Prop) (m : M A) : Prop :=
  appends m /\ forall c, Forall P (trace (m {| counts := c; trace := [] |}).1).

(** An object has something of kind [k] to write.  For the three kinds
    whose directory is made late this is the decoded payload; the other
    kinds make their directory before they look. *)
Definition ready (k : kind) (obj : object) : Prop :=
  match k with
  | textures => exists d i, read obj = Ok d /\ image d = Ok (Some i)
  | meshes => exists d t, read obj = Ok d /\ export d = Ok t
  | materials => exists d t, read obj = Ok d /\ read_typetree d = Ok t /\ t <> []
  | _ => True
  end.

(** The events that handling one object can cause. *)
Inductive object_event (out_root : path) (opts : options) (obj : object)
  : event -> Prop :=
| object_mkdir k :
    k <> other -> dispatched opts obj = k -> ready k obj ->
    object_event out_root opts obj (Mkdir (kind_dir out_root k))
| object_write p c : object_event out_root opts obj (Write p c)
| object_saved k p : object_event out_root opts obj (Log info (Saved k p))
| object_warning m : object_event out_root opts obj (Log warning_level m)
| object_error m : object_event out_root opts obj (Log error m).

(** The events of a pass over the objects of a container. *)
Definition pass_event (out_root : path) (opts : options) (src : source) (ev : event) : Prop :=
  (exists objs obj, src_load src = Ok objs /\ obj ∈ objs
                    /\ object_event out_root opts obj ev)
  \/ (exists m, ev = Log info m /\ (m = Processing (src_path src) \/ exists st, m = Stats st))
  \/ (exists e, ev = Log error (LoadFailed (src_path src) e)).

(** The display name of a texture after sanitizing: the first argument of
    the f-string that names its file. *)
Definition texture_name (d : decoded) (id : Z) : result str :=
  sanitize_value
    (py_or (getattr d "name" PNone)
       (py_or (getattr d "m_Name" PNone) (default_name "texture_" id))).

(** *** Inputs of the examples *)

Definition plain (l : list (string * pyval)) : gmap string pyval := list_to_map l.

(** A decoded object with plain attributes only. *)
Definition bag (l : list (string * pyval)) : decoded :=
  {| attrs := plain l; image := Ok None; samples := Ok None;
     export := Raise (lit "no export"); read_typetree := Raise (lit "no typetree") |}.

Definition out_dir_example : path := [lit "out"].

(** Two meshes with the same name and different ids. *)
Definition mesh_example (id : Z) : object :=
  {| type_name := lit "Mesh"; path_id := id;
     read := Ok {| attrs := plain [("m_Name", PStr (lit "Cube"))];
                   image := Ok None; samples := Ok None;
                   export := Ok (lit "v 0 0 0");
                   read_typetree := Raise (lit "no typetree") |} |}.

(** Two textures with the same name and different ids. *)
Definition texture_example (id : Z) : object :=
  {| type_name := lit "Texture2D"; path_id := id;
     read := Ok {| attrs := plain [("m_Name", PStr (lit "Wall"))];
                   image := Ok (Some {| save := Ok tt |}); samples := Ok None;
                   export := Raise (lit "no export");
                   read_typetree := Raise (lit "no typetree") |} |}.

(** An audio clip that decodes to no samples. *)
Definition silent_clip : object :=
  {| type_name := lit "AudioClip"; path_id := 7;
     read := Ok {| attrs := plain [("m_Name", PStr (lit "Silence"))];
                   image := Ok None; samples := Ok (Some []);
                   export := Raise (lit "no export");
                   read_typetree := Raise (lit "no typetree") |} |}.

(** A text asset without any of the three data attributes. *)
Definition empty_text : object :=
  {| type_name := lit "TextAsset"; path_id := 3;
     read := Ok (bag [("m_Name", PStr (lit "notes"))]) |}.

(** An object that fails to decode, and one of a type the engine skips. *)
Definition broken_object : object :=
  {| type_name := lit "Texture2D"; path_id := 1; read := Raise (lit "bad data") |}.
Definition unknown_object : object :=
  {| type_name := lit "GameObject"; path_id := 2; read := Ok (bag []) |}.

Definition source_example (name : string) (l : result (list object)) : source :=
  {| src_path := [lit "in"; lit name]; src_load := l |}.

(** A file for which the parser exposes an empty version. *)
Definition empty_version : probe :=
  {| probe_name := lit "level0"; probe_load := Ok (Some []);
     probe_bytes := Ok (lit "2021.3.10f1") |}.

(** A version whose major has one digit more than [int] accepts. *)
Definition long_version : str := List.repeat 49 4301 ++ lit ".1".

(** A header in which the first two patterns both match. *)
Definition two_versions : probe :=
  {| probe_name := lit "data.unity3d"; probe_load := Ok None;
     probe_bytes := Ok (lit "1.2.3 Unity 4.5.6") |}.

(** The directory of the discovery example. *)
Definition three_files : directory :=
  {| dir_path := [lit "game"];
     dir_children := [File (lit "a.assets"); File (lit "b.txt");
                      File (lit "sharedassets0.resource")] |}.

(** A directory with candidates below the top level, one of them with an
    extension in capitals. *)
Definition nested_files : directory :=
  {| dir_path := [lit "data"];
     dir_children := [File (lit "readme.md");
                      Dir (lit "sub") [File (lit "x.BUNDLE"); File (lit "Level0")]] |}.

(** A directory whose first entry is a subdirectory with a file in it. *)
Definition subdirectory_first : directory :=
  {| dir_path := [lit "root"];
     dir_children := [Dir (lit "sub2") [File (lit "x.assets")];
                      File (lit "z2.assets")] |}.

(** A directory in which no file matches the rule. *)
Definition no_candidates : directory :=
  {| dir_path := [lit "docs"];
     dir_children := [File (lit "b.txt"); Dir (lit "sub") [File (lit "c.md")]] |}.

(** ** Further notions *)

(** Everything at and below [n], a node at a time: the entries of [rglob]
    in another order, which is easier to reason about. *)
Fixpoint walk (base : path) (n : node) : list entry :=
  match n with
  | File name => [ {| entry_path := base ++ [name]; entry_is_file := true |} ]
  | Dir name children =>
      {| entry_path := base ++ [name]; entry_is_file := false |}
        :: List.flat_map (walk (base ++ [name])) children
  end.

Definition walked (root : directory) : list entry :=
  List.flat_map (walk (dir_path root)) (dir_children root).

(** The characters that POSIX or Windows refuse in a file name: the
    separators, the colon, the wildcards, the angle brackets, the bar and
    the double quote (code 34). *)
Definition forbidden_in_names : list N := lit "/\:*?<>|" ++ [34].

(** A character that can stand in a file name on every platform. *)
Definition safe_char (c : N) : bool :=
  (32 <=? c) && negb (c =? 127) && negb (char_in c forbidden_in_names).

(** The text both front ends show for a detection: the version with the
    message of the compatibility check, unless the version is ["Unknown"]. *)
Definition version_display (decimal_value : codepoint -> option N)
           (vi : version_info) : str :=
  if negb (str_eqb (version vi) (lit "Unknown")) then
    version vi ++ lit " (" ++ (check_version_compatibility decimal_value (version vi)).2
      ++ lit ")"
  else lit "Could not detect version".

(** A string holds an ASCII capital letter. *)
Definition has_capital (s : str) : bool :=
  existsb (fun c => (65 <=? c) && (c <=? 90)) s.

(** The name of a node. *)
Definition node_name (n : node) : str :=
  match n with
  | File name => name
  | Dir name _ => name
  end.

(** In every directory of the tree the names are pairwise different, as a
    file system has them. *)
Fixpoint well_named (n : node) : Prop :=
  match n with
  | File _ => True
  | Dir _ children =>
      NoDup (List.map node_name children)
      /\ (fix all (l : list node) : Prop :=
            match l with
            | [] => True
            | c :: l' => well_named c /\ all l'
            end) children
  end.

Definition well_named_dir (root : directory) : Prop :=
  well_named (Dir [] (dir_children root)).

(** Every file of [evs] is written, under a name of allow-listed
    characters, directly into a directory of [D] or into one that [evs]
    created before the write. *)
Fixpoint well_placed (D : list path) (evs : list event) : Prop :=
  match evs with
  | [] => True
  | Mkdir p :: evs' => well_placed (p :: D) evs'
  | Write p _ :: evs' =>
      (exists d fname, p = child d fname /\ d ∈ D
                       /\ Forall (fun c => char_in c keep = true) fname)
      /\ well_placed D evs'
  | _ :: evs' => well_placed D evs'
  end.

(** A computation whose own events are well placed, given the
    directories [D]. *)
Definition placed {A} (D : list path) (m : M A) : Prop :=
  forall s, exists evs, trace (m s).1 = trace s ++ evs /\ well_placed D evs.

(** The number of samples an audio clip decodes to. *)
Definition sample_count (obj : object) : nat :=
  match read obj with
  | Ok clip =>
      match samples clip with
      | Ok (Some d) => length d
      | _ => O
      end
  | Raise _ => O
  end.

(** The objects of a list that are handled as kind [k]. *)
Definition handled_as (opts : options) (k : kind) (objs : list object) : list object :=
  List.filter (fun obj => bool_decide (dispatched opts obj = k)) objs.

(** What one object can add to the count of [k]: one when it is handled as
    [k], or its number of samples when [k] is [audio]. *)
Definition weight (opts : options) (k : kind) (obj : object) : nat :=
  if bool_decide (dispatched opts obj = k) then
    match k with
    | audio => sample_count obj
    | _ => 1%nat
    end
  else O.

(** The number of files one object can give. *)
Definition max_files (opts : options) (obj : object) : nat :=
  match dispatched opts obj with
  | other => O
  | audio => sample_count obj
  | _ => 1%nat
  end.

(** A computation that touches the count of [k0] only, raising it by at
    most [cap], and writes at most [cap] files. *)
Definition one_step {A} (k0 : kind) (cap : nat) (m : M A) : Prop :=
  forall s, exists evs,
    trace (m s).1 = trace s ++ evs
    /\ (length (written evs) <= cap)%nat
    /\ (forall k, k <> k0 -> counts (m s).1 k = counts s k)
    /\ (counts s k0 <= counts (m s).1 k0 <= counts s k0 + cap)%nat.

(** The body of the loop over the samples of an audio clip. *)
Definition write_sample (out_dir : path) (id : Z) (entry : list N * list N) : M unit :=
  let '(name, b) := entry in
  let fname :=
    sanitize_name
      (Some (if bool_decide (name = [])
             then lit "audio_" ++ str_int id else name)) in
  let out_path := child out_dir (fname ++ lit ".wav") in
  emit (Write out_path (Binary b));;
  logging info (Saved audio out_path);;
  count audio.

(** Options with everything enabled but one kind. *)
Definition without (k0 : kind) : options :=
  fun k => negb (bool_decide (k = k0)).

(** A mesh whose exported text holds a lone surrogate. *)
Definition unencodable_mesh : object :=
  {| type_name := lit "Mesh"; path_id := 4;
     read := Ok {| attrs := plain [("m_Name", PStr (lit "Rock"))];
                   image := Ok None; samples := Ok None;
                   export := Ok (lit "o " ++ [55296]);
                   read_typetree := Raise (lit "no typetree") |} |}.

(** An audio clip that decodes to two samples, one of them unnamed. *)
Definition two_samples : object :=
  {| type_name := lit "AudioClip"; path_id := 9;
     read := Ok {| attrs := plain [("m_Name", PStr (lit "Steps"))];
                   image := Ok None;
                   samples := Ok (Some [(lit "step1", lit "RIFF"); ([], lit "RIFF")]);
                   export := Raise (lit "no export");
                   read_typetree := Raise (lit "no typetree") |} |}.




(** The lines shown in the window of the front end, in order. *)
Fixpoint gui_lines (tr : list event) : list gui_line :=
  match tr with
  | [] => []
  | Gui g :: tr' => g :: gui_lines tr'
  | _ :: tr' => gui_lines tr'
  end.

(** The numbers of the lines that report what one file gave. *)
Fixpoint reported (ls : list gui_line) : list nat :=
  match ls with
  | [] => []
  | GuiExtracted n :: ls' => n :: reported ls'
  | _ :: ls' => reported ls'
  end.

(** The lines of one file of a batch of [n]: its place in the batch and
    its name, then what it gave when the container opened. *)
Definition file_lines (n : nat) (out_root : path) (opts : options)
           (f : nat * source) : list gui_line :=
  GuiProcessing f.1 n (path_name (src_path f.2))
  :: match file_stats out_root opts f.2 with
     | Some st => [GuiExtracted (total_extracted st)]
     | None => []
     end.

(** The kinds whose file names carry the id of the object. *)
Definition tagged (k : kind) : bool :=
  match k with
  | textures | sprites | scripts | materials => true
  | _ => false
  end.

(** A path whose last component ends in an underscore, the decimal text of
    [id] and one of the endings of the tagged kinds. *)
Definition id_tagged (id : Z) (p : path) : Prop :=
  exists d name ext,
    p = child d (name ++ lit "_" ++ str_int id ++ ext)
    /\ List.In ext [lit ".png"; lit ".json"; lit ".cs"; lit ".txt"].

(** The files that handling one object writes, in order. *)
Definition object_files (out_root : path) (opts : options) (obj : object)
           (c : kind_stats) : list path :=
  written (trace (guarded_object out_root opts obj {| counts := c; trace := [] |}).1).

(** The part of a string after the last occurrence of [c]. *)
Fixpoint after_last (c : N) (s : list N) : option (list N) :=
  match s with
  | [] => None
  | x :: s' =>
      match after_last c s' with
      | Some t => Some t
      | None => if N.eqb x c then Some s' else None
      end
  end.

(** * Properties *)

(** ** The name sanitizer *)

Lemma lookup_map {A B} (f : A -> B) (l : list A) (i : nat) :
  List.map f l !! i = f <$> (l !! i).
Proof.
  revert i. induction l as [|x l IH]; intros [|i]; simpl; auto.
Qed.

Lemma underscore_kept : char_in underscore keep = true.
Proof. reflexivity. Qed.

Lemma unnamed_kept : Forall (fun c => char_in c keep = true) (lit "unnamed").
Proof. repeat constructor. Qed.

Lemma or_unnamed_nonempty (name : option str) : or_unnamed name <> [].
Proof. destruct name as [[|c s]|]; discriminate. Qed.

Lemma sanitize_char_kept (c : codepoint) :
  char_in (if char_in c keep then c else underscore) keep = true.
Proof. destruct (char_in c keep) eqn:E; [exact E | exact underscore_kept]. Qed.

(** C5. The sanitizer is a total function of an optional string.  It keeps
    the length of [name or "unnamed"] and rewrites it character by
    character, a character outside the allow-list becoming an underscore;
    for a missing or empty name the result is ["unnamed"]; and every result
    consists of allow-listed characters only and is not empty, also for a
    name made of disallowed characters only. *)
Theorem sanitize_name_allowlisted (name : option str) :
  length (sanitize_name name) = length (or_unnamed name)
  /\ (forall i c, or_unnamed name !! i = Some c ->
        sanitize_name name !! i = Some (if char_in c keep then c else underscore))
  /\ sanitize_name None = lit "unnamed"
  /\ sanitize_name (Some []) = lit "unnamed"
  /\ (forall c s, name = Some (c :: s) -> or_unnamed name = c :: s)
  /\ Forall (fun c => char_in c keep = true) (sanitize_name name)
  /\ sanitize_name name <> []
  /\ sanitize_name (Some (lit "/:*?")) = lit "____".
Proof.
  unfold sanitize_name. repeat split.
  - apply length_map.
  - intros i c Hi. rewrite lookup_map, Hi. reflexivity.
  - intros c s ->. reflexivity.
  - apply Forall_forall. intros c Hc. apply list_elem_of_In, in_map_iff in Hc.
    destruct Hc as (c0 & <- & _). apply sanitize_char_kept.
  - intros H. apply map_eq_nil in H. exact (or_unnamed_nonempty name H).
Qed.

(** ** The matcher *)

Lemma span_app (p : N -> bool) (s ds rest : list N) :
  span p s = (ds, rest) -> s = ds ++ rest.
Proof.
  revert ds rest. induction s as [|c s IH]; simpl; intros ds rest H.
  - inversion H; reflexivity.
  - destruct (p c).
    + destruct (span p s) as [ds' rest'] eqn:E. inversion H; subst.
      simpl. f_equal. apply IH. reflexivity.
    + inversion H; reflexivity.
Qed.

Lemma span_all (p : N -> bool) (s ds rest : list N) :
  span p s = (ds, rest) -> Forall (fun c => p c = true) ds.
Proof.
  revert ds rest. induction s as [|c s IH]; simpl; intros ds rest H.
  - inversion H; constructor.
  - destruct (p c) eqn:Hc.
    + destruct (span p s) as [ds' rest'] eqn:E. inversion H; subst.
      constructor; [exact Hc | eapply IH; reflexivity].
    + inversion H; constructor.
Qed.

Lemma take_prefix (ds rest : list N) :
  take (length (ds ++ rest) - length rest) (ds ++ rest) = ds.
Proof.
  rewrite length_app.
  replace (length ds + length rest - length rest)%nat with (length ds) by lia.
  apply take_app_length.
Qed.

Lemma take_prefix_of (s ds rest : list N) :
  s = ds ++ rest -> take (length s - length rest) s = ds.
Proof. intros ->. apply take_prefix. Qed.

(** A greedy repetition that cannot reach its minimum fails. *)
Lemma rep_greedy_short {R} (p : N -> bool) (s : list N) :
  forall min (k : list N -> option R),
    (length (span p s).1 < min)%nat -> rep_greedy p min s k = None.
Proof.
  induction s as [|c s IH]; intros min k H; simpl in *.
  - destruct min; [lia | reflexivity].
  - destruct (p c).
    + destruct (span p s) as [ds rest] eqn:E. simpl in *.
      destruct min as [|m]; [lia|]. simpl.
      rewrite IH by (simpl; lia). reflexivity.
    + destruct min; [simpl in H; lia | reflexivity].
Qed.

(** A greedy repetition first offers the longest run to what follows. *)
Lemma rep_greedy_longest {R} (p : N -> bool) (s : list N) :
  forall min (k : list N -> option R) x,
    (min <= length (span p s).1)%nat -> k (span p s).2 = Some x ->
    rep_greedy p min s k = Some x.
Proof.
  induction s as [|c s IH]; intros min k x Hmin Hk; simpl in *.
  - destruct min; [exact Hk | lia].
  - destruct (p c).
    + destruct (span p s) as [ds rest] eqn:E. simpl in *.
      rewrite (IH (Nat.pred min) k x); [reflexivity | lia | exact Hk].
    + simpl in *. destruct min; [exact Hk | lia].
Qed.

(** When what follows refuses every string that starts with a repeated
    character, only the longest run is of use. *)
Lemma rep_greedy_only_longest {R} (p : N -> bool) (s : list N) :
  forall min (k : list N -> option R),
    (forall c t, p c = true -> k (c :: t) = None) ->
    (min <= length (span p s).1)%nat ->
    rep_greedy p min s k = k (span p s).2.
Proof.
  induction s as [|c s IH]; intros min k Hk Hmin; simpl in *.
  - destruct min; [reflexivity | lia].
  - destruct (p c) eqn:Hc.
    + destruct (span p s) as [ds rest] eqn:E. simpl in *.
      rewrite (IH (Nat.pred min) k Hk) by lia.
      destruct (k rest) eqn:Hrest; [reflexivity|].
      destruct min; [apply Hk; exact Hc | reflexivity].
    + simpl in *. destruct min; [reflexivity | lia].
Qed.

(** ** The compatibility check *)

Lemma int_digits_some (decimal_value : codepoint -> option N) (s : str) :
  Forall (fun c => is_decimal decimal_value c = true) s ->
  forall acc, is_Some (int_digits decimal_value acc s).
Proof.
  induction 1 as [|c s Hc _ IH]; intros acc; simpl; [eauto|].
  unfold is_decimal in Hc. destruct (decimal_value c); [apply IH | discriminate].
Qed.

Section CompatibilityFacts.
Variable decimal_value : codepoint -> option N.
(** On ASCII the table is the one of the digits [0] to [9]. *)
Hypothesis decimal_ascii : forall c, c < 128 -> decimal_value c = ascii_decimal c.

Lemma dot_not_decimal : is_decimal decimal_value dot = false.
Proof. unfold is_decimal. rewrite decimal_ascii by reflexivity. reflexivity. Qed.

Lemma decimal_not_dot (c : codepoint) :
  is_decimal decimal_value c = true -> N.eqb dot c = false.
Proof.
  intros H. destruct (N.eqb_spec dot c) as [<-|]; [|reflexivity].
  rewrite dot_not_decimal in H. discriminate.
Qed.

Lemma int_of_within (s : str) :
  s <> [] -> (length s <= int_max_str_digits)%nat ->
  int_of decimal_value s = int_digits decimal_value 0%Z s.
Proof.
  intros Hs Hl. destruct s as [|c s]; [congruence|]. unfold int_of.
  destruct (Nat.ltb_spec int_max_str_digits (length (c :: s))); [lia | reflexivity].
Qed.

Lemma int_of_beyond (s : str) :
  (int_max_str_digits < length s)%nat -> int_of decimal_value s = None.
Proof.
  intros Hl. destruct s as [|c s]; [reflexivity|]. unfold int_of.
  destruct (Nat.ltb_spec int_max_str_digits (length (c :: s))); [reflexivity | lia].
Qed.

(** The pattern finds exactly the two runs that the scanner finds. *)
Lemma re_match_texts (s : str) :
  match re_match (pattern_major_minor decimal_value) s with
  | Some m =>
      match m !! 1%nat, m !! 2%nat with
      | Some a, Some b => Some (a, b)
      | _, _ => None
      end
  | None => None
  end = leading_texts decimal_value s.
Proof.
  unfold re_match, pattern_major_minor, leading_texts, span_digits.
  cbn [rmatch].
  set (d := is_decimal decimal_value).
  destruct (span d s) as [a r] eqn:Ea.
  assert (Hs : s = a ++ r) by (eapply span_app; exact Ea).
  destruct a as [|a0 a].
  { rewrite rep_greedy_short; [reflexivity | rewrite Ea; simpl; lia]. }
  rewrite rep_greedy_only_longest.
  2:{ intros c t Hc. rewrite (decimal_not_dot c Hc). reflexivity. }
  2:{ rewrite Ea. simpl. lia. }
  rewrite Ea. cbn [fst snd].
  destruct r as [|c r']; [reflexivity|].
  destruct (N.eqb_spec dot c) as [<-|Hne].
  2:{ destruct (N.eqb_spec c dot); [congruence | reflexivity]. }
  rewrite N.eqb_refl.
  destruct (span d r') as [b rest] eqn:Eb.
  assert (Hr : r' = b ++ rest) by (eapply span_app; exact Eb).
  destruct b as [|b0 b].
  { rewrite rep_greedy_short; [reflexivity | rewrite Eb; simpl; lia]. }
  erewrite rep_greedy_longest; [| rewrite Eb; simpl; lia | rewrite Eb; reflexivity].
  rewrite lookup_insert_ne by discriminate.
  rewrite !lookup_insert_eq.
  cbn [fst snd].
  rewrite (take_prefix_of r' (b0 :: b) rest Hr).
  rewrite (take_prefix_of s (a0 :: a) (dot :: r') Hs).
  reflexivity.
Qed.

(** The check reads the two runs with [int] and applies the rules. *)
Lemma check_by_texts (s : str) :
  check_version_compatibility decimal_value s
  = match leading_texts decimal_value s with
    | Some (a, b) =>
        match int_of decimal_value a, int_of decimal_value b with
        | Some major, Some minor =>
            if ((major <? 3) || ((major =? 3) && (minor <? 4)))%Z
            then too_old
            else if (major >? 2023)%Z then newer
            else supported
        | _, _ => inconclusive
        end
    | None => inconclusive
    end.
Proof.
  unfold check_version_compatibility. rewrite <- re_match_texts.
  destruct (re_match (pattern_major_minor decimal_value) s) as [m|]; [|reflexivity].
  unfold int_group.
  destruct (m !! 1%nat) as [a|]; [|reflexivity].
  destruct (m !! 2%nat) as [b|]; [reflexivity|].
  destruct (int_of decimal_value a); reflexivity.
Qed.

Lemma leading_texts_shape (s : str) (a b : str) :
  leading_texts decimal_value s = Some (a, b) ->
  a <> [] /\ b <> []
  /\ Forall (fun c => is_decimal decimal_value c = true) a
  /\ Forall (fun c => is_decimal decimal_value c = true) b
  /\ exists rest, s = a ++ dot :: b ++ rest.
Proof.
  unfold leading_texts, span_digits.
  destruct (span (is_decimal decimal_value) s) as [a' r] eqn:Ea.
  pose proof (span_all _ _ _ _ Ea) as Hda. apply span_app in Ea.
  destruct a' as [|a0 a']; [discriminate|].
  destruct r as [|c r']; [discriminate|].
  destruct (N.eqb_spec c dot) as [->|]; [|discriminate].
  destruct (span (is_decimal decimal_value) r') as [b' rest] eqn:Eb.
  pose proof (span_all _ _ _ _ Eb) as Hdb. apply span_app in Eb.
  destruct b' as [|b0 b']; [discriminate|].
  intros [= <- <-]. cbn [fst] in *.
  repeat split; try discriminate; auto.
  exists rest. rewrite Ea, Eb. reflexivity.
Qed.

(** The scanner of the specification reads the two runs as numbers. *)
Lemma leading_major_minor_texts (s : str) :
  leading_major_minor decimal_value s
  = match leading_texts decimal_value s with
    | Some (a, b) =>
        match int_digits decimal_value 0%Z a, int_digits decimal_value 0%Z b with
        | Some major, Some minor => Some (major, minor)
        | _, _ => None
        end
    | None => None
    end.
Proof.
  unfold leading_major_minor, leading_texts, span_digits.
  destruct (span (is_decimal decimal_value) s) as [a r].
  destruct a as [|a0 a]; [reflexivity|].
  destruct r as [|c r']; [reflexivity|].
  destruct (N.eqb c dot); [|reflexivity].
  destruct (span (is_decimal decimal_value) r') as [b rest].
  destruct b; reflexivity.
Qed.

Lemma rules_agree (major minor : Z) :
  (if ((major <? 3) || ((major =? 3) && (minor <? 4)))%Z then too_old
   else if (major >? 2023)%Z then newer else supported)
  = (if bool_decide (major < 3 \/ (major = 3 /\ minor < 4))%Z then too_old
     else if bool_decide (major > 2023)%Z then newer else supported).
Proof.
  rewrite Z.gtb_ltb.
  destruct (Z.ltb_spec major 3), (Z.eqb_spec major 3), (Z.ltb_spec minor 4),
    (Z.ltb_spec 2023 major); cbn [orb andb];
    repeat case_bool_decide; try reflexivity; lia.
Qed.

(** Within the limit of [int] the check is the classifier of the
    specification. *)
Lemma check_is_classify (s : str) :
  within_int_limit decimal_value s ->
  check_version_compatibility decimal_value s = classify decimal_value s.
Proof.
  rewrite check_by_texts. unfold classify, within_int_limit.
  rewrite leading_major_minor_texts.
  destruct (leading_texts decimal_value s) as [[a b]|] eqn:E; [|reflexivity].
  destruct (leading_texts_shape s a b E) as (Ha & Hb & _).
  intros [Hla Hlb]. rewrite (int_of_within a Ha Hla), (int_of_within b Hb Hlb).
  destruct (int_digits decimal_value 0%Z a) as [major|]; [|reflexivity].
  destruct (int_digits decimal_value 0%Z b) as [minor|]; [|reflexivity].
  apply rules_agree.
Qed.

(** Beyond the limit the check is inconclusive, whatever the number. *)
Lemma check_beyond_limit (s a b : str) :
  leading_texts decimal_value s = Some (a, b) ->
  (int_max_str_digits < length a \/ int_max_str_digits < length b)%nat ->
  check_version_compatibility decimal_value s = inconclusive.
Proof.
  intros E Hl. rewrite check_by_texts, E.
  destruct Hl as [Hl|Hl].
  - rewrite (int_of_beyond a Hl). reflexivity.
  - rewrite (int_of_beyond b Hl). destruct (int_of decimal_value a); reflexivity.
Qed.

Lemma check_without_texts (s : str) :
  leading_major_minor decimal_value s = None ->
  check_version_compatibility decimal_value s = inconclusive.
Proof.
  rewrite check_by_texts, leading_major_minor_texts.
  destruct (leading_texts decimal_value s) as [[a b]|] eqn:E; [|reflexivity].
  destruct (leading_texts_shape s a b E) as (_ & _ & Hda & Hdb & _).
  destruct (int_digits_some decimal_value a Hda 0%Z) as [x ->].
  destruct (int_digits_some decimal_value b Hdb 0%Z) as [y ->].
  discriminate.
Qed.

Lemma ascii_string_decimal (s : str) :
  Forall (fun c => c < 128) s -> 
  span (is_decimal decimal_value) s = span (is_decimal ascii_decimal) s.
Proof.
  induction 1 as [|c s Hc _ IH]; simpl; [reflexivity|].
  unfold is_decimal at 1 3. rewrite decimal_ascii by exact Hc.
  rewrite IH. reflexivity.
Qed.

Lemma ascii_int_digits (s : str) :
  Forall (fun c => c < 128) s -> forall acc,
  int_digits decimal_value acc s = int_digits ascii_decimal acc s.
Proof.
  induction 1 as [|c s Hc _ IH]; intros acc; simpl; [reflexivity|].
  rewrite decimal_ascii by exact Hc.
  destruct (ascii_decimal c); [apply IH | reflexivity].
Qed.
End CompatibilityFacts.

Lemma leading_ascii (decimal_value : codepoint -> option N) (s : str) :
  (forall c, c < 128 -> decimal_value c = ascii_decimal c) ->
  Forall (fun c => c < 128) s ->
  leading_major_minor decimal_value s = leading_major_minor ascii_decimal s.
Proof.
  intros Hd Hs. unfold leading_major_minor, span_digits.
  rewrite (ascii_string_decimal _ Hd s Hs).
  destruct (span (is_decimal ascii_decimal) s) as [a r] eqn:Ea.
  apply span_app in Ea. subst s. apply Forall_app in Hs as [Ha Hr].
  destruct a as [|a0 a]; [reflexivity|].
  destruct r as [|c r]; [reflexivity|].
  destruct (N.eqb c dot); [|reflexivity].
  apply Forall_cons in Hr as [_ Hr].
  rewrite (ascii_string_decimal _ Hd r Hr).
  destruct (span (is_decimal ascii_decimal) r) as [b rest] eqn:Eb.
  apply span_app in Eb. subst r. apply Forall_app in Hr as [Hb _].
  destruct b as [|b0 b]; [reflexivity|].
  rewrite !(ascii_int_digits _ Hd) by assumption. reflexivity.
Qed.

Ltac ascii_literal :=
  repeat (apply Forall_cons; split; [reflexivity|]); apply Forall_nil; exact I.

Lemma within_short (decimal_value : codepoint -> option N) (s : str) :
  (length s <= int_max_str_digits)%nat -> within_int_limit decimal_value s.
Proof.
  intros H. unfold within_int_limit.
  destruct (leading_texts decimal_value s) as [[a b]|] eqn:E; [|exact I].
  destruct (leading_texts_shape _ s a b E) as (_ & _ & _ & _ & rest & ->).
  rewrite length_app in H. cbn [length] in H. rewrite length_app in H. lia.
Qed.

Ltac short_literal := apply within_short, Nat.leb_le; reflexivity.

(** C4, as the code has it.  The compatibility check follows the four
    rules in their order: inconclusive when the string does not start with
    digits, a dot and digits; too old below 3.4; newer above 2023; fully
    supported in every other case.  That holds as long as neither run of
    digits is longer than [int] accepts (4300 digits): beyond that [int]
    raises, the bare [except] swallows it, and the answer is inconclusive
    whatever the number is.  The four strings of the specification get the
    four answers.  The table of decimal digits is the one of the
    interpreter, of which only the ASCII part is fixed here. *)
Theorem check_version_compatibility_rules
  (decimal_value : codepoint -> option N)
  (decimal_ascii : forall c, c < 128 -> decimal_value c = ascii_decimal c) :
  (forall s, leading_major_minor decimal_value s = None ->
     check_version_compatibility decimal_value s
     = (true, lit "Version check inconclusive"))
  /\ (forall s a b, leading_texts decimal_value s = Some (a, b) ->
        (int_max_str_digits < length a \/ int_max_str_digits < length b)%nat ->
        check_version_compatibility decimal_value s
        = (true, lit "Version check inconclusive"))
  /\ (forall s major minor,
        within_int_limit decimal_value s ->
        leading_major_minor decimal_value s = Some (major, minor) ->
        ((major < 3 \/ (major = 3 /\ minor < 4))%Z ->
           check_version_compatibility decimal_value s
           = (false, lit "Unity version too old (< 3.4)"))
        /\ (~ (major < 3 \/ (major = 3 /\ minor < 4))%Z -> (major > 2023)%Z ->
           check_version_compatibility decimal_value s
           = (true, lit "Newer version - may have limited support"))
        /\ (~ (major < 3 \/ (major = 3 /\ minor < 4))%Z -> (major <= 2023)%Z ->
           check_version_compatibility decimal_value s
           = (true, lit "Fully supported")))
  /\ check_version_compatibility decimal_value (lit "3.3.9")
     = (false, lit "Unity version too old (< 3.4)")
  /\ check_version_compatibility decimal_value (lit "2021.3.10f1")
     = (true, lit "Fully supported")
  /\ check_version_compatibility decimal_value (lit "2025.1")
     = (true, lit "Newer version - may have limited support")
  /\ check_version_compatibility decimal_value (lit "not-a-version")
     = (true, lit "Version check inconclusive").
Proof.
  split; [|split; [|split]].
  - intros s H. exact (check_without_texts _ decimal_ascii s H).
  - intros s a b E Hl. exact (check_beyond_limit _ decimal_ascii s a b E Hl).
  - intros s major minor Hlim H.
    rewrite (check_is_classify _ decimal_ascii s Hlim). unfold classify. rewrite H.
    repeat split; intros; repeat case_bool_decide; try reflexivity; lia.
  - repeat split;
      (rewrite (check_is_classify _ decimal_ascii); [|short_literal]);
      unfold classify;
      (rewrite (leading_ascii _ _ decimal_ascii); [reflexivity | ascii_literal]).
Qed.

(** The rules at the ASCII table. *)
Lemma check_version_compatibility_rules_witness :
  (forall c, c < 128 -> ascii_decimal c = ascii_decimal c)
  /\ check_version_compatibility ascii_decimal (lit "2021.3.10f1")
     = (true, lit "Fully supported").
Proof.
  split; [reflexivity|].
  exact (proj1 (proj2 (proj2 (proj2 (proj2
    (check_version_compatibility_rules ascii_decimal (fun _ _ => eq_refl))))))).
Defined.

(** C4 as the specification has it fails on the code.  A major of 4301
    digits is far above 2023, so the third rule asks for the answer
    [newer]; [int] refuses the string and the code answers that the check
    is inconclusive. *)
Lemma long_major_is_inconclusive :
  check_version_compatibility ascii_decimal long_version
  = (true, lit "Version check inconclusive")
  /\ classify ascii_decimal long_version
     = (true, lit "Newer version - may have limited support").
Proof. split; vm_compute; reflexivity. Qed.

(** ** The matcher against what a pattern matches *)

Lemma rep_greedy_sound {R} (p : N -> bool) (s : list N) :
  forall min (k : list N -> option R) x,
    rep_greedy p min s k = Some x ->
    exists ds s', s = ds ++ s' /\ Forall (fun c => p c = true) ds
                  /\ (min <= length ds)%nat /\ k s' = Some x.
Proof.
  induction s as [|c s IH]; intros min k x H; simpl in H.
  - destruct min; [|discriminate]. exists [], []. repeat split; auto.
  - assert (Hstop : match min with O => k (c :: s) | S _ => None end = Some x ->
                    exists ds s', c :: s = ds ++ s' /\ Forall (fun c => p c = true) ds
                                  /\ (min <= length ds)%nat /\ k s' = Some x).
    { destruct min; [|discriminate]. intros Hk.
      exists [], (c :: s). repeat split; auto. }
    destruct (p c) eqn:Hc; [|auto].
    destruct (rep_greedy p (Nat.pred min) s k) as [y|] eqn:E; [|auto].
    inversion H; subst y.
    destruct (IH _ _ _ E) as (ds & s' & -> & Hds & Hmin & Hk).
    exists (c :: ds), s'. repeat split; auto. simpl; lia.
Qed.

Lemma rep_lazy_sound {R} (p : N -> bool) (s : list N) :
  forall min (k : list N -> option R) x,
    rep_lazy p min s k = Some x ->
    exists ds s', s = ds ++ s' /\ Forall (fun c => p c = true) ds
                  /\ (min <= length ds)%nat /\ k s' = Some x.
Proof.
  induction s as [|c s IH]; intros min k x H.
  - destruct min; simpl in H; [|discriminate].
    destruct (k []) eqn:Hk; [|discriminate]. inversion H; subst.
    exists [], []. repeat split; auto.
  - assert (Hmore : (if p c then rep_lazy p (Nat.pred min) s k else None) = Some x ->
                    exists ds s', c :: s = ds ++ s' /\ Forall (fun c => p c = true) ds
                                  /\ (min <= length ds)%nat /\ k s' = Some x).
    { destruct (p c) eqn:Hc; [|discriminate]. intros E.
      destruct (IH _ _ _ E) as (ds & s' & -> & Hds & Hmin & Hk).
      exists (c :: ds), s'. repeat split; auto. simpl; lia. }
    destruct min; simpl in H; [|auto].
    destruct (k (c :: s)) eqn:Hk; [|auto].
    inversion H; subst. exists [], (c :: s). repeat split; auto.
Qed.

Lemma rep_greedy_complete {R} (p : N -> bool) (ds : list N) :
  forall min s' (k : list N -> option R),
    Forall (fun c => p c = true) ds -> (min <= length ds)%nat ->
    is_Some (k s') -> is_Some (rep_greedy p min (ds ++ s') k).
Proof.
  induction ds as [|c ds IH]; intros min s' k Hds Hmin Hk; simpl in *.
  - assert (min = O) by lia. subst min.
    destruct s' as [|c s']; simpl; [exact Hk|].
    destruct (p c); [|exact Hk].
    destruct (rep_greedy p 0 s' k); [eauto | exact Hk].
  - apply Forall_cons in Hds as [Hc Hds]. rewrite Hc.
    destruct (IH (Nat.pred min) s' k Hds ltac:(lia) Hk) as [y ->]. eauto.
Qed.

Lemma rep_lazy_complete {R} (p : N -> bool) (ds : list N) :
  forall min s' (k : list N -> option R),
    Forall (fun c => p c = true) ds -> (min <= length ds)%nat ->
    is_Some (k s') -> is_Some (rep_lazy p min (ds ++ s') k).
Proof.
  induction ds as [|c ds IH]; intros min s' k Hds Hmin Hk; simpl in *.
  - assert (min = O) by lia. subst min.
    destruct Hk as [y Hk]. destruct s'; simpl; rewrite Hk; eauto.
  - apply Forall_cons in Hds as [Hc Hds].
    pose proof (IH (Nat.pred min) s' k Hds ltac:(lia) Hk) as Hrec.
    destruct min; simpl.
    + destruct (k (c :: ds ++ s')); [eauto|]. rewrite Hc. exact Hrec.
    + rewrite Hc. exact Hrec.
Qed.

(** Whatever the matcher returns comes from a match of the pattern and the
    answer of the continuation on what that match leaves. *)
Lemma rmatch_sound {R} (r : regex) :
  forall s g (k : list N -> captures -> option R) x,
    rmatch r s g k = Some x ->
    exists s' g', matches r s s' /\ k s' g' = Some x.
Proof.
  induction r as [|c|p|greedy min p|r1 IH1 r2 IH2|n r IH]; intros s g k x H; simpl in H.
  - exists s, g. split; [constructor | exact H].
  - destruct s as [|c' s]; [discriminate|].
    destruct (N.eqb_spec c c') as [<-|]; [|discriminate].
    exists s, g. split; [constructor | exact H].
  - destruct s as [|c' s]; [discriminate|].
    destruct (p c') eqn:Hp; [|discriminate].
    exists s, g. split; [constructor; exact Hp | exact H].
  - destruct greedy.
    + apply rep_greedy_sound in H as (ds & s' & -> & Hds & Hmin & Hk).
      exists s', g. split; [constructor; assumption | exact Hk].
    + apply rep_lazy_sound in H as (ds & s' & -> & Hds & Hmin & Hk).
      exists s', g. split; [constructor; assumption | exact Hk].
  - apply IH1 in H as (s1 & g1 & M1 & H).
    apply IH2 in H as (s2 & g2 & M2 & H).
    exists s2, g2. split; [econstructor; eassumption | exact H].
  - apply IH in H as (s' & g' & M & H).
    exists s', (<[n := take (length s - length s') s]> g').
    split; [constructor; exact M | exact H].
Qed.

(** The matcher finds a match whenever the pattern has one that the
    continuation accepts. *)
Lemma rmatch_complete {R} (r : regex) (s s' : list N) :
  matches r s s' ->
  forall g (k : list N -> captures -> option R),
    (forall g', is_Some (k s' g')) -> is_Some (rmatch r s g k).
Proof.
  induction 1 as [s|c s|p c s Hp|greedy min p ds s Hds Hmin
                  |r1 r2 s s1 s2 _ IH1 _ IH2|n r s s' _ IH]; intros g k Hk; simpl.
  - apply Hk.
  - rewrite N.eqb_refl. apply Hk.
  - rewrite Hp. apply Hk.
  - destruct greedy.
    + apply rep_greedy_complete; auto.
    + apply rep_lazy_complete; auto.
  - apply IH1. intros g1. apply IH2. exact Hk.
  - apply IH. intros g'. apply Hk.
Qed.

(** A match consumes a prefix made of characters the pattern accepts. *)
Lemma matches_suffix (r : regex) (s s' : list N) :
  matches r s s' -> exists pre, s = pre ++ s' /\ Forall (accepts r) pre.
Proof.
  induction 1 as [s|c s|p c s Hp|greedy min p ds s Hds Hmin
                  |r1 r2 s s1 s2 _ (p1 & -> & H1) _ (p2 & -> & H2)|n r s s' _ IH].
  - exists []. split; [reflexivity | constructor].
  - exists [c]. split; [reflexivity | repeat constructor].
  - exists [c]. split; [reflexivity | repeat constructor; exact Hp].
  - exists ds. split; [reflexivity | exact Hds].
  - exists (p1 ++ p2). split; [rewrite <- app_assoc; reflexivity|].
    apply Forall_app. split; eapply Forall_impl; eauto; simpl; auto.
  - exact IH.
Qed.

Lemma re_search_complete (r : regex) (h : list N) :
  occurs r h -> is_Some (re_search r h).
Proof.
  intros (pre & t & s' & -> & Hm).
  induction pre as [|c pre IH]; simpl.
  - destruct t; simpl;
      destruct (rmatch_complete r _ s' Hm ∅ (fun _ g => Some g)) as [m Hr];
      eauto; unfold re_match; rewrite Hr; eauto.
  - destruct (re_match r (c :: pre ++ t)); [eauto | exact IH].
Qed.

Lemma re_search_sound (r : regex) (h : list N) (m : captures) :
  re_search r h = Some m ->
  exists pre t, h = pre ++ t /\ re_match r t = Some m.
Proof.
  induction h as [|c h IH]; simpl.
  - destruct (re_match r []) eqn:E; [|discriminate].
    intros [= <-]. exists [], []. auto.
  - destruct (re_match r (c :: h)) eqn:E.
    + intros [= <-]. exists [], (c :: h). auto.
    + intros H. destruct (IH H) as (pre & t & -> & Ht).
      exists (c :: pre), t. auto.
Qed.

Lemma re_search_occurs (r : regex) (h : list N) (m : captures) :
  re_search r h = Some m -> occurs r h.
Proof.
  intros H. apply re_search_sound in H as (pre & t & -> & Ht).
  apply rmatch_sound in Ht as (s' & g' & Hm & _).
  exists pre, t, s'. auto.
Qed.

(** A pattern that ends in a group: the group holds what its body matched. *)
Lemma group_value (n : nat) (r : regex) (s : list N) (g m : captures) :
  rmatch (Group n r) s g (fun _ g' => Some g') = Some m ->
  exists pre s', s = pre ++ s' /\ matches r s s' /\ Forall (accepts r) pre
                 /\ m !! n = Some pre.
Proof.
  simpl. intros H. apply rmatch_sound in H as (s' & g' & Hm & [= <-]).
  destruct (matches_suffix _ _ _ Hm) as (pre & -> & Hpre).
  exists pre, s'. repeat split; [exact Hm | exact Hpre |].
  rewrite lookup_insert_eq, take_prefix. reflexivity.
Qed.

(** ** Version detection *)

Lemma digit_ascii (c : N) : is_digit c = true -> c < 128.
Proof. unfold is_digit. intros H. apply andb_true_iff in H as [_ H]. apply N.leb_le in H. lia. Qed.

Lemma lower_alnum_ascii (c : N) : is_lower_alnum c = true -> c < 128.
Proof.
  unfold is_lower_alnum. intros H. apply orb_true_iff in H as [H|H].
  - apply andb_true_iff in H as [_ H]. apply N.leb_le in H. lia.
  - apply digit_ascii, H.
Qed.

Lemma version_text_ascii (c : N) :
  accepts (Cat (major_minor_patch is_digit) (Rep true 0 is_lower_alnum)) c
  \/ accepts (major_minor_patch is_digit) c \/ accepts (major_minor is_digit) c ->
  c < 128.
Proof.
  simpl. unfold dot.
  intros H; decompose [or] H; subst;
    try reflexivity; try (apply digit_ascii; assumption);
    apply lower_alnum_ascii; assumption.
Qed.

Lemma decode_ignore_ascii (b : bytes) :
  Forall (fun c => c < 128) b -> decode_ignore b = b.
Proof.
  unfold decode_ignore. induction 1 as [|c b Hc _ IH]; simpl; [reflexivity|].
  apply N.ltb_lt in Hc. rewrite Hc, IH. reflexivity.
Qed.

(** In a match of one of the three patterns, group 1 is set and holds
    ASCII bytes, which decode to themselves. *)
Lemma group_ascii (p : regex) (h : bytes) (m : captures) :
  p ∈ version_patterns -> re_search p h = Some m ->
  exists g, m !! 1%nat = Some g /\ decode_ignore g = g.
Proof.
  intros Hp Hs. apply re_search_sound in Hs as (pre & t & _ & Hm).
  unfold re_match in Hm.
  assert (Hgroup : exists r s g0, rmatch (Group 1 r) s g0 (fun _ g' => Some g') = Some m
                     /\ forall c, accepts r c -> c < 128).
  { unfold version_patterns in Hp.
    apply elem_of_cons in Hp as [->|Hp]; [|apply elem_of_cons in Hp as [->|Hp]];
      [| |apply list_elem_of_singleton in Hp as ->].
    - eexists _, t, ∅. split; [exact Hm|].
      intros c Hc. apply version_text_ascii. left. exact Hc.
    - unfold pattern_unity in Hm.
      change (rmatch (Cat ?a ?b) ?s ?g ?k)
        with (rmatch a s g (fun s1 g1 => rmatch b s1 g1 k)) in Hm.
      apply rmatch_sound in Hm as (s1 & g1 & _ & Hm).
      eexists _, s1, g1. split; [exact Hm|].
      intros c Hc. apply version_text_ascii. right. left. exact Hc.
    - unfold pattern_unityfs in Hm.
      change (rmatch (Cat ?a (Cat ?b ?c)) ?s ?g ?k)
        with (rmatch a s g (fun s1 g1 => rmatch b s1 g1 (fun s2 g2 => rmatch c s2 g2 k))) in Hm.
      apply rmatch_sound in Hm as (s1 & g1 & _ & Hm).
      apply rmatch_sound in Hm as (s2 & g2 & _ & Hm).
      eexists _, s2, g2. split; [exact Hm|].
      intros c Hc. apply version_text_ascii. right. right. exact Hc. }
  destruct Hgroup as (r & s & g0 & Hr & Hascii).
  apply group_value in Hr as (g & s' & _ & _ & Hg & Hlook).
  exists g. split; [exact Hlook|].
  apply decode_ignore_ascii. eapply Forall_impl; [exact Hg | exact Hascii].
Qed.

(** A header with a version after [Unity ] has a bare version as well: the
    second pattern of the list never decides. *)
Lemma unity_occurs_bare (h : bytes) :
  occurs pattern_unity h -> occurs pattern_bare h.
Proof.
  intros (pre & t & s' & -> & Hm).
  unfold pattern_unity in Hm. inversion Hm as [| | | |r1 r2 s0 s1 s2 H1 H2|]; subst.
  inversion H2 as [| | | | |n r s0 s3 H3]; subst.
  destruct (matches_suffix _ _ _ H1) as (p1 & -> & _).
  exists (pre ++ p1), s1, s'. split; [rewrite app_assoc; reflexivity|].
  constructor. econstructor; [exact H3|].
  apply (matches_rep true 0 is_lower_alnum [] s'); [constructor | simpl; lia].
Qed.

Lemma scan_found (ps : list regex) (p : regex) (h : bytes) (name : str)
      (vi : version_info) (m : captures) (g : bytes) :
  re_search p h = Some m -> m !! 1%nat = Some g ->
  scan_patterns (p :: ps) h name vi
  = Ok {| version := decode_ignore g; detected_from := Some name;
          compatible := compatible vi; warning := warning vi |}.
Proof. intros Hs Hg. simpl. rewrite Hs, Hg. reflexivity. Qed.

Lemma scan_skip (ps : list regex) (p : regex) (h : bytes) (name : str)
      (vi : version_info) :
  re_search p h = None ->
  scan_patterns (p :: ps) h name vi = scan_patterns ps h name vi.
Proof. intros Hs. simpl. rewrite Hs. reflexivity. Qed.

(** C1, as the code has it.  When the parser exposes no version, detection
    reads the first 1024 bytes and tries the patterns in the order of the
    list in the source: the bare version first, the version after [Unity ]
    second, [UnityFS] third.  The earliest pattern that matches decides.
    As a header that matches the second pattern matches the first, the
    result is the bare version whenever there is one, else the one after
    [UnityFS], else unknown. *)
Theorem detect_unity_version_priority (f : probe) (data : bytes) :
  probe_load f = Ok None -> probe_bytes f = Ok data ->
  let header := take 1024 data in
  version_patterns = [pattern_bare; pattern_unity; pattern_unityfs]
  /\ (forall m, re_search pattern_bare header = Some m ->
        exists g, m !! 1%nat = Some g
                  /\ detect_unity_version f = found_in_header f g)
  /\ (forall m, re_search pattern_unity header = Some m ->
        is_Some (re_search pattern_bare header))
  /\ (forall m, re_search pattern_bare header = None ->
        re_search pattern_unityfs header = Some m ->
        exists g, m !! 1%nat = Some g
                  /\ detect_unity_version f = found_in_header f g)
  /\ (re_search pattern_bare header = None ->
      re_search pattern_unityfs header = None ->
      detect_unity_version f = unknown_version).
Proof.
  intros Hload Hbytes header.
  assert (Hunity : forall m, re_search pattern_unity header = Some m ->
                             is_Some (re_search pattern_bare header)).
  { intros m Hm. apply re_search_complete, unity_occurs_bare.
    eapply re_search_occurs; exact Hm. }
  unfold detect_unity_version, detect_with, detect_body.
  rewrite Hload, Hbytes. fold header.
  split; [reflexivity|]. split; [|split; [exact Hunity|split]].
  - intros m Hm.
    destruct (group_ascii pattern_bare header m) as (g & Hg & Hdec);
      [unfold version_patterns; set_solver | exact Hm |].
    exists g. split; [exact Hg|].
    unfold version_patterns. rewrite (scan_found _ _ _ _ _ m g Hm Hg), Hdec.
    reflexivity.
  - intros m Hbare Hm.
    destruct (group_ascii pattern_unityfs header m) as (g & Hg & Hdec);
      [unfold version_patterns; set_solver | exact Hm |].
    exists g. split; [exact Hg|].
    unfold version_patterns. rewrite (scan_skip _ _ _ _ _ Hbare).
    destruct (re_search pattern_unity header) as [mu|] eqn:Hu.
    { destruct (Hunity mu eq_refl) as [x Hx]. congruence. }
    rewrite (scan_skip _ _ _ _ _ Hu).
    rewrite (scan_found _ _ _ _ _ m g Hm Hg), Hdec. reflexivity.
  - intros Hbare Hfs.
    unfold version_patterns. rewrite (scan_skip _ _ _ _ _ Hbare).
    destruct (re_search pattern_unity header) as [mu|] eqn:Hu.
    { destruct (Hunity mu eq_refl) as [x Hx]. congruence. }
    rewrite (scan_skip _ _ _ _ _ Hu), (scan_skip _ _ _ _ _ Hfs). reflexivity.
Qed.

(** The theorem at a header that holds both a bare version and one after
    [Unity ]. *)
Lemma detect_unity_version_priority_witness :
  probe_load two_versions = Ok None
  /\ probe_bytes two_versions = Ok (lit "1.2.3 Unity 4.5.6")
  /\ (forall m, re_search pattern_bare (take 1024 (lit "1.2.3 Unity 4.5.6")) = Some m ->
        exists g, m !! 1%nat = Some g
                  /\ detect_unity_version two_versions = found_in_header two_versions g).
Proof.
  split; [reflexivity|]. split; [reflexivity|].
  exact (proj1 (proj2 (detect_unity_version_priority two_versions
                         (lit "1.2.3 Unity 4.5.6") eq_refl eq_refl))).
Defined.

(** C1, as the specification has it, fails.  In the header
    [1.2.3 Unity 4.5.6] the pattern with the [Unity ] prefix and the bare
    pattern both match; the specified order would make the first of them
    decide and give [4.5.6], and the code answers [1.2.3]. *)
Lemma detect_order_counterexample :
  (exists m, re_search pattern_unity (lit "1.2.3 Unity 4.5.6") = Some m
             /\ m !! 1%nat = Some (lit "4.5.6"))
  /\ is_Some (re_search pattern_bare (lit "1.2.3 Unity 4.5.6"))
  /\ version (detect_with specified_order two_versions) = lit "4.5.6"
  /\ version (detect_unity_version two_versions) = lit "1.2.3"
  /\ version (detect_unity_version two_versions)
     <> version (detect_with specified_order two_versions).
Proof.
  split; [|split; [|split; [|split]]].
  - eexists. split; [vm_compute; reflexivity | vm_compute; reflexivity].
  - vm_compute. eauto.
  - vm_compute. reflexivity.
  - vm_compute. reflexivity.
  - vm_compute. discriminate.
Qed.

(** C8. Detection returns a record in every case: an exception raised by
    the parser, by reading the file or anywhere else in the body ends in
    the record of an unknown version with the text of the exception as its
    warning; a header that matches no pattern gives the same record without
    a warning; and [compatible] is true in every record. *)
Theorem detect_unity_version_never_raises (f : probe) :
  (forall e, detect_body version_patterns f = Raise e ->
     detect_unity_version f = unknown_with (Some e))
  /\ (forall e, probe_load f = Raise e ->
        detect_unity_version f = unknown_with (Some e))
  /\ (forall e, probe_load f = Ok None -> probe_bytes f = Raise e ->
        detect_unity_version f = unknown_with (Some e))
  /\ (forall data, probe_load f = Ok None -> probe_bytes f = Ok data ->
        (forall p, p ∈ version_patterns -> re_search p (take 1024 data) = None) ->
        detect_unity_version f = unknown_with None)
  /\ unknown_with None
     = {| version := lit "Unknown"; detected_from := None;
          compatible := true; warning := None |}
  /\ compatible (detect_unity_version f) = true.
Proof.
  unfold detect_unity_version, detect_with.
  repeat split.
  - intros e ->. reflexivity.
  - intros e He. unfold detect_body. rewrite He. reflexivity.
  - intros e Hl He. unfold detect_body. rewrite Hl, He. reflexivity.
  - intros data Hl Hb Hnone. unfold detect_body. rewrite Hl, Hb.
    unfold version_patterns in *.
    rewrite !scan_skip by (apply Hnone; set_solver). reflexivity.
  - unfold detect_body.
    destruct (probe_load f) as [[v|]|e]; try reflexivity.
    destruct (probe_bytes f) as [data|e]; try reflexivity.
    generalize (take 1024 data). intros h.
    unfold version_patterns. simpl.
    repeat (match goal with
            | |- context [match re_search ?p h with _ => _ end] =>
                destruct (re_search p h)
            | |- context [match ?m !! 1%nat with _ => _ end] =>
                destruct (m !! 1%nat)
            end; try reflexivity).
Qed.

(** ** File discovery *)

Section DiscoveryFacts.
Variable lower : str -> str.
(** On ASCII strings [lower] maps the capital letters to the small ones. *)
Hypothesis lower_ascii : forall s, Forall (fun c => c < 128) s -> lower s = ascii_lower s.
(** A lower-cased string holds no ASCII capital letter. *)
Hypothesis lower_no_capital :
  forall s c, c ∈ lower s -> ~ (65 <= c /\ c <= 90).

Lemma str_eqb_eq (a b : list N) : str_eqb a b = true <-> a = b.
Proof. unfold str_eqb. apply bool_decide_eq_true. Qed.

Lemma lower_not_resS (x : str) : str_eqb (lower x) (lit ".resS") = false.
Proof.
  destruct (str_eqb (lower x) (lit ".resS")) eqn:E; [|reflexivity].
  apply str_eqb_eq in E. exfalso.
  apply (lower_no_capital x 83); [|lia].
  rewrite E. vm_compute. set_solver.
Qed.

Lemma lower_literal (s : string) :
  Forall (fun c => c < 128) (lit s) -> lower (lit s) = ascii_lower (lit s).
Proof. apply lower_ascii. Qed.

(** Membership of the lower-cased extension in the set is membership
    without regard to case: the set holds [.ress] next to [.resS]. *)
Lemma ext_in_set_is_nocase (name : str) :
  in_set (lower (suffix name)) default_exts
  = ext_in_set_nocase lower name default_exts.
Proof.
  unfold ext_in_set_nocase, eq_nocase, in_set, default_exts. cbn [existsb].
  rewrite !lower_literal by ascii_literal.
  rewrite lower_not_resS.
  change (ascii_lower (lit ".assets")) with (lit ".assets").
  change (ascii_lower (lit ".unity3d")) with (lit ".unity3d").
  change (ascii_lower (lit ".assetbundle")) with (lit ".assetbundle").
  change (ascii_lower (lit ".bundle")) with (lit ".bundle").
  change (ascii_lower (lit ".resS")) with (lit ".ress").
  change (ascii_lower (lit ".sharedassets")) with (lit ".sharedassets").
  change (ascii_lower (lit ".resources")) with (lit ".resources").
  change (ascii_lower (lit ".resource")) with (lit ".resource").
  change (ascii_lower (lit ".dat")) with (lit ".dat").
  change (ascii_lower (lit ".ress")) with (lit ".ress").
  destruct (str_eqb (lower (suffix name)) (lit ".ress"));
    rewrite ?orb_true_r, ?orb_false_r; reflexivity.
Qed.

Lemma existsb_of_map {A B} (f : A -> B) (q : B -> bool) (l : list A) :
  existsb q (List.map f l) = existsb (fun x => q (f x)) l.
Proof. induction l as [|x l IH]; simpl; [reflexivity | rewrite IH; reflexivity]. Qed.

Lemma name_keys_lower : List.map lower name_keys = name_keys.
Proof.
  unfold name_keys. cbn [List.map].
  rewrite !lower_literal by ascii_literal. reflexivity.
Qed.

Lemma name_contains_is_nocase (name : str) :
  existsb (fun k => contains k (lower name)) name_keys
  = name_contains_nocase lower name.
Proof.
  unfold name_contains_nocase.
  rewrite <- name_keys_lower at 1.
  rewrite existsb_of_map. reflexivity.
Qed.

Lemma is_candidate_is_rule (name : str) :
  is_candidate lower default_exts name = kept_by_rule lower name.
Proof.
  unfold is_candidate, kept_by_rule.
  rewrite ext_in_set_is_nocase, name_contains_is_nocase. reflexivity.
Qed.

Lemma suffix_ascii (name : str) :
  Forall (fun c => c < 128) name -> Forall (fun c => c < 128) (suffix name).
Proof.
  intros H. unfold suffix. destruct (rfind dot name 0); [|constructor].
  destruct (_ && _); [apply Forall_drop; exact H | constructor].
Qed.

Lemma is_candidate_ascii (exts : list str) (name : str) :
  Forall (fun c => c < 128) name ->
  is_candidate lower exts name = is_candidate ascii_lower exts name.
Proof.
  intros H. unfold is_candidate.
  rewrite (lower_ascii _ H), (lower_ascii _ (suffix_ascii _ H)). reflexivity.
Qed.

Lemma filter_ext_Forall {A} (f g : A -> bool) (l : list A) :
  Forall (fun x => f x = g x) l -> List.filter f l = List.filter g l.
Proof.
  induction 1 as [|x l Hx _ IH]; simpl; [reflexivity|].
  rewrite Hx, IH. reflexivity.
Qed.

(** On a tree whose names are ASCII the result is the one computed with
    the ASCII lower-casing. *)
Lemma find_input_files_ascii (root : directory) (exts : option (list str)) :
  Forall (fun p => Forall (fun c => c < 128) (path_name (entry_path p))) (rglob root) ->
  find_input_files lower root exts = find_input_files ascii_lower root exts.
Proof.
  intros H. unfold find_input_files.
  erewrite filter_ext_Forall; [reflexivity|].
  eapply Forall_impl; [exact H|]. intros p Hp. simpl.
  rewrite (is_candidate_ascii _ _ Hp). reflexivity.
Qed.
End DiscoveryFacts.

Ltac ascii_names :=
  repeat (apply Forall_cons; split; [ascii_literal|]); apply Forall_nil; exact I.

(** C6. For a directory, discovery keeps exactly the files of the recursive
    listing whose extension is, without regard to case, in the fixed set or
    whose name contains, without regard to case, one of the fixed
    fragments, in the order of the listing; when there is none, it returns
    the immediate files of the directory.  Over [a.assets], [b.txt] and
    [sharedassets0.resource] the result is the first and the third. *)
Theorem find_input_files_rule
  (lower : str -> str)
  (lower_ascii : forall s, Forall (fun c => c < 128) s -> lower s = ascii_lower s)
  (lower_no_capital : forall s c, c ∈ lower s -> ~ (65 <= c /\ c <= 90))
  (root : directory) :
  let kept :=
    List.filter
      (fun p => entry_is_file p && kept_by_rule lower (path_name (entry_path p)))
      (rglob root) in
  find_input_files lower root None
  = match kept with
    | [] => List.map entry_path (List.filter entry_is_file (iterdir root))
    | _ :: _ => List.map entry_path kept
    end
  /\ find_input_files lower three_files None
     = [ [lit "game"; lit "a.assets"]; [lit "game"; lit "sharedassets0.resource"] ]
  /\ find_input_files lower nested_files None
     = [ [lit "data"; lit "sub"; lit "x.BUNDLE"]; [lit "data"; lit "sub"; lit "Level0"] ]
  /\ find_input_files lower no_candidates None = [ [lit "docs"; lit "b.txt"] ].
Proof.
  intros kept. split.
  - unfold find_input_files. subst kept.
    erewrite (filter_ext_Forall _
      (fun p => entry_is_file p && kept_by_rule lower (path_name (entry_path p)))).
    + destruct (List.filter _ (rglob root)); reflexivity.
    + apply Forall_forall. intros p _. simpl.
      rewrite (is_candidate_is_rule lower lower_ascii lower_no_capital). reflexivity.
  - repeat split;
      (rewrite (find_input_files_ascii lower lower_ascii); [reflexivity|]);
      vm_compute; ascii_names.
Qed.

(** The rule at the ASCII lower-casing. *)
Lemma find_input_files_rule_witness :
  (forall s, Forall (fun c => c < 128) s -> ascii_lower s = ascii_lower s)
  /\ (forall s c, c ∈ ascii_lower s -> ~ (65 <= c /\ c <= 90))
  /\ find_input_files ascii_lower three_files None
     = [ [lit "game"; lit "a.assets"]; [lit "game"; lit "sharedassets0.resource"] ].
Proof.
  assert (H : forall s c, c ∈ ascii_lower s -> ~ (65 <= c /\ c <= 90)).
  { intros s c Hc. unfold ascii_lower in Hc.
    apply list_elem_of_In, in_map_iff in Hc as (x & <- & _).
    unfold ascii_lower_char.
    destruct (N.leb_spec 65 x), (N.leb_spec x 90); simpl; lia. }
  split; [reflexivity|]. split; [exact H|].
  exact (proj1 (proj2 (find_input_files_rule ascii_lower (fun _ _ => eq_refl) H three_files))).
Defined.

(** ** Computations and their events *)

Lemma emits_impl {A} (P Q : event -> Prop) (m : M A) :
  (forall ev, P ev -> Q ev) -> emits P m -> emits Q m.
Proof.
  intros H [Ha Hp]. split; [exact Ha|].
  intros c. eapply Forall_impl; [apply Hp | exact H].
Qed.

Lemma emits_ret {A} (P : event -> Prop) (a : A) : emits P (mret a).
Proof. split; [intros c t | intros c]; simpl; [|constructor].
  unfold shift, mret, M_ret; simpl. rewrite app_nil_r. reflexivity. Qed.

Lemma emits_raise {A} (P : event -> Prop) (e : exn) : emits P (@raise A e).
Proof. split; [intros c t | intros c]; simpl; [|constructor].
  unfold shift, raise; simpl. rewrite app_nil_r. reflexivity. Qed.

Lemma emits_call {A} (P : event -> Prop) (r : result A) : emits P (call r).
Proof. split; [intros c t | intros c]; simpl; [|constructor].
  unfold shift, call; simpl. rewrite app_nil_r. reflexivity. Qed.

Lemma emits_count (P : event -> Prop) (k : kind) : emits P (count k).
Proof. split; [intros c t | intros c]; simpl; [|constructor].
  unfold shift, count; simpl. rewrite app_nil_r. reflexivity. Qed.

Lemma emits_add_total (P : event -> Prop) (k : kind) (v : nat) :
  emits P (add_total k v).
Proof. split; [intros c t | intros c]; simpl; [|constructor].
  unfold shift, add_total; simpl. rewrite app_nil_r. reflexivity. Qed.

Lemma emits_emit (P : event -> Prop) (ev : event) : P ev -> emits P (emit ev).
Proof.
  intros H. split; [intros c t | intros c]; simpl.
  - reflexivity.
  - repeat constructor. exact H.
Qed.

Lemma emits_bind {A B} (P : event -> Prop) (m : M A) (f : A -> M B) :
  emits P m -> (forall a, emits P (f a)) -> emits P (m ≫= f).
Proof.
  intros [Am Pm] Hf. split.
  - intros c t. unfold mbind, M_bind. rewrite (Am c t).
    destruct (m {| counts := c; trace := [] |}) as [[c' t'] [a|e]]; simpl.
    + destruct (Hf a) as [Af _]. rewrite (Af c' (t ++ t')), (Af c' t').
      unfold shift; simpl. rewrite app_assoc. reflexivity.
    + reflexivity.
  - intros c. unfold mbind, M_bind. specialize (Pm c).
    destruct (m {| counts := c; trace := [] |}) as [[c' t'] [a|e]]; simpl in *.
    + destruct (Hf a) as [Af Pf]. rewrite (Af c' t'). simpl.
      apply Forall_app. split; [exact Pm | apply Pf].
    + exact Pm.
Qed.

(** After an external call the rest runs on the value the call returned. *)
Lemma emits_call_bind {A B} (P : event -> Prop) (r : result A) (f : A -> M B) :
  (forall a, r = Ok a -> emits P (f a)) -> emits P (call r ≫= f).
Proof.
  intros Hf. destruct r as [a|e].
  - specialize (Hf a eq_refl). destruct Hf as [Af Pf]. split.
    + intros c t. unfold mbind, M_bind, call. apply Af.
    + intros c. unfold mbind, M_bind, call. apply Pf.
  - split; [intros c t | intros c]; unfold mbind, M_bind, call, shift; simpl.
    + rewrite app_nil_r. reflexivity.
    + constructor.
Qed.

Lemma emits_try {A} (P : event -> Prop) (m : M A) (h : exn -> M A) :
  emits P m -> (forall e, emits P (h e)) -> emits P (try_except m h).
Proof.
  intros [Am Pm] Hh. split.
  - intros c t. unfold try_except. rewrite (Am c t).
    destruct (m {| counts := c; trace := [] |}) as [[c' t'] [a|e]]; simpl.
    + reflexivity.
    + destruct (Hh e) as [Ah _]. rewrite (Ah c' (t ++ t')), (Ah c' t').
      unfold shift; simpl. rewrite app_assoc. reflexivity.
  - intros c. unfold try_except. specialize (Pm c).
    destruct (m {| counts := c; trace := [] |}) as [[c' t'] [a|e]]; simpl in *.
    + exact Pm.
    + destruct (Hh e) as [Ah Ph]. rewrite (Ah c' t'). simpl.
      apply Forall_app. split; [exact Pm | apply Ph].
Qed.

Lemma emits_for_each {A} (P : event -> Prop) (l : list A) (body : A -> M unit) :
  (forall x, x ∈ l -> emits P (body x)) -> emits P (for_each l body).
Proof.
  induction l as [|x l IH]; intros H; simpl.
  - apply emits_ret.
  - apply emits_bind.
    + apply H. left.
    + intros _. apply IH. intros y Hy. apply H. right. exact Hy.
Qed.

Lemma emits_with_new_stats (P : event -> Prop) (m : M unit) :
  emits P m -> emits P (with_new_stats m).
Proof.
  intros [Am Pm]. split.
  - intros c t. unfold with_new_stats. simpl. rewrite (Am zero_stats t).
    destruct (m {| counts := zero_stats; trace := [] |}) as [[c' t'] [a|e]];
      reflexivity.
  - intros c. unfold with_new_stats. simpl. specialize (Pm zero_stats).
    destruct (m {| counts := zero_stats; trace := [] |}) as [[c' t'] [a|e]];
      exact Pm.
Qed.

(** What a computation that only appends does from any state. *)
Lemma emits_run {A} (P : event -> Prop) (m : M A) (s : state) :
  emits P m ->
  exists evs, trace (m s).1 = trace s ++ evs /\ Forall P evs
              /\ evs = trace (m {| counts := counts s; trace := [] |}).1.
Proof.
  intros [Am Pm]. destruct s as [c t]. rewrite (Am c t). simpl.
  eexists. split; [reflexivity|]. split; [apply Pm | reflexivity].
Qed.

(** One step of the proof that a computation emits only events in [P]:
    the rule for the head of the computation, or a case split on what it
    branches on. *)
Ltac emits_step side :=
  lazymatch goal with
  | |- emits _ (call _ ≫= _) => apply emits_call_bind; intros ? ?
  | |- emits _ (_ ≫= _) => apply emits_bind; [|intros ?]
  | |- emits _ (try_except _ _) => apply emits_try; [|intros ?]
  | |- emits _ (mret _) => apply emits_ret
  | |- emits _ (raise _) => apply emits_raise
  | |- emits _ (call _) => apply emits_call
  | |- emits _ (count _) => apply emits_count
  | |- emits _ (add_total _ _) => apply emits_add_total
  | |- emits _ (emit _) => apply emits_emit; side
  | |- emits _ (for_each _ _) => apply emits_for_each; intros ? ?
  | |- emits _ (match ?x with _ => _ end) => destruct x eqn:?
  | |- emits _ (let '(_, _) := ?x in _) => destruct x eqn:?
  end.

Ltac emits_auto side :=
  unfold ensure_dir, save_image, write_binary, write_text, write_json, logging;
  repeat (emits_step side).

(** ** The events of one object *)

Ltac object_side k :=
  first
    [ apply object_write
    | apply object_saved
    | apply object_warning
    | apply object_error
    | apply (object_mkdir _ _ _ k);
      [ discriminate | assumption | subst; simpl; eauto 10 ] ].

Section ObjectEvents.
Variables (out_root : path) (opts : options) (obj : object).

Lemma extract_texture_events :
  dispatched opts obj = textures ->
  emits (object_event out_root opts obj) (extract_texture out_root obj).
Proof.
  intros Hk. unfold extract_texture. emits_auto ltac:(object_side textures).
Qed.

Lemma extract_sprite_events (out_dir : path) (id : Z) :
  emits (object_event out_root opts obj) (extract_sprite obj out_dir id).
Proof.
  unfold extract_sprite. emits_auto ltac:(object_side sprites).
Qed.

Lemma extract_sprites_events :
  dispatched opts obj = sprites ->
  emits (object_event out_root opts obj) (extract_sprites out_root obj).
Proof.
  intros Hk. unfold extract_sprites. emits_auto ltac:(object_side sprites).
  apply extract_sprite_events.
Qed.

Lemma extract_audio_events :
  dispatched opts obj = audio ->
  emits (object_event out_root opts obj) (extract_audio out_root obj).
Proof.
  intros Hk. unfold extract_audio. emits_auto ltac:(object_side audio).
Qed.

Lemma extract_mesh_events :
  dispatched opts obj = meshes ->
  emits (object_event out_root opts obj) (extract_mesh out_root obj).
Proof.
  intros Hk. unfold extract_mesh. emits_auto ltac:(object_side meshes).
Qed.

Lemma extract_text_events :
  dispatched opts obj = texts ->
  emits (object_event out_root opts obj) (extract_text out_root obj).
Proof.
  intros Hk. unfold extract_text. emits_auto ltac:(object_side texts).
Qed.

Lemma extract_font_events :
  dispatched opts obj = fonts ->
  emits (object_event out_root opts obj) (extract_font out_root obj).
Proof.
  intros Hk. unfold extract_font. emits_auto ltac:(object_side fonts).
Qed.

Lemma extract_mono_script_events (out_dir : path) (id : Z) :
  emits (object_event out_root opts obj) (extract_mono_script obj out_dir id).
Proof.
  unfold extract_mono_script. emits_auto ltac:(object_side scripts).
Qed.

Lemma extract_scripts_events :
  dispatched opts obj = scripts ->
  emits (object_event out_root opts obj) (extract_scripts out_root obj).
Proof.
  intros Hk. unfold extract_scripts. emits_auto ltac:(object_side scripts).
  apply extract_mono_script_events.
Qed.

Lemma extract_material_events :
  dispatched opts obj = materials ->
  emits (object_event out_root opts obj) (extract_material out_root obj).
Proof.
  intros Hk. unfold extract_material. emits_auto ltac:(object_side materials).
Qed.
End ObjectEvents.

Lemma dispatched_when (opts : options) (obj : object) (name : str) (k : kind) :
  type_name obj = name -> kind_of_type name = k -> opts k = true ->
  dispatched opts obj = k.
Proof. intros Hn Hk Ho. unfold dispatched. rewrite Hn, Hk, Ho. reflexivity. Qed.

Lemma in_set_two (x a b : str) : in_set x [a; b] = true -> x = a \/ x = b.
Proof.
  unfold in_set. simpl. rewrite orb_false_r. intros H.
  apply orb_true_iff in H as [H|H]; apply str_eqb_eq in H; auto.
Qed.

(** Handling an object causes events of its dispatched kind only. *)
Lemma handle_object_events (out_root : path) (opts : options) (obj : object) :
  emits (object_event out_root opts obj) (handle_object out_root opts obj).
Proof.
  unfold handle_object.
  repeat match goal with
  | |- emits _ (if ?b then _ else _) =>
      let E := fresh "E" in
      destruct b eqn:E;
      [ apply andb_true_iff in E as [Hn Ho];
        first [ apply str_eqb_eq in Hn
              | apply in_set_two in Hn as [Hn|Hn] ] | clear E ]
  end.
  - apply extract_texture_events. eapply dispatched_when; eauto.
  - apply extract_sprites_events. eapply dispatched_when; eauto.
  - apply extract_audio_events. eapply dispatched_when; eauto.
  - apply extract_mesh_events. eapply dispatched_when; eauto.
  - apply extract_text_events. eapply dispatched_when; eauto.
  - apply extract_font_events. eapply dispatched_when; eauto.
  - apply extract_scripts_events. eapply dispatched_when; eauto.
  - apply extract_scripts_events. eapply dispatched_when; eauto.
  - apply extract_material_events. eapply dispatched_when; eauto.
  - apply emits_count.
Qed.

Lemma guarded_object_events (out_root : path) (opts : options) (obj : object) :
  emits (object_event out_root opts obj) (guarded_object out_root opts obj).
Proof.
  unfold guarded_object. apply emits_try.
  - apply handle_object_events.
  - intros e. apply emits_emit. apply object_error.
Qed.

(** One turn of the loop never raises: the exception of the body is
    logged and the turn ends normally. *)
Lemma guarded_object_returns (out_root : path) (opts : options) (obj : object) (s : state) :
  (guarded_object out_root opts obj s).2 = Ok tt.
Proof.
  unfold guarded_object, try_except.
  destruct (handle_object out_root opts obj s) as [s' [[]|e]]; reflexivity.
Qed.

Lemma for_each_returns {A} (body : A -> M unit) (l : list A) :
  (forall x s, (body x s).2 = Ok tt) ->
  forall s, (for_each l body s).2 = Ok tt.
Proof.
  intros Hb. induction l as [|x l IH]; intros s; simpl; [reflexivity|].
  unfold mbind, M_bind. specialize (Hb x s).
  destruct (body x s) as [s' r]. simpl in Hb. subst r. apply IH.
Qed.

Lemma for_each_app {A} (body : A -> M unit) (l1 l2 : list A) :
  (forall x s, (body x s).2 = Ok tt) ->
  forall s, for_each (l1 ++ l2) body s = for_each l2 body (for_each l1 body s).1.
Proof.
  intros Hb. induction l1 as [|x l1 IH]; intros s; simpl; [reflexivity|].
  unfold mbind, M_bind. specialize (Hb x s).
  destruct (body x s) as [s' r]. simpl in Hb. subst r. apply IH.
Qed.

Lemma elem_of_created (p : path) (tr : list event) :
  p ∈ created tr <-> Mkdir p ∈ tr.
Proof.
  induction tr as [|ev tr IH]; simpl.
  - split; intros H; inversion H.
  - destruct ev as [p0| | |]; rewrite ?elem_of_cons, IH.
    + split; intros [H|H]; auto; left; congruence.
    + split; [auto | intros [H|H]; [discriminate | auto]].
    + split; [auto | intros [H|H]; [discriminate | auto]].
    + split; [auto | intros [H|H]; [discriminate | auto]].
Qed.

Lemma kind_name_inj (k k' : kind) : kind_name k = kind_name k' -> k = k'.
Proof. destruct k, k'; intros H; try reflexivity; vm_compute in H; discriminate. Qed.

Lemma kind_dir_inj (out_root : path) (k k' : kind) :
  kind_dir out_root k = kind_dir out_root k' -> k = k'.
Proof.
  unfold kind_dir, child. intros H. apply app_inv_head in H.
  inversion H as [H']. apply kind_name_inj. exact H'.
Qed.

Lemma extract_from_file_events (src : source) (out_root : path) (opts : options) :
  emits (pass_event out_root opts src) (extract_from_file src out_root (Some opts)).
Proof.
  unfold extract_from_file, logging.
  apply emits_bind; [apply emits_emit; right; left; eauto|]. intros _.
  destruct (src_load src) as [objs|e] eqn:Hload.
  - apply emits_bind; [|intros st; apply emits_bind;
                         [apply emits_emit; right; left; eauto | intros _; apply emits_ret]].
    apply emits_with_new_stats, emits_for_each. intros obj Hobj.
    eapply emits_impl; [|apply guarded_object_events].
    intros ev Hev. left. eauto.
  - apply emits_bind; [apply emits_emit; right; right; eauto|].
    intros _. apply emits_ret.
Qed.

(** ** The directories of a pass *)

Lemma dispatched_kind (opts : options) (obj : object) (k : kind) :
  k <> other -> dispatched opts obj = k ->
  kind_of_type (type_name obj) = k /\ opts k = true.
Proof.
  unfold dispatched. intros Hk H.
  destruct (opts (kind_of_type (type_name obj))) eqn:E.
  - subst k. auto.
  - congruence.
Qed.

(** C3, as the code has it.  A pass creates the directory of a kind only
    for an object of that kind whose option is enabled, so a pass without
    such an object never creates it.  For textures, meshes and materials
    the object has moreover decoded to what is to be written (an image, an
    exported mesh, a non-empty dump); for sprites, audio, texts, fonts and
    scripts the directory is made as soon as the object is dispatched. *)
Theorem kind_directory_needs_object
  (src : source) (out_root : path) (opts : options) (s : state) :
  exists evs,
    trace (extract_from_file src out_root (Some opts) s).1 = trace s ++ evs
    /\ forall k, k <> other -> kind_dir out_root k ∈ created evs ->
         exists objs obj,
           src_load src = Ok objs /\ obj ∈ objs
           /\ kind_of_type (type_name obj) = k /\ opts k = true
           /\ ready k obj.
Proof.
  destruct (emits_run _ _ s (extract_from_file_events src out_root opts))
    as (evs & Htrace & Hevs & _).
  exists evs. split; [exact Htrace|].
  intros k Hk Hin. apply elem_of_created in Hin.
  rewrite Forall_forall in Hevs. specialize (Hevs _ Hin).
  destruct Hevs as [(objs & obj & Hload & Hobj & Hev)|[(m & Hm & _)|(e & He)]];
    [|discriminate|discriminate].
  inversion Hev as [k' Hk' Hd Hr Heq| | | |].
  apply kind_dir_inj in Heq.
  destruct (dispatched_kind opts obj k' Hk' Hd) as [Hkind Hopt].
  rewrite <- Heq. exists objs, obj. auto.
Qed.

(** C3, as the specification has it, fails: a pass over one audio clip
    that decodes to no samples creates [audio/] and writes no audio file. *)
Lemma audio_directory_without_item :
  created (trace (extract_from_file (source_example "a.assets" (Ok [silent_clip]))
                    out_dir_example None start).1)
  = [kind_dir out_dir_example audio]
  /\ written (trace (extract_from_file (source_example "a.assets" (Ok [silent_clip]))
                       out_dir_example None start).1) = []
  /\ exists st,
       (extract_from_file (source_example "a.assets" (Ok [silent_clip]))
          out_dir_example None start).2 = Ok (Some st)
       /\ st audio = 0%nat.
Proof.
  split; [vm_compute; reflexivity|]. split; [vm_compute; reflexivity|].
  eexists. split; [vm_compute; reflexivity | reflexivity].
Qed.

(** ** Failures inside a pass *)

Lemma extract_from_file_failed
      (src : source) (out_root : path) (opts : option options) (s : state) (e : exn) :
  src_load src = Raise e ->
  extract_from_file src out_root opts s
  = ({| counts := counts s;
        trace := trace s ++ [Log info (Processing (src_path src));
                             Log error (LoadFailed (src_path src) e)] |},
     Ok None).
Proof.
  intros H. unfold extract_from_file, mbind, M_bind, logging, emit, mret, M_ret.
  rewrite H. simpl. rewrite <- app_assoc. reflexivity.
Qed.

Lemma extract_from_file_loaded
      (src : source) (out_root : path) (opts : option options) (s : state)
      (objs : list object) :
  src_load src = Ok objs ->
  let s' := (for_each objs (guarded_object out_root (options_or_default opts))
               {| counts := zero_stats;
                  trace := trace s ++ [Log info (Processing (src_path src))] |}).1 in
  extract_from_file src out_root opts s
  = ({| counts := counts s; trace := trace s' ++ [Log info (Stats (counts s'))] |},
     Ok (Some (counts s'))).
Proof.
  intros H s'. subst s'.
  unfold extract_from_file, mbind, M_bind, logging, emit, mret, M_ret, with_new_stats.
  rewrite H. simpl.
  pose proof (for_each_returns (guarded_object out_root (options_or_default opts)) objs
                (guarded_object_returns out_root (options_or_default opts))
                {| counts := zero_stats;
                   trace := trace s ++ [Log info (Processing (src_path src))] |}) as Hr.
  destruct (for_each objs _ _) as [s' r]. simpl in *. subst r. reflexivity.
Qed.

(** C7. When the parser fails to open the container, the engine logs the
    failure and returns [None], and the file adds nothing to the totals of
    a batch.  When it opens, the engine returns the
    counts of the loop over all objects: an exception raised while one
    object is handled is caught and logged, the turn of the loop ends
    normally, and the loop goes on with the objects after it. *)
Theorem extract_from_file_failures
  (src : source) (out_root : path) (opts : option options) (s : state) :
  let o := options_or_default opts in
  let loop := fun objs => for_each objs (guarded_object out_root o) in
  (forall e, src_load src = Raise e ->
     extract_from_file src out_root opts s
     = ({| counts := counts s;
           trace := trace s ++ [Log info (Processing (src_path src));
                                Log error (LoadFailed (src_path src) e)] |},
        Ok None))
  /\ (forall e batch_root batch_opts k, src_load src = Raise e ->
        contribution batch_root batch_opts k src = 0%nat)
  /\ (forall objs, src_load src = Ok objs ->
        exists s',
          extract_from_file src out_root opts s
          = (s', Ok (Some (counts (loop objs
                 {| counts := zero_stats;
                    trace := trace s ++ [Log info (Processing (src_path src))] |}).1))))
  /\ (forall obj s0 s1 e,
        handle_object out_root o obj s0 = (s1, Raise e) ->
        guarded_object out_root o obj s0
        = ({| counts := counts s1;
              trace := trace s1 ++ [Log error (ObjectError e)] |}, Ok tt))
  /\ (forall obj s0, (guarded_object out_root o obj s0).2 = Ok tt)
  /\ (forall pre obj post s0,
        loop (pre ++ obj :: post) s0
        = loop post (guarded_object out_root o obj (loop pre s0).1).1)
  /\ (exists st,
        (extract_from_file
           (source_example "a.assets" (Ok [broken_object; unknown_object]))
           out_dir_example None start).2 = Ok (Some st)
        /\ st textures = 0%nat /\ st other = 1%nat).
Proof.
  intros o loop. repeat split.
  - intros e He. apply extract_from_file_failed. exact He.
  - intros e batch_root batch_opts k He. unfold contribution, file_stats.
    rewrite (extract_from_file_failed src _ (Some batch_opts) start e He).
    reflexivity.
  - intros objs Hobjs. eexists.
    rewrite (extract_from_file_loaded src out_root opts s objs Hobjs). reflexivity.
  - intros obj s0 s1 e H. unfold guarded_object, try_except. rewrite H.
    reflexivity.
  - intros obj s0. apply guarded_object_returns.
  - intros pre obj post s0. subst loop. simpl.
    rewrite (for_each_app _ pre (obj :: post) (guarded_object_returns out_root o)).
    simpl. unfold mbind, M_bind.
    pose proof (guarded_object_returns out_root o obj
                  (for_each pre (guarded_object out_root o) s0).1) as Hr.
    destruct (guarded_object out_root o obj _) as [s1 r]. simpl in *. subst r.
    reflexivity.
  - eexists. split; [vm_compute; reflexivity|]. split; reflexivity.
Qed.

(** ** Text assets without data *)

Lemma written_app (t1 t2 : list event) :
  written (t1 ++ t2) = written t1 ++ written t2.
Proof.
  induction t1 as [|ev t1 IH]; simpl; [reflexivity|].
  destruct ev; simpl; rewrite IH; reflexivity.
Qed.

Ltac compare_literals :=
  repeat match goal with
  | |- context [str_eqb (lit ?a) (lit ?b)] =>
      let v := eval vm_compute in (str_eqb (lit a) (lit b)) in
      change (str_eqb (lit a) (lit b)) with v
  | |- context [in_set (lit ?a) ?l] =>
      let v := eval vm_compute in (in_set (lit a) l) in
      change (in_set (lit a) l) with v
  end.

Lemma handle_text_asset (out_root : path) (opts : options) (obj : object) :
  type_name obj = lit "TextAsset" -> opts texts = true ->
  handle_object out_root opts obj = extract_text out_root obj.
Proof.
  intros Hn Ho. unfold handle_object. rewrite Hn. compare_literals.
  cbn [andb]. rewrite Ho. reflexivity.
Qed.

(** C10. A text asset whose data ([m_Script or script or text]) is neither
    a string nor bytes is handled without writing a file, and still the
    log says it was saved and the count of texts goes up by one; a pass
    over one such asset returns a count of one with no file written. *)
Theorem text_without_data_is_counted
  (out_root : path) (opts : options) (obj : object) (d : decoded) (name : str)
  (s : state) :
  type_name obj = lit "TextAsset" -> opts texts = true -> read obj = Ok d ->
  sanitize_value (getattr d "m_Name" (default_name "text_" (path_id obj))) = Ok name ->
  (forall t, text_data d <> PStr t) -> (forall b, text_data d <> PBytes b) ->
  let s' := (guarded_object out_root opts obj s).1 in
  written (trace s') = written (trace s)
  /\ counts s' texts = (counts s texts + 1)%nat
  /\ trace s'
     = trace s ++ [Mkdir (kind_dir out_root texts);
                   Log info (Saved texts (child (kind_dir out_root texts)
                                            (name ++ lit ".txt")))].
Proof.
  intros Hn Ho Hr Hname Hstr Hbytes s'. subst s'.
  unfold guarded_object, try_except.
  rewrite (handle_text_asset out_root opts obj Hn Ho).
  unfold extract_text, mbind, M_bind, call, ensure_dir, logging, emit, count,
    mret, M_ret.
  rewrite Hr. simpl. rewrite Hname.
  destruct (text_data d) as [|t|b|z] eqn:Hd;
    [|exfalso; exact (Hstr t eq_refl)|exfalso; exact (Hbytes b eq_refl)|];
    simpl; rewrite <- app_assoc; simpl;
    (split; [rewrite written_app; simpl; rewrite app_nil_r; reflexivity|]);
    (split; [unfold add_to; rewrite bool_decide_eq_true_2 by reflexivity;
             reflexivity | reflexivity]).
Qed.

(** The theorem at a text asset that has none of the three attributes: the
    pass counts one text and writes nothing. *)
Lemma text_without_data_is_counted_witness :
  type_name empty_text = lit "TextAsset"
  /\ text_data (bag [("m_Name", PStr (lit "notes"))]) = PNone
  /\ written (trace (guarded_object out_dir_example default_options empty_text start).1) = []
  /\ counts (guarded_object out_dir_example default_options empty_text start).1 texts = 1%nat.
Proof.
  split; [reflexivity|]. split; [reflexivity|].
  pose proof (text_without_data_is_counted out_dir_example default_options empty_text
                (bag [("m_Name", PStr (lit "notes"))]) (lit "notes") start
                eq_refl eq_refl eq_refl eq_refl
                (fun t H => match H in _ = v return match v with PStr _ => False | _ => True end
                            with eq_refl => I end)
                (fun b H => match H in _ = v return match v with PBytes _ => False | _ => True end
                            with eq_refl => I end)) as H.
  split; [exact (proj1 H) | exact (proj1 (proj2 H))].
Defined.

(** ** The batch *)

Lemma processed_app (t1 t2 : list event) :
  processed (t1 ++ t2) = processed t1 ++ processed t2.
Proof.
  induction t1 as [|ev t1 IH]; simpl; [reflexivity|].
  destruct ev as [| |[] []|]; simpl; rewrite ?IH; reflexivity.
Qed.

Lemma processed_object_events (out_root : path) (opts : options) (evs : list event) :
  Forall (fun ev => exists obj, object_event out_root opts obj ev) evs ->
  processed evs = [].
Proof.
  induction 1 as [|ev evs [obj Hev] _ IH]; simpl; [reflexivity|].
  inversion Hev; subst; exact IH.
Qed.

Lemma loop_events (out_root : path) (opts : options) (objs : list object) :
  emits (fun ev => exists obj, object_event out_root opts obj ev)
        (for_each objs (guarded_object out_root opts)).
Proof.
  apply emits_for_each. intros obj _.
  eapply emits_impl; [|apply guarded_object_events]. eauto.
Qed.

(** The counts of a pass do not depend on the events before it. *)
Lemma loop_counts (out_root : path) (opts : options) (objs : list object) (t : list event) :
  counts (for_each objs (guarded_object out_root opts)
            {| counts := zero_stats; trace := t |}).1
  = counts (for_each objs (guarded_object out_root opts) start).1.
Proof.
  destruct (loop_events out_root opts objs) as [Ha _].
  rewrite (Ha zero_stats t). reflexivity.
Qed.

Lemma loop_processed (out_root : path) (opts : options) (objs : list object) (t : list event) :
  processed (trace (for_each objs (guarded_object out_root opts)
                      {| counts := zero_stats; trace := t |}).1)
  = processed t.
Proof.
  destruct (emits_run _ _ {| counts := zero_stats; trace := t |}
              (loop_events out_root opts objs)) as (evs & Ht & Hevs & _).
  rewrite Ht, processed_app, (processed_object_events _ _ _ Hevs), app_nil_r.
  reflexivity.
Qed.

(** The engine returns the same value in whatever state it is started. *)
Lemma extract_from_file_result (src : source) (out_root : path) (opts : options) (s : state) :
  (extract_from_file src out_root (Some opts) s).2
  = (extract_from_file src out_root (Some opts) start).2.
Proof.
  destruct (src_load src) as [objs|e] eqn:Hload.
  - rewrite !(extract_from_file_loaded src out_root (Some opts) _ objs Hload).
    simpl. rewrite !loop_counts. reflexivity.
  - rewrite !(extract_from_file_failed src out_root (Some opts) _ e Hload).
    reflexivity.
Qed.

Lemma extract_from_file_state (src : source) (out_root : path) (opts : options) (s : state) :
  counts (extract_from_file src out_root (Some opts) s).1 = counts s
  /\ processed (trace (extract_from_file src out_root (Some opts) s).1)
     = processed (trace s) ++ [src_path src].
Proof.
  destruct (src_load src) as [objs|e] eqn:Hload.
  - rewrite (extract_from_file_loaded src out_root (Some opts) s objs Hload).
    simpl. split; [reflexivity|].
    rewrite processed_app, loop_processed, processed_app. simpl.
    rewrite app_nil_r. reflexivity.
  - rewrite (extract_from_file_failed src out_root (Some opts) s e Hload).
    simpl. split; [reflexivity|]. rewrite processed_app. reflexivity.
Qed.

Lemma add_all_kinds (st : kind_stats) (s : state) :
  let r := for_each all_kinds (fun k => add_total k (st k)) s in
  r.2 = Ok tt /\ trace r.1 = trace s
  /\ forall k, counts r.1 k = (counts s k + st k)%nat.
Proof.
  simpl. unfold mbind, M_bind, add_total, mret, M_ret. simpl.
  split; [reflexivity|]. split; [reflexivity|].
  intros k. destruct k; unfold add_to; simpl; lia.
Qed.

Lemma run_bind {A B} (m : M A) (f : A -> M B) (s : state) :
  (m ≫= f) s
  = match m s with
    | (s', Ok a) => f a s'
    | (s', Raise e) => (s', Raise e)
    end.
Proof. reflexivity. Qed.

Lemma run_emit_bind {B} (ev : event) (f : unit -> M B) (s : state) :
  (emit ev ≫= f) s = f tt {| counts := counts s; trace := trace s ++ [ev] |}.
Proof. reflexivity. Qed.

Lemma run_ensure_dir_bind {B} (p : path) (f : path -> M B) (s : state) :
  (ensure_dir p ≫= f) s = f p {| counts := counts s; trace := trace s ++ [Mkdir p] |}.
Proof. reflexivity. Qed.

(** One file of the batch: the loop goes on, the totals grow by what the
    file contributes, and the engine was started on the file. *)
Lemma process_file_run (n : nat) (out_root : path) (opts : options)
      (idx : nat) (f : source) (s : state) :
  let r := process_file n out_root opts idx f s in
  r.2 = Ok tt
  /\ (forall k, counts r.1 k = (counts s k + contribution out_root opts k f)%nat)
  /\ processed (trace r.1) = processed (trace s) ++ [src_path f].
Proof.
  unfold process_file, contribution, file_stats.
  set (sub := child out_root (stem (path_name (src_path f)))).
  unfold try_except.
  rewrite run_ensure_dir_bind, run_emit_bind, run_bind.
  set (s1 := {| counts := counts {| counts := counts s; trace := trace s ++ [Mkdir sub] |};
               trace := _ |}).
  assert (Hc1 : counts s1 = counts s) by reflexivity.
  assert (Hp1 : processed (trace s1) = processed (trace s)).
  { subst s1. cbn [trace counts]. rewrite !processed_app. simpl.
    rewrite !app_nil_r. reflexivity. }
  pose proof (extract_from_file_result f sub opts s1) as Hres.
  pose proof (extract_from_file_state f sub opts s1) as [Hc Hp].
  rewrite Hc1 in Hc. rewrite Hp1 in Hp. clearbody s1.
  destruct (extract_from_file f sub (Some opts) s1) as [s2 r2].
  destruct (extract_from_file f sub (Some opts) start) as [s0 r0].
  cbn [fst snd] in *. subst r2.
  destruct r0 as [[st|]|e].
  - rewrite run_bind.
    pose proof (add_all_kinds st s2) as (Hr & Ht & Hk).
    destruct (for_each all_kinds _ s2) as [s3 r3]. cbn [fst snd] in *. subst r3.
    unfold emit. cbn [fst snd counts trace].
    split; [reflexivity|]. split.
    + intros k. rewrite Hk, Hc. reflexivity.
    + rewrite processed_app, Ht, Hp. simpl. rewrite app_nil_r. reflexivity.
  - unfold mret, M_ret. cbn [fst snd].
    split; [reflexivity|]. split; [intros k; rewrite Hc; lia | exact Hp].
  - unfold emit. cbn [fst snd counts trace].
    split; [reflexivity|]. split; [intros k; rewrite Hc; lia|].
    rewrite processed_app, Hp. simpl. rewrite app_nil_r. reflexivity.
Qed.

Lemma batch_run (n : nat) (out_root : path) (opts : options) (files : list source) :
  forall idx s,
    let r := for_each (enumerate idx files)
               (fun '(i, f) => process_file n out_root opts i f) s in
    (forall k, counts r.1 k
               = (counts s k + list_sum (List.map (contribution out_root opts k) files))%nat)
    /\ processed (trace r.1) = processed (trace s) ++ List.map src_path files.
Proof.
  induction files as [|f files IH]; intros idx s; simpl.
  - split; [intros k; lia | rewrite app_nil_r; reflexivity].
  - unfold mbind, M_bind.
    pose proof (process_file_run n out_root opts idx f s) as (Hr & Hk & Hp).
    destruct (process_file n out_root opts idx f s) as [s1 r1].
    simpl in *. subst r1.
    destruct (IH (S idx) s1) as [IHk IHp]. split.
    + intros k. rewrite IHk, Hk. lia.
    + rewrite IHp, Hp, <- app_assoc. reflexivity.
Qed.

(** C9. After a batch the totals are, kind by kind, the sum over the files
    of what the engine returned for each: the counts of a file that opened,
    and nothing for a file that failed to open.  The engine is started on
    every file of the batch, in order, whatever happened to the files
    before it. *)
Theorem start_extraction_totals (files : list source) (out_root : path) (opts : options) :
  (forall k, (start_extraction files out_root opts).1 k
             = list_sum (List.map (contribution out_root opts k) files))
  /\ processed (start_extraction files out_root opts).2 = List.map src_path files
  /\ (forall f s,
        (extract_from_file f (child out_root (stem (path_name (src_path f))))
           (Some opts) s).2 = Ok (file_stats out_root opts f))
  /\ (forall f e, src_load f = Raise e ->
        file_stats out_root opts f = None
        /\ forall k, contribution out_root opts k f = 0%nat)
  /\ (forall f objs, src_load f = Ok objs ->
        exists st, file_stats out_root opts f = Some st
                   /\ forall k, contribution out_root opts k f = st k)
  /\ List.map
       (start_extraction
          [ source_example "a.assets" (Ok [mesh_example 1]);
            source_example "b.assets" (Raise (lit "not a container"));
            source_example "c.assets" (Ok [texture_example 1; unknown_object]) ]
          out_dir_example default_options).1
       all_kinds
     = [1; 0; 0; 1; 0; 0; 0; 0; 1]%nat.
Proof.
  split; [|split; [|split; [|split; [|split]]]].
  - intros k. unfold start_extraction.
    pose proof (batch_run (length files) out_root opts files 1
                  {| counts := zero_stats; trace := [Mkdir out_root] |}) as [Hk _].
    destruct (for_each _ _ _) as [s r]. simpl in *. rewrite Hk. reflexivity.
  - unfold start_extraction.
    pose proof (batch_run (length files) out_root opts files 1
                  {| counts := zero_stats; trace := [Mkdir out_root] |}) as [_ Hp].
    destruct (for_each _ _ _) as [s r]. simpl in *. rewrite Hp. reflexivity.
  - intros f s. rewrite extract_from_file_result. unfold file_stats.
    destruct (src_load f) as [objs|e] eqn:Hload.
    + rewrite (extract_from_file_loaded f _ (Some opts) start objs Hload). reflexivity.
    + rewrite (extract_from_file_failed f _ (Some opts) start e Hload). reflexivity.
  - intros f e Hload. unfold contribution, file_stats.
    rewrite (extract_from_file_failed f _ (Some opts) start e Hload). auto.
  - intros f objs Hload. unfold contribution, file_stats.
    rewrite (extract_from_file_loaded f _ (Some opts) start objs Hload).
    eexists. split; reflexivity.
  - vm_compute. reflexivity.
Qed.

(** ** Output names *)

Lemma lit_inj (a b : string) : lit a = lit b -> a = b.
Proof.
  unfold lit. intros H.
  rewrite <- (string_of_list_ascii_of_string a), <- (string_of_list_ascii_of_string b).
  f_equal. revert H.
  generalize (list_ascii_of_string a) (list_ascii_of_string b).
  induction l as [|x l IH]; intros [|y l']; simpl; intros H;
    try discriminate; [reflexivity|].
  inversion H as [[Hxy Hl]]. f_equal.
  - rewrite <- (ascii_N_embedding x), <- (ascii_N_embedding y), Hxy. reflexivity.
  - apply IH. exact Hl.
Qed.

Lemma to_int_proper (z : Z) :
  Z.to_int z <> Decimal.Pos Decimal.Nil /\ Z.to_int z <> Decimal.Neg Decimal.Nil.
Proof.
  destruct z as [|p|p]; simpl; split; try discriminate;
    intros [= H]; exact (DecimalPos.Unsigned.to_uint_nonnil p H).
Qed.

(** Two integers with the same decimal text are equal. *)
Lemma str_int_inj (a b : Z) : str_int a = str_int b -> a = b.
Proof.
  unfold str_int. intros H. apply lit_inj in H.
  apply DecimalZ.to_int_inj.
  destruct (to_int_proper a) as [Ha1 Ha2], (to_int_proper b) as [Hb1 Hb2].
  pose proof (NilZero.isi _ Ha1 Ha2) as Ea.
  pose proof (NilZero.isi _ Hb1 Hb2) as Eb.
  rewrite H in Ea. rewrite Ea in Eb. inversion Eb. reflexivity.
Qed.

Lemma handle_texture (out_root : path) (opts : options) (obj : object) :
  type_name obj = lit "Texture2D" -> opts textures = true ->
  handle_object out_root opts obj = extract_texture out_root obj.
Proof.
  intros Hn Ho. unfold handle_object. rewrite Hn. compare_literals.
  cbn [andb]. rewrite Ho. reflexivity.
Qed.

Lemma extract_texture_saved (out_root : path) (obj : object) (d : decoded)
      (i : pil_image) (n : str) (s : state) :
  read obj = Ok d -> image d = Ok (Some i) -> save i = Ok tt ->
  texture_name d (path_id obj) = Ok n ->
  let p := child (kind_dir out_root textures)
             (n ++ lit "_" ++ str_int (path_id obj) ++ lit ".png") in
  extract_texture out_root obj s
  = ({| counts := add_to textures 1 (counts s);
        trace := trace s ++ [Mkdir (kind_dir out_root textures); Write p (Png i);
                             Log info (Saved textures p)] |}, Ok tt).
Proof.
  intros Hr Hi Hs Hn p. subst p. unfold texture_name in Hn.
  unfold extract_texture, mbind, M_bind, call, ensure_dir, save_image, logging,
    emit, count, mret, M_ret.
  rewrite Hr, Hi, Hn. simpl. rewrite Hs. simpl.
  rewrite <- !app_assoc. reflexivity.
Qed.

(** The part of C2 that holds: two textures whose names sanitize to the
    same string and whose ids differ are written to two different files. *)
Lemma texture_names_disambiguated
      (out_root : path) (opts : options) (o1 o2 : object) (d1 d2 : decoded)
      (i1 i2 : pil_image) (n : str) :
  type_name o1 = lit "Texture2D" -> type_name o2 = lit "Texture2D" ->
  opts textures = true ->
  read o1 = Ok d1 -> image d1 = Ok (Some i1) -> save i1 = Ok tt ->
  read o2 = Ok d2 -> image d2 = Ok (Some i2) -> save i2 = Ok tt ->
  texture_name d1 (path_id o1) = Ok n -> texture_name d2 (path_id o2) = Ok n ->
  path_id o1 <> path_id o2 ->
  exists p1 p2,
    written (trace (for_each [o1; o2] (guarded_object out_root opts) start).1) = [p1; p2]
    /\ p1 = child (kind_dir out_root textures)
              (n ++ lit "_" ++ str_int (path_id o1) ++ lit ".png")
    /\ p2 = child (kind_dir out_root textures)
              (n ++ lit "_" ++ str_int (path_id o2) ++ lit ".png")
    /\ p1 <> p2.
Proof.
  intros Ht1 Ht2 Ho Hr1 Hi1 Hs1 Hr2 Hi2 Hs2 Hn1 Hn2 Hid.
  eexists _, _. split; [|split; [reflexivity|split; [reflexivity|]]].
  - simpl. unfold mbind, M_bind, guarded_object, try_except.
    rewrite (handle_texture _ _ _ Ht1 Ho), (handle_texture _ _ _ Ht2 Ho).
    rewrite (extract_texture_saved out_root o1 d1 i1 n _ Hr1 Hi1 Hs1 Hn1).
    rewrite (extract_texture_saved out_root o2 d2 i2 n _ Hr2 Hi2 Hs2 Hn2).
    reflexivity.
  - unfold child. intros H. apply app_inv_head in H.
    inversion H as [H']. apply app_inv_head in H'.
    apply (app_inv_head (lit "_")) in H'.
    apply app_inv_tail in H'. apply str_int_inj in H'. contradiction.
Qed.

(** The lemma at two textures named [Wall] with the ids 1 and 2. *)
Lemma texture_names_disambiguated_example :
  exists p1 p2,
    written (trace (for_each [texture_example 1; texture_example 2]
                      (guarded_object out_dir_example default_options) start).1)
    = [p1; p2]
    /\ p1 = child (kind_dir out_dir_example textures)
              (lit "Wall" ++ lit "_" ++ str_int 1 ++ lit ".png")
    /\ p2 = child (kind_dir out_dir_example textures)
              (lit "Wall" ++ lit "_" ++ str_int 2 ++ lit ".png")
    /\ p1 <> p2.
Proof.
  eapply (texture_names_disambiguated out_dir_example default_options
            (texture_example 1) (texture_example 2));
    try reflexivity; discriminate.
Qed.

(** C2 fails on the code for meshes.  Two meshes named [Cube] with the ids
    1 and 2 are both exported to [meshes/Cube.obj]: the second file
    replaces the first, and the count of meshes is two.  The name of a mesh
    file does not carry the id, where the name of a texture file does. *)
Theorem mesh_names_collide :
  written (trace (extract_from_file
                    (source_example "level0" (Ok [mesh_example 1; mesh_example 2]))
                    out_dir_example None start).1)
  = [ child (kind_dir out_dir_example meshes) (lit "Cube.obj");
      child (kind_dir out_dir_example meshes) (lit "Cube.obj") ]
  /\ (exists st,
        (extract_from_file
           (source_example "level0" (Ok [mesh_example 1; mesh_example 2]))
           out_dir_example None start).2 = Ok (Some st)
        /\ st meshes = 2%nat)
  /\ written (trace (extract_from_file
                       (source_example "level0" (Ok [texture_example 1; texture_example 2]))
                       out_dir_example None start).1)
     = [ child (kind_dir out_dir_example textures) (lit "Wall_1.png");
         child (kind_dir out_dir_example textures) (lit "Wall_2.png") ].
Proof.
  split; [vm_compute; reflexivity|]. split.
  - eexists. split; [vm_compute; reflexivity | reflexivity].
  - vm_compute. reflexivity.
Qed.

(** * Further properties *)

(** ** More on the name sanitizer *)

Lemma sanitize_name_kept (name : option str) :
  Forall (fun c => char_in c keep = true) (sanitize_name name).
Proof.
  unfold sanitize_name. apply Forall_forall. intros c Hc.
  apply list_elem_of_In, in_map_iff in Hc as (c0 & <- & _).
  apply sanitize_char_kept.
Qed.

Lemma sanitize_name_nonempty (name : option str) : sanitize_name name <> [].
Proof.
  unfold sanitize_name. intros H. apply map_eq_nil in H.
  exact (or_unnamed_nonempty name H).
Qed.

Lemma map_kept_id (s : str) :
  Forall (fun c => char_in c keep = true) s ->
  List.map (fun c => if char_in c keep then c else underscore) s = s.
Proof.
  induction 1 as [|c s Hc _ IH]; cbn [List.map]; [reflexivity|].
  rewrite Hc, IH. reflexivity.
Qed.

(** X1. Sanitizing is idempotent: a sanitized name is left as it is when
    it is sanitized again. *)
Theorem sanitize_name_idempotent (name : option str) :
  sanitize_name (Some (sanitize_name name)) = sanitize_name name.
Proof.
  pose proof (sanitize_name_kept name) as Hk.
  pose proof (sanitize_name_nonempty name) as Hn.
  destruct (sanitize_name name) as [|c s] eqn:E; [congruence|].
  unfold sanitize_name at 1. simpl or_unnamed. apply map_kept_id. exact Hk.
Qed.

Lemma keep_safe : forallb safe_char keep = true.
Proof. vm_compute. reflexivity. Qed.

Lemma kept_is_safe (c : N) : char_in c keep = true -> safe_char c = true.
Proof.
  unfold char_in. intros H. apply existsb_exists in H as (x & Hx & Hc).
  apply N.eqb_eq in Hc. subst x.
  pose proof keep_safe as Hs. rewrite forallb_forall in Hs. apply Hs, Hx.
Qed.

(** X2. A sanitized name holds no control character, no path separator
    and none of the other characters that a file system refuses in a file
    name. *)
Theorem sanitize_name_safe (name : option str) :
  Forall (fun c => 32 <= c /\ c <> 127 /\ c ∉ forbidden_in_names)
         (sanitize_name name).
Proof.
  eapply Forall_impl; [apply sanitize_name_kept|].
  intros c Hc. apply kept_is_safe in Hc. unfold safe_char in Hc.
  apply andb_true_iff in Hc as [Hc Hf]. apply andb_true_iff in Hc as [Hlo Hdel].
  apply N.leb_le in Hlo. apply negb_true_iff in Hdel, Hf.
  apply N.eqb_neq in Hdel. repeat split; [exact Hlo | exact Hdel |].
  intros Hin. apply list_elem_of_In in Hin.
  assert (char_in c forbidden_in_names = true); [|congruence].
  unfold char_in. apply existsb_exists. exists c. split; [exact Hin | apply N.eqb_refl].
Qed.

(** ** More on version detection *)

Lemma span_run (p : N -> bool) (a : list N) (x : N) (r : list N) :
  Forall (fun c => p c = true) a -> p x = false ->
  span p (a ++ x :: r) = (a, x :: r).
Proof.
  intros Ha Hx. induction Ha as [|c a Hc _ IH]; simpl.
  - rewrite Hx. reflexivity.
  - rewrite Hc, IH. reflexivity.
Qed.

Lemma span_prefix (p : N -> bool) (b r : list N) :
  Forall (fun c => p c = true) b ->
  span p (b ++ r) = (b ++ (span p r).1, (span p r).2).
Proof.
  induction 1 as [|c b Hc _ IH]; simpl.
  - destruct (span p r); reflexivity.
  - rewrite Hc, IH. reflexivity.
Qed.

Lemma span_end (p : N -> bool) (b : list N) (r : list N) :
  Forall (fun c => p c = true) b ->
  match r with
  | [] => True
  | c :: _ => p c = false
  end ->
  span p (b ++ r) = (b, r).
Proof.
  intros Hb Hr. destruct r as [|x r].
  - rewrite app_nil_r. induction Hb as [|c b Hc _ IH]; simpl; [reflexivity|].
    rewrite Hc, IH. reflexivity.
  - apply span_run; assumption.
Qed.

Lemma matches_digits_dot_digits (d : N -> bool) (s s' : list N) :
  matches (major_minor d) s s' ->
  exists a b, a <> [] /\ b <> [] /\ Forall (fun c => d c = true) a
              /\ Forall (fun c => d c = true) b /\ s = a ++ dot :: b ++ s'.
Proof.
  unfold major_minor. intros H.
  inversion H as [| | | |r1 r2 s0 s1 s2 H1 H2|]; subst.
  inversion H2 as [| | | |r1 r2 s0 s3 s2 H3 H4|]; subst.
  inversion H1 as [| | |g mn p a t Ha Hla| |]; subst.
  inversion H3; subst.
  inversion H4 as [| | |g mn p b t Hb Hlb| |]; subst.
  exists a, b. repeat split; auto.
  - intros ->. simpl in Hla. lia.
  - intros ->. simpl in Hlb. lia.
Qed.

Lemma matches_version_triple (d : N -> bool) (s s' : list N) :
  matches (major_minor_patch d) s s' ->
  exists a b rest, a <> [] /\ b <> [] /\ Forall (fun c => d c = true) a
                   /\ Forall (fun c => d c = true) b
                   /\ s = a ++ dot :: b ++ rest ++ s'.
Proof.
  unfold major_minor_patch. intros H.
  inversion H as [| | | |r1 r2 s0 s1 s2 H1 H2|]; subst.
  inversion H2 as [| | | |r1 r2 s0 s3 s2 H3 H4|]; subst.
  inversion H4 as [| | | |r1 r2 s0 s4 s2 H5 H6|]; subst.
  inversion H1 as [| | |g mn p a t Ha Hla| |]; subst.
  inversion H3; subst.
  inversion H5 as [| | |g mn p b t Hb Hlb| |]; subst.
  destruct (matches_suffix _ _ _ H6) as (rest & -> & _).
  exists a, b, rest. repeat split; auto.
  - intros ->. simpl in Hla. lia.
  - intros ->. simpl in Hlb. lia.
Qed.

Lemma matches_cat_inv (r1 r2 : regex) (s s2 : list N) :
  matches (Cat r1 r2) s s2 -> exists s1, matches r1 s s1 /\ matches r2 s1 s2.
Proof. intros H. inversion H; subst. eauto. Qed.

(** Group 1 of a match is a piece of the header. *)
Lemma group_length (p : regex) (h : bytes) (m : captures) (g : bytes) :
  p ∈ version_patterns -> re_search p h = Some m -> m !! 1%nat = Some g ->
  (length g <= length h)%nat.
Proof.
  intros Hp Hs Hg. apply re_search_sound in Hs as (pre & t & -> & Hm).
  unfold re_match in Hm.
  assert (Hgroup : exists r s g0,
            rmatch (Group 1 r) s g0 (fun _ g' => Some g') = Some m
            /\ (length s <= length t)%nat).
  { unfold version_patterns in Hp.
    apply elem_of_cons in Hp as [->|Hp]; [|apply elem_of_cons in Hp as [->|Hp]];
      [| |apply list_elem_of_singleton in Hp as ->].
    - eexists _, t, ∅. split; [exact Hm | lia].
    - unfold pattern_unity in Hm.
      change (rmatch (Cat ?a ?b) ?s ?g ?k)
        with (rmatch a s g (fun s1 g1 => rmatch b s1 g1 k)) in Hm.
      apply rmatch_sound in Hm as (s1 & g1 & H1 & Hm).
      destruct (matches_suffix _ _ _ H1) as (p1 & -> & _).
      eexists _, s1, g1. split; [exact Hm | rewrite length_app; lia].
    - unfold pattern_unityfs in Hm.
      change (rmatch (Cat ?a (Cat ?b ?c)) ?s ?g ?k)
        with (rmatch a s g (fun s1 g1 => rmatch b s1 g1 (fun s2 g2 => rmatch c s2 g2 k))) in Hm.
      apply rmatch_sound in Hm as (s1 & g1 & H1 & Hm).
      apply rmatch_sound in Hm as (s2 & g2 & H2 & Hm).
      destruct (matches_suffix _ _ _ H1) as (p1 & -> & _).
      destruct (matches_suffix _ _ _ H2) as (p2 & -> & _).
      eexists _, s2, g2. split; [exact Hm | rewrite !length_app; lia]. }
  destruct Hgroup as (r & s & g0 & Hr & Hlen).
  apply group_value in Hr as (g' & s' & -> & _ & _ & Hlook).
  assert (g' = g) by congruence. subst g'.
  rewrite !length_app in *. lia.
Qed.

(** The text of group 1 in a match of one of the three patterns: digits, a
    dot, digits, and possibly more, all of it ASCII. *)
Lemma version_group_shape (p : regex) (h : bytes) (m : captures) :
  p ∈ version_patterns -> re_search p h = Some m ->
  exists a b rest,
    m !! 1%nat = Some (a ++ dot :: b ++ rest)
    /\ a <> [] /\ b <> []
    /\ Forall (fun c => is_digit c = true) a
    /\ Forall (fun c => is_digit c = true) b
    /\ Forall (fun c => c < 128) (a ++ dot :: b ++ rest).
Proof.
  intros Hp Hs.
  destruct (group_ascii p h m Hp Hs) as (g & Hg & Hdec).
  assert (Hascii : Forall (fun c => c < 128) g).
  { rewrite <- Hdec. unfold decode_ignore. apply Forall_forall. intros c Hc.
    apply list_elem_of_In, filter_In in Hc as [_ Hc]. apply N.ltb_lt. exact Hc. }
  apply re_search_sound in Hs as (pre & t & _ & Hm). unfold re_match in Hm.
  assert (Hshape : exists a b rest, g = a ++ dot :: b ++ rest /\ a <> [] /\ b <> []
                     /\ Forall (fun c => is_digit c = true) a
                     /\ Forall (fun c => is_digit c = true) b).
  { unfold version_patterns in Hp.
    apply elem_of_cons in Hp as [->|Hp]; [|apply elem_of_cons in Hp as [->|Hp]];
      [| |apply list_elem_of_singleton in Hp as ->].
    - apply group_value in Hm as (g' & s' & Ht & Hmat & _ & Hlook).
      assert (g' = g) by congruence. subst g'.
      apply matches_cat_inv in Hmat as (s1 & H1 & H2).
      apply matches_version_triple in H1 as (a & b & rest & Ha & Hb & Hda & Hdb & E).
      destruct (matches_suffix _ _ _ H2) as (al & E1 & _).
      exists a, b, (rest ++ al). repeat split; auto.
      rewrite E, E1 in Ht.
      replace (a ++ dot :: b ++ rest ++ al ++ s')
        with ((a ++ dot :: b ++ rest ++ al) ++ s') in Ht
        by (rewrite <- !app_assoc; simpl; rewrite <- !app_assoc; reflexivity).
      apply app_inv_tail in Ht. symmetry. exact Ht.
    - unfold pattern_unity in Hm.
      change (rmatch (Cat ?x ?y) ?s ?g0 ?k)
        with (rmatch x s g0 (fun s1 g1 => rmatch y s1 g1 k)) in Hm.
      apply rmatch_sound in Hm as (s1 & g1 & _ & Hm).
      apply group_value in Hm as (g' & s' & Ht & Hmat & _ & Hlook).
      assert (g' = g) by congruence. subst g'.
      apply matches_version_triple in Hmat as (a & b & rest & Ha & Hb & Hda & Hdb & E).
      exists a, b, rest. repeat split; auto.
      rewrite E in Ht.
      replace (a ++ dot :: b ++ rest ++ s') with ((a ++ dot :: b ++ rest) ++ s') in Ht
        by (rewrite <- !app_assoc; simpl; rewrite <- !app_assoc; reflexivity).
      apply app_inv_tail in Ht. symmetry. exact Ht.
    - unfold pattern_unityfs in Hm.
      change (rmatch (Cat ?x (Cat ?y ?z)) ?s ?g0 ?k)
        with (rmatch x s g0 (fun s1 g1 => rmatch y s1 g1 (fun s2 g2 => rmatch z s2 g2 k))) in Hm.
      apply rmatch_sound in Hm as (s1 & g1 & _ & Hm).
      apply rmatch_sound in Hm as (s2 & g2 & _ & Hm).
      apply group_value in Hm as (g' & s' & Ht & Hmat & _ & Hlook).
      assert (g' = g) by congruence. subst g'.
      apply matches_digits_dot_digits in Hmat as (a & b & Ha & Hb & Hda & Hdb & E).
      exists a, b, []. rewrite app_nil_r. repeat split; auto.
      rewrite E in Ht.
      replace (a ++ dot :: b ++ s') with ((a ++ dot :: b) ++ s') in Ht
        by (rewrite <- !app_assoc; reflexivity).
      apply app_inv_tail in Ht. symmetry. exact Ht. }
  destruct Hshape as (a & b & rest & -> & Ha & Hb & Hda & Hdb).
  exists a, b, rest. auto 10.
Qed.

(** What detection returns when the parser exposes no version: the record
    of an unknown version, or the text of group 1 of a pattern. *)
Lemma detect_outcomes (f : probe) :
  (forall v, probe_load f <> Ok (Some v)) ->
  (exists w, detect_unity_version f = unknown_with w)
  \/ (exists p h m g,
        p ∈ version_patterns /\ (length h <= 1024)%nat
        /\ re_search p h = Some m /\ m !! 1%nat = Some g
        /\ detect_unity_version f = found_in_header f g).
Proof.
  intros Hload. unfold detect_unity_version, detect_with, detect_body.
  destruct (probe_load f) as [[v|]|e]; [exfalso; exact (Hload v eq_refl)| |].
  2:{ left. eexists. reflexivity. }
  destruct (probe_bytes f) as [data|e]; [|left; eexists; reflexivity].
  set (h := take 1024 data).
  assert (Hh : (length h <= 1024)%nat) by (subst h; rewrite length_take; lia).
  unfold version_patterns.
  assert (Hfound : forall p ps m, p ∈ version_patterns -> re_search p h = Some m ->
            exists g, m !! 1%nat = Some g
              /\ scan_patterns (p :: ps) h (probe_name f) unknown_version
                 = Ok (found_in_header f g)).
  { intros p ps m Hp Hm. destruct (group_ascii p h m Hp Hm) as (g & Hg & Hdec).
    exists g. split; [exact Hg|].
    rewrite (scan_found _ _ _ _ _ m g Hm Hg), Hdec. reflexivity. }
  destruct (re_search pattern_bare h) as [m|] eqn:H1.
  { destruct (Hfound pattern_bare [pattern_unity; pattern_unityfs] m) as (g & Hg & ->);
      [unfold version_patterns; set_solver | exact H1 |].
    right. exists pattern_bare, h, m, g. unfold version_patterns. 
    repeat split; auto; set_solver. }
  rewrite (scan_skip _ _ _ _ _ H1).
  destruct (re_search pattern_unity h) as [m|] eqn:H2.
  { destruct (Hfound pattern_unity [pattern_unityfs] m) as (g & Hg & ->);
      [unfold version_patterns; set_solver | exact H2 |].
    right. exists pattern_unity, h, m, g. unfold version_patterns.
    repeat split; auto; set_solver. }
  rewrite (scan_skip _ _ _ _ _ H2).
  destruct (re_search pattern_unityfs h) as [m|] eqn:H3.
  { destruct (Hfound pattern_unityfs [] m) as (g & Hg & ->);
      [unfold version_patterns; set_solver | exact H3 |].
    right. exists pattern_unityfs, h, m, g. unfold version_patterns.
    repeat split; auto; set_solver. }
  rewrite (scan_skip _ _ _ _ _ H3). left. exists None. reflexivity.
Qed.

Lemma digit_first_not_unknown (a r : list N) :
  a <> [] -> Forall (fun c => is_digit c = true) a -> a ++ r <> lit "Unknown".
Proof.
  intros Ha Hd E. destruct a as [|c a]; [congruence|].
  apply Forall_cons in Hd as [Hc _].
  vm_compute in E. inversion E; subst c. discriminate.
Qed.

(** X3. Unless the parser itself exposes the text ["Unknown"] as the
    version, the version of the result is ["Unknown"] exactly when
    [detected_from] is [None]: the test the callers make on the version
    agrees with the origin recorded.  This covers a version exposed by the
    parser (an empty one as well: the code asks whether the attribute
    exists, not whether it is true), a parser that raises, and a version
    read from the header, which starts with a digit. *)
Theorem unknown_iff_no_origin (f : probe) :
  probe_load f <> Ok (Some (lit "Unknown")) ->
  version (detect_unity_version f) = lit "Unknown"
  <-> detected_from (detect_unity_version f) = None.
Proof.
  intros Hload.
  destruct (probe_load f) as [[v|]|e] eqn:El.
  - unfold detect_unity_version, detect_with, detect_body. rewrite El.
    cbn [version detected_from]. split; [|discriminate].
    intros ->. exfalso. apply Hload. reflexivity.
  - assert (Hl : forall x, probe_load f <> Ok (Some x)) by (rewrite El; discriminate).
    destruct (detect_outcomes f Hl)
      as [[w ->]|(p & h & m & g & Hp & _ & Hm & Hg & ->)].
    + split; reflexivity.
    + destruct (version_group_shape p h m Hp Hm)
        as (a & b & rest & Hg' & Ha & _ & Hda & _).
      assert (g = a ++ dot :: b ++ rest) by congruence. subst g.
      split; [|discriminate].
      intros E. simpl in E. exfalso. exact (digit_first_not_unknown _ _ Ha Hda E).
  - unfold detect_unity_version, detect_with, detect_body. rewrite El.
    split; reflexivity.
Qed.

(** The theorem at a file whose version the parser exposes as the empty
    string: the origin is recorded and the version is not ["Unknown"]. *)
Lemma unknown_iff_no_origin_witness :
  probe_load empty_version <> Ok (Some (lit "Unknown"))
  /\ (version (detect_unity_version empty_version) = lit "Unknown"
      <-> detected_from (detect_unity_version empty_version) = None).
Proof.
  assert (H : probe_load empty_version <> Ok (Some (lit "Unknown"))) by discriminate.
  split; [exact H | exact (unknown_iff_no_origin empty_version H)].
Defined.

Lemma is_decimal_ascii (c : N) : is_decimal ascii_decimal c = is_digit c.
Proof. unfold is_decimal, ascii_decimal. destruct (is_digit c); reflexivity. Qed.

(** A string that starts with digits, a dot and digits has a leading
    major and minor. *)
Lemma leading_of_shape (decimal_value : codepoint -> option N) (a b rest : str) :
  is_decimal decimal_value dot = false ->
  a <> [] -> b <> [] ->
  Forall (fun c => is_decimal decimal_value c = true) a ->
  Forall (fun c => is_decimal decimal_value c = true) b ->
  exists b' major minor,
    Forall (fun c => is_decimal decimal_value c = true) b'
    /\ int_digits decimal_value 0%Z a = Some major
    /\ int_digits decimal_value 0%Z (b ++ b') = Some minor
    /\ leading_major_minor decimal_value (a ++ dot :: b ++ rest) = Some (major, minor).
Proof.
  intros Hdot Ha Hb Hda Hdb.
  unfold leading_major_minor, span_digits.
  rewrite (span_run _ a dot (b ++ rest) Hda Hdot).
  destruct a as [|a0 a]; [congruence|]. rewrite N.eqb_refl.
  rewrite (span_prefix _ b rest Hdb).
  destruct (span (is_decimal decimal_value) rest) as [b' rest'] eqn:Er.
  pose proof (span_all _ _ _ _ Er) as Hb'. cbn [fst snd].
  assert (Hall : Forall (fun c => is_decimal decimal_value c = true) (b ++ b'))
    by (apply Forall_app; auto).
  destruct (int_digits_some _ _ Hda 0%Z) as [major Hmaj].
  destruct (int_digits_some _ _ Hall 0%Z) as [minor Hmin].
  exists b', major, minor.
  destruct b as [|b0 b]; [congruence|].
  cbn [app] in Hmin |- *. rewrite Hmaj, Hmin. auto.
Qed.

Lemma leading_texts_of_shape (decimal_value : codepoint -> option N) (a b rest : str) :
  is_decimal decimal_value dot = false ->
  a <> [] -> b <> [] ->
  Forall (fun c => is_decimal decimal_value c = true) a ->
  Forall (fun c => is_decimal decimal_value c = true) b ->
  match rest with
  | [] => True
  | c :: _ => is_decimal decimal_value c = false
  end ->
  leading_texts decimal_value (a ++ dot :: b ++ rest) = Some (a, b).
Proof.
  intros Hdot Ha Hb Hda Hdb Hrest.
  unfold leading_texts, span_digits.
  rewrite (span_run _ a dot (b ++ rest) Hda Hdot).
  destruct a as [|a0 a]; [congruence|]. rewrite N.eqb_refl.
  rewrite (span_end _ b rest Hdb Hrest).
  destruct b as [|b0 b]; [congruence | reflexivity].
Qed.

Lemma limit_covers_header : (1024 <= int_max_str_digits)%nat.
Proof. apply Nat.leb_le. reflexivity. Qed.

(** X4. A version found in the header always classifies: the
    compatibility check of such a version is never inconclusive, and the
    front ends show the version with that verdict. *)
Theorem header_version_is_classified
  (decimal_value : codepoint -> option N)
  (decimal_ascii : forall c, c < 128 -> decimal_value c = ascii_decimal c)
  (f : probe) :
  probe_load f = Ok None ->
  detected_from (detect_unity_version f) <> None ->
  let v := version (detect_unity_version f) in
  (check_version_compatibility decimal_value v
     = (false, lit "Unity version too old (< 3.4)")
   \/ check_version_compatibility decimal_value v
      = (true, lit "Newer version - may have limited support")
   \/ check_version_compatibility decimal_value v = (true, lit "Fully supported"))
  /\ version_display decimal_value (detect_unity_version f)
     = v ++ lit " (" ++ (check_version_compatibility decimal_value v).2 ++ lit ")".
Proof.
  intros Hload Hfrom v. subst v.
  assert (Hl : forall x, probe_load f <> Ok (Some x)) by (rewrite Hload; discriminate).
  destruct (detect_outcomes f Hl) as [[w E]|(p & h & m & g & Hp & Hh & Hm & Hg & E)];
    rewrite E in *; [exfalso; apply Hfrom; reflexivity|].
  pose proof (group_length p h m g Hp Hm Hg) as Hlen.
  destruct (version_group_shape p h m Hp Hm)
    as (a & b & rest & Hg' & Ha & Hb & Hda & Hdb & Hascii).
  assert (g = a ++ dot :: b ++ rest) by congruence. subst g. simpl version.
  split.
  - rewrite (check_is_classify _ decimal_ascii).
    2:{ apply within_short. pose proof limit_covers_header. lia. }
    unfold classify.
    rewrite (leading_ascii _ _ decimal_ascii Hascii).
    destruct (leading_of_shape ascii_decimal a b rest) as (b' & major & minor & _ & _ & _ & ->);
      auto; try (eapply Forall_impl; [eassumption|]; intros c Hc;
                 rewrite is_decimal_ascii; exact Hc).
    repeat case_bool_decide; auto.
  - unfold version_display. simpl version.
    destruct (str_eqb (a ++ dot :: b ++ rest) (lit "Unknown")) eqn:Eu; [|reflexivity].
    apply str_eqb_eq in Eu. exfalso.
    exact (digit_first_not_unknown _ _ Ha Hda Eu).
Qed.

(** The theorem at a header with two versions, under the ASCII table. *)
Lemma header_version_is_classified_witness :
  probe_load two_versions = Ok None
  /\ detected_from (detect_unity_version two_versions) <> None
  /\ version_display ascii_decimal (detect_unity_version two_versions)
     = lit "1.2.3 (Unity version too old (< 3.4))".
Proof.
  assert (H : detected_from (detect_unity_version two_versions) <> None)
    by (vm_compute; discriminate).
  split; [reflexivity|]. split; [exact H|].
  rewrite (proj2 (header_version_is_classified ascii_decimal (fun _ _ => eq_refl)
                    two_versions eq_refl H)).
  vm_compute. reflexivity.
Defined.

(** X5. The compatibility check looks at the leading major and minor only:
    whatever follows the digits of the minor (a patch, a suffix) does not
    change its answer. *)
Theorem check_ignores_what_follows
  (decimal_value : codepoint -> option N)
  (decimal_ascii : forall c, c < 128 -> decimal_value c = ascii_decimal c)
  (a b rest : str) :
  a <> [] -> b <> [] ->
  Forall (fun c => is_decimal decimal_value c = true) a ->
  Forall (fun c => is_decimal decimal_value c = true) b ->
  match rest with
  | [] => True
  | c :: _ => is_decimal decimal_value c = false
  end ->
  check_version_compatibility decimal_value (a ++ dot :: b ++ rest)
  = check_version_compatibility decimal_value (a ++ dot :: b).
Proof.
  intros Ha Hb Hda Hdb Hrest.
  pose proof (dot_not_decimal _ decimal_ascii) as Hdot.
  rewrite !(check_by_texts _ decimal_ascii).
  rewrite (leading_texts_of_shape _ a b rest Hdot Ha Hb Hda Hdb Hrest).
  pose proof (leading_texts_of_shape _ a b [] Hdot Ha Hb Hda Hdb I) as E.
  rewrite app_nil_r in E. rewrite E. reflexivity.
Qed.

(** The theorem at [2021.3] followed by [.10f1]. *)
Lemma check_ignores_what_follows_witness :
  check_version_compatibility ascii_decimal (lit "2021.3.10f1")
  = check_version_compatibility ascii_decimal (lit "2021.3").
Proof.
  apply (check_ignores_what_follows ascii_decimal (fun _ _ => eq_refl)
           (lit "2021") (lit "3") (lit ".10f1"));
    try discriminate; try (repeat constructor).
Defined.

(** ** More on file discovery *)

Lemma node_induction (P : node -> Prop) :
  (forall name, P (File name)) ->
  (forall name children, Forall P children -> P (Dir name children)) ->
  forall n, P n.
Proof.
  intros Hfile Hdir. fix IH 1. intros [name|name children].
  - apply Hfile.
  - apply Hdir. induction children as [|c children IHc]; constructor.
    + apply IH.
    + exact IHc.
Qed.

Lemma elem_of_flat_map {A B} (f : A -> list B) (l : list A) (y : B) :
  y ∈ List.flat_map f l <-> exists x, x ∈ l /\ y ∈ f x.
Proof.
  rewrite list_elem_of_In, in_flat_map. split; intros (x & Hx & Hy); exists x.
  - rewrite !list_elem_of_In. auto.
  - rewrite <- !list_elem_of_In. auto.
Qed.

(** Every entry of a walk lies below the base: its path is the base, the
    name of the node and possibly more. *)
Lemma walk_below (n : node) :
  forall base e, e ∈ walk base n ->
    exists rel, entry_path e = base ++ node_name n :: rel.
Proof.
  induction n as [name|name children IH] using node_induction; intros base e He; simpl in *.
  - apply list_elem_of_singleton in He as ->. exists []. reflexivity.
  - apply elem_of_cons in He as [->|He]; [exists []; reflexivity|].
    apply elem_of_flat_map in He as (c & Hc & He).
    rewrite Forall_forall in IH.
    destruct (IH c Hc _ _ He) as (rel & ->).
    exists (node_name c :: rel). rewrite <- app_assoc. reflexivity.
Qed.

(** Listing the entries of every directory before going down gives the
    entries of the walk, in another order. *)
Lemma listing_then_below {A B} (f : A -> B) (g h : A -> list B) (l : list A) :
  (forall x, x ∈ l -> f x :: g x ≡ₚ h x) ->
  List.map f l ++ List.flat_map g l ≡ₚ List.flat_map h l.
Proof.
  induction l as [|x l IH]; intros H; [reflexivity|].
  cbn [List.map List.flat_map app].
  rewrite <- (H x) by left. rewrite <- IH by (intros y Hy; apply H; right; exact Hy).
  cbn [app]. constructor.
  rewrite !app_assoc. apply Permutation_app_tail, Permutation_app_comm.
Qed.

Lemma below_walk (n : node) :
  forall base, node_entry base n :: below base n ≡ₚ walk base n.
Proof.
  induction n as [name|name children IH] using node_induction; intros base.
  - reflexivity.
  - cbn [node_entry below walk]. constructor.
    apply listing_then_below. intros c Hc.
    rewrite Forall_forall in IH. apply IH, Hc.
Qed.

Lemma rglob_walked (root : directory) : rglob root ≡ₚ walked root.
Proof.
  unfold rglob, walked. apply listing_then_below.
  intros c _. apply below_walk.
Qed.

(** The entries of the root are listed before what its first
    subdirectory holds. *)
Lemma rglob_lists_a_directory_first :
  List.map entry_path (rglob subdirectory_first)
  = [ [lit "root"; lit "sub2"]; [lit "root"; lit "z2.assets"];
      [lit "root"; lit "sub2"; lit "x.assets"] ]
  /\ find_input_files ascii_lower subdirectory_first None
     = [ [lit "root"; lit "z2.assets"]; [lit "root"; lit "sub2"; lit "x.assets"] ].
Proof. split; vm_compute; reflexivity. Qed.

Lemma elem_of_rglob (root : directory) (e : entry) :
  e ∈ rglob root <-> e ∈ walked root.
Proof. rewrite rglob_walked. reflexivity. Qed.

Lemma rglob_below (root : directory) (e : entry) :
  e ∈ rglob root -> exists rel, rel <> [] /\ entry_path e = dir_path root ++ rel.
Proof.
  rewrite elem_of_rglob. unfold walked.
  intros He. apply elem_of_flat_map in He as (c & _ & He).
  destruct (walk_below c _ _ He) as (rel & ->). eexists. split; [|reflexivity].
  discriminate.
Qed.

Lemma iterdir_file_in_rglob (root : directory) (e : entry) :
  e ∈ iterdir root -> entry_is_file e = true -> e ∈ rglob root.
Proof.
  unfold iterdir, rglob. intros He _. apply elem_of_app. left. exact He.
Qed.

Lemma elem_of_filter_bool {A} (f : A -> bool) (l : list A) (x : A) :
  x ∈ List.filter f l <-> x ∈ l /\ f x = true.
Proof. rewrite !list_elem_of_In. apply filter_In. Qed.

(** X6. Discovery returns nothing but files found by the walk: every path
    of the result belongs to an entry of the recursive listing that is a
    file, and lies strictly below the root. *)
Theorem find_input_files_are_files
  (lower : str -> str) (root : directory) (exts : option (list str)) :
  Forall (fun p => exists e rel,
            e ∈ rglob root /\ entry_is_file e = true /\ entry_path e = p
            /\ rel <> [] /\ p = dir_path root ++ rel)
         (find_input_files lower root exts).
Proof.
  apply Forall_forall. intros p Hp. unfold find_input_files in Hp.
  assert (He : exists e, e ∈ rglob root /\ entry_is_file e = true /\ entry_path e = p).
  { destruct (List.map entry_path (List.filter _ (rglob root))) as [|q qs] eqn:E.
    - apply list_elem_of_In, in_map_iff in Hp as (e & <- & He).
      apply list_elem_of_In, elem_of_filter_bool in He as [He Hf].
      exists e. split; [apply iterdir_file_in_rglob; assumption | auto].
    - rewrite <- E in Hp.
      apply list_elem_of_In, in_map_iff in Hp as (e & <- & He).
      apply list_elem_of_In, elem_of_filter_bool in He as [He Hf].
      apply andb_true_iff in Hf as [Hf _]. exists e. auto. }
  destruct He as (e & He & Hf & <-).
  destruct (rglob_below root e He) as (rel & Hrel & Hpath).
  exists e, rel. auto.
Qed.

Lemma filter_nil_iff {A} (f : A -> bool) (l : list A) :
  List.filter f l = [] <-> forall x, x ∈ l -> f x = false.
Proof.
  induction l as [|x l IH]; simpl.
  - split; [intros _ y Hy; inversion Hy | reflexivity].
  - destruct (f x) eqn:E.
    + split; [discriminate|]. intros H. rewrite (H x) in E by left. discriminate.
    + rewrite IH. split.
      * intros H y Hy. apply elem_of_cons in Hy as [->|Hy]; auto.
      * intros H y Hy. apply H. right. exact Hy.
Qed.

(** X7. Discovery returns the empty list exactly when no file of the tree
    is a candidate and the directory holds no file itself; a directory with
    a file directly in it never gives an empty result. *)
Theorem find_input_files_empty
  (lower : str -> str) (root : directory) (exts : option (list str)) :
  find_input_files lower root exts = []
  <-> (forall e, e ∈ rglob root -> entry_is_file e = true ->
         is_candidate lower
           (match exts with
            | None => default_exts
            | Some x => x
            end) (path_name (entry_path e)) = false)
      /\ (forall n, n ∈ dir_children root -> exists name children, n = Dir name children).
Proof.
  unfold find_input_files.
  set (xs := match exts with None => default_exts | Some e => e end).
  assert (Hfb : List.map entry_path (List.filter entry_is_file (iterdir root)) = []
                <-> forall n, n ∈ dir_children root -> exists name children, n = Dir name children).
  { split.
    - intros H n Hn. apply map_eq_nil in H.
      pose proof (proj1 (filter_nil_iff _ _) H (node_entry (dir_path root) n)) as Hf.
      destruct n as [name|name children]; [|eauto].
      assert (Hin : node_entry (dir_path root) (File name) ∈ iterdir root).
      { unfold iterdir. apply list_elem_of_In, in_map, list_elem_of_In. exact Hn. }
      specialize (Hf Hin). discriminate.
    - intros H. 
      assert (E : List.filter entry_is_file (iterdir root) = []); [|rewrite E; reflexivity].
      apply filter_nil_iff. intros e He.
      unfold iterdir in He. apply list_elem_of_In, in_map_iff in He as (n & <- & Hn).
      apply list_elem_of_In in Hn. destruct (H n Hn) as (name & children & ->).
      reflexivity. }
  destruct (List.filter _ (rglob root)) as [|q qs] eqn:E; simpl.
  - rewrite Hfb. split; [|intros [_ H]; exact H].
    intros H. split; [|exact H].
    intros e He Hf. pose proof (proj1 (filter_nil_iff _ _) E e He) as Hc.
    simpl in Hc. rewrite Hf in Hc. exact Hc.
  - split; [discriminate|]. intros [H _]. exfalso.
    assert (Hq : q ∈ List.filter
              (fun p => entry_is_file p && is_candidate lower xs (path_name (entry_path p)))
              (rglob root)) by (rewrite E; left).
    apply elem_of_filter_bool in Hq as [Hq Hc].
    apply andb_true_iff in Hc as [Hf Hc]. rewrite (H q Hq Hf) in Hc. discriminate.
Qed.

Lemma capital_never_lowered (lower : str -> str) (x e : str) :
  (forall s c, c ∈ lower s -> ~ (65 <= c /\ c <= 90)) ->
  has_capital e = true -> str_eqb (lower x) e = false.
Proof.
  intros Hno He. destruct (str_eqb (lower x) e) eqn:E; [|reflexivity].
  apply str_eqb_eq in E. subst e. exfalso.
  unfold has_capital in He. apply existsb_exists in He as (c & Hc & Hr).
  apply andb_true_iff in Hr as [H1 H2]. apply N.leb_le in H1, H2.
  apply (Hno x c); [apply list_elem_of_In; exact Hc | lia].
Qed.

Lemma in_set_without_capitals (lower : str -> str) (x : str) (exts : list str) :
  (forall s c, c ∈ lower s -> ~ (65 <= c /\ c <= 90)) ->
  in_set (lower x) exts
  = in_set (lower x) (List.filter (fun e => negb (has_capital e)) exts).
Proof.
  intros Hno. unfold in_set. induction exts as [|e exts IH]; simpl; [reflexivity|].
  destruct (has_capital e) eqn:He; simpl.
  - rewrite (capital_never_lowered lower x e Hno He). exact IH.
  - rewrite IH. reflexivity.
Qed.

(** X8. An entry of the extension set that holds a capital letter never
    matches, because the extension of a file is lower-cased before the
    test: leaving such entries out changes nothing.  In the default set
    this is the entry [.resS]. *)
Theorem capital_extensions_are_dead
  (lower : str -> str)
  (lower_no_capital : forall s c, c ∈ lower s -> ~ (65 <= c /\ c <= 90))
  (root : directory) (exts : list str) :
  find_input_files lower root (Some exts)
  = find_input_files lower root
      (Some (List.filter (fun e => negb (has_capital e)) exts))
  /\ find_input_files lower root None
     = find_input_files lower root
         (Some [ lit ".assets"; lit ".unity3d"; lit ".assetbundle"; lit ".bundle";
                 lit ".sharedassets"; lit ".resources"; lit ".resource";
                 lit ".dat"; lit ".ress" ]).
Proof.
  assert (H : forall xs, find_input_files lower root (Some xs)
              = find_input_files lower root
                  (Some (List.filter (fun e => negb (has_capital e)) xs))).
  { intros xs. unfold find_input_files.
    erewrite filter_ext_Forall; [reflexivity|].
    apply Forall_forall. intros p _. simpl. unfold is_candidate.
    rewrite (in_set_without_capitals lower _ xs lower_no_capital). reflexivity. }
  split; [apply H|].
  change (find_input_files lower root None)
    with (find_input_files lower root (Some default_exts)).
  rewrite (H default_exts). reflexivity.
Qed.

(** The theorem at the ASCII lower-casing and the directory of three files. *)
Lemma capital_extensions_are_dead_witness :
  (forall s c, c ∈ ascii_lower s -> ~ (65 <= c /\ c <= 90))
  /\ find_input_files ascii_lower three_files (Some [lit ".ASSETS"; lit ".txt"])
     = find_input_files ascii_lower three_files (Some [lit ".txt"]).
Proof.
  assert (H : forall s c, c ∈ ascii_lower s -> ~ (65 <= c /\ c <= 90)).
  { intros s c Hc. unfold ascii_lower in Hc.
    apply list_elem_of_In, in_map_iff in Hc as (x & <- & _).
    unfold ascii_lower_char.
    destruct (N.leb_spec 65 x), (N.leb_spec x 90); simpl; lia. }
  split; [exact H|].
  exact (proj1 (capital_extensions_are_dead ascii_lower H three_files
                  [lit ".ASSETS"; lit ".txt"])).
Defined.

Lemma well_named_children (name : str) (children : list node) :
  well_named (Dir name children) ->
  NoDup (List.map node_name children) /\ Forall well_named children.
Proof.
  simpl. intros [Hn Hall]. split; [exact Hn|]. clear Hn.
  induction children as [|c children IH]; constructor.
  - apply Hall.
  - apply IH, Hall.
Qed.

Lemma nodup_map_filter {A B} (g : A -> B) (f : A -> bool) (l : list A) :
  NoDup (List.map g l) -> NoDup (List.map g (List.filter f l)).
Proof.
  induction l as [|x l IH]; simpl; intros H; [constructor|].
  apply NoDup_cons in H as [Hx Hl]. destruct (f x); simpl; [|auto].
  apply NoDup_cons. split; [|auto].
  intros Hin. apply Hx.
  apply list_elem_of_In, in_map_iff in Hin as (y & <- & Hy).
  apply filter_In in Hy as [Hy _].
  apply list_elem_of_In, in_map. exact Hy.
Qed.

(** The walks of children with different names have no path in common. *)
Lemma children_walk_nodup (base : path) (children : list node) :
  NoDup (List.map node_name children) ->
  (forall c, c ∈ children -> NoDup (List.map entry_path (walk base c))) ->
  NoDup (List.map entry_path (List.flat_map (walk base) children)).
Proof.
  induction children as [|c children IH]; simpl; intros Hn Hw; [constructor|].
  apply NoDup_cons in Hn as [Hc Hn].
  rewrite map_app. apply NoDup_app. split; [apply Hw; left|]. split.
  - intros p Hp Hq.
    apply list_elem_of_In, in_map_iff in Hp as (e & <- & He).
    apply list_elem_of_In, in_map_iff in Hq as (e' & Heq & He').
    apply list_elem_of_In in He, He'.
    destruct (walk_below c _ _ He) as (rel & Hrel).
    apply elem_of_flat_map in He' as (c' & Hc' & He').
    destruct (walk_below c' _ _ He') as (rel' & Hrel').
    rewrite Hrel, Hrel' in Heq. apply app_inv_head in Heq.
    injection Heq as Hname _. apply Hc. rewrite <- Hname.
    apply list_elem_of_In, in_map, list_elem_of_In. exact Hc'.
  - apply IH; [exact Hn|]. intros c' Hc'. apply Hw. right. exact Hc'.
Qed.

Lemma walk_nodup (n : node) :
  well_named n -> forall base, NoDup (List.map entry_path (walk base n)).
Proof.
  induction n as [name|name children IH] using node_induction; intros Hw base.
  - simpl. apply NoDup_singleton.
  - apply well_named_children in Hw as [Hn Hall].
    cbn [walk List.map entry_path]. apply NoDup_cons. split.
    + intros Hin. apply list_elem_of_In, in_map_iff in Hin as (e & Heq & He).
      apply list_elem_of_In, elem_of_flat_map in He as (c & _ & He).
      destruct (walk_below c _ _ He) as (rel & Hrel).
      rewrite Hrel in Heq. apply (f_equal length) in Heq.
      rewrite !length_app in Heq. simpl in Heq. lia.
    + apply children_walk_nodup; [exact Hn|].
      intros c Hc. rewrite Forall_forall in IH, Hall. apply IH; auto.
Qed.

Lemma rglob_nodup (root : directory) :
  well_named_dir root -> NoDup (List.map entry_path (rglob root)).
Proof.
  intros Hw. apply (well_named_children [] (dir_children root)) in Hw as [Hn Hall].
  rewrite (Permutation_map entry_path (rglob_walked root)).
  unfold walked. apply children_walk_nodup; [exact Hn|].
  intros c Hc. rewrite Forall_forall in Hall. apply walk_nodup. apply Hall, Hc.
Qed.

Lemma iterdir_nodup (root : directory) :
  well_named_dir root -> NoDup (List.map entry_path (iterdir root)).
Proof.
  intros Hw. apply (well_named_children [] (dir_children root)) in Hw as [Hn _].
  unfold iterdir. rewrite map_map.
  induction (dir_children root) as [|c cs IH]; simpl in *; [constructor|].
  apply NoDup_cons in Hn as [Hc Hn]. apply NoDup_cons. split; [|auto].
  intros Hin. apply Hc.
  apply list_elem_of_In, in_map_iff in Hin as (c' & Heq & Hc').
  assert (node_name c' = node_name c).
  { destruct c, c'; simpl in Heq; apply app_inv_head in Heq;
      injection Heq as Heq; exact Heq. }
  rewrite <- H. apply list_elem_of_In, in_map. exact Hc'.
Qed.

(** X9. When the names inside every directory are pairwise different,
    discovery returns no path twice, so that no file is processed twice. *)
Theorem find_input_files_no_duplicates
  (lower : str -> str) (root : directory) (exts : option (list str)) :
  well_named_dir root -> NoDup (find_input_files lower root exts).
Proof.
  intros Hw. unfold find_input_files.
  pose proof (nodup_map_filter entry_path
                (fun p => entry_is_file p
                          && is_candidate lower
                               (match exts with None => default_exts | Some e => e end)
                               (path_name (entry_path p)))
                (rglob root) (rglob_nodup root Hw)) as H.
  destruct (List.map entry_path (List.filter _ (rglob root))) as [|q qs].
  - apply nodup_map_filter, iterdir_nodup, Hw.
  - exact H.
Qed.

(** The theorem at the directory with nested candidates. *)
Lemma find_input_files_no_duplicates_witness :
  well_named_dir nested_files
  /\ NoDup (find_input_files ascii_lower nested_files None).
Proof.
  assert (H : well_named_dir nested_files).
  { unfold well_named_dir, nested_files. simpl.
    repeat split; repeat constructor; set_solver. }
  split; [exact H | exact (find_input_files_no_duplicates ascii_lower nested_files None H)].
Defined.

(** ** Where a pass writes *)

Lemma well_placed_weaken (evs : list event) :
  forall D D', (forall d, d ∈ D -> d ∈ D') -> well_placed D evs -> well_placed D' evs.
Proof.
  induction evs as [|ev evs IH]; intros D D' Hsub H; simpl in *; [exact I|].
  destruct ev as [p|p c| |].
  - eapply IH; [|exact H]. intros d Hd.
    apply elem_of_cons in Hd as [->|Hd]; [left | right; auto].
  - destruct H as [(d & fname & -> & Hd & Hk) H]. split; [|eapply IH; eauto].
    exists d, fname. auto.
  - eapply IH; eauto.
  - eapply IH; eauto.
Qed.

Lemma well_placed_app (e1 : list event) :
  forall D e2, well_placed D e1 -> well_placed D e2 -> well_placed D (e1 ++ e2).
Proof.
  induction e1 as [|ev e1 IH]; intros D e2 H1 H2; simpl in *; [exact H2|].
  destruct ev as [p|p c| |].
  - apply IH; [exact H1|]. eapply well_placed_weaken; [|exact H2].
    intros d Hd. right. exact Hd.
  - destruct H1 as [Hw H1]. split; [exact Hw | apply IH; assumption].
  - apply IH; assumption.
  - apply IH; assumption.
Qed.

Lemma placed_nothing {A} (D : list path) (m : M A) :
  (forall s, trace (m s).1 = trace s) -> placed D m.
Proof.
  intros H s. exists []. rewrite app_nil_r. split; [apply H | exact I].
Qed.

Lemma placed_ret {A} (D : list path) (a : A) : placed D (mret a).
Proof. apply placed_nothing. reflexivity. Qed.

Lemma placed_raise {A} (D : list path) (e : exn) : placed D (@raise A e).
Proof. apply placed_nothing. reflexivity. Qed.

Lemma placed_call {A} (D : list path) (r : result A) : placed D (call r).
Proof. apply placed_nothing. reflexivity. Qed.

Lemma placed_count (D : list path) (k : kind) : placed D (count k).
Proof. apply placed_nothing. reflexivity. Qed.

Lemma placed_emit (D : list path) (ev : event) :
  well_placed D [ev] -> placed D (emit ev).
Proof. intros H s. exists [ev]. split; [reflexivity | exact H]. Qed.

Lemma placed_bind {A B} (D : list path) (m : M A) (f : A -> M B) :
  placed D m -> (forall a, placed D (f a)) -> placed D (m ≫= f).
Proof.
  intros Hm Hf s. unfold mbind, M_bind.
  destruct (Hm s) as (e1 & Ht1 & Hw1).
  destruct (m s) as [s1 [a|e]]; simpl in *.
  - destruct (Hf a s1) as (e2 & Ht2 & Hw2).
    exists (e1 ++ e2). rewrite Ht2, Ht1, app_assoc.
    split; [reflexivity | apply well_placed_app; assumption].
  - exists e1. auto.
Qed.

Lemma placed_call_bind {A B} (D : list path) (r : result A) (f : A -> M B) :
  (forall a, r = Ok a -> placed D (f a)) -> placed D (call r ≫= f).
Proof.
  intros Hf s. unfold mbind, M_bind, call. destruct r as [a|e].
  - apply Hf. reflexivity.
  - exists []. simpl. rewrite app_nil_r. auto.
Qed.

(** After [ensure_dir p] the rest may write into [p]. *)
Lemma placed_ensure_dir_bind {B} (D : list path) (p : path) (f : path -> M B) :
  placed (p :: D) (f p) -> placed D (ensure_dir p ≫= f).
Proof.
  intros Hf s. rewrite run_ensure_dir_bind.
  destruct (Hf {| counts := counts s; trace := trace s ++ [Mkdir p] |})
    as (evs & Ht & Hw).
  exists (Mkdir p :: evs). simpl in *. rewrite Ht, <- app_assoc. auto.
Qed.

Lemma placed_try {A} (D : list path) (m : M A) (h : exn -> M A) :
  placed D m -> (forall e, placed D (h e)) -> placed D (try_except m h).
Proof.
  intros Hm Hh s. unfold try_except.
  destruct (Hm s) as (e1 & Ht1 & Hw1).
  destruct (m s) as [s1 [a|e]]; simpl in *.
  - exists e1. auto.
  - destruct (Hh e s1) as (e2 & Ht2 & Hw2).
    exists (e1 ++ e2). rewrite Ht2, Ht1, app_assoc.
    split; [reflexivity | apply well_placed_app; assumption].
Qed.

Lemma placed_for_each {A} (D : list path) (l : list A) (body : A -> M unit) :
  (forall x, x ∈ l -> placed D (body x)) -> placed D (for_each l body).
Proof.
  induction l as [|x l IH]; intros H; simpl.
  - apply placed_ret.
  - apply placed_bind.
    + apply H. left.
    + intros _. apply IH. intros y Hy. apply H. right. exact Hy.
Qed.

Lemma placed_with_new_stats (D : list path) (m : M unit) :
  placed D m -> placed D (with_new_stats m).
Proof.
  intros Hm s. unfold with_new_stats.
  destruct (Hm {| counts := zero_stats; trace := trace s |}) as (evs & Ht & Hw).
  exists evs. destruct (m _) as [s' [a|e]]; simpl in *; auto.
Qed.

Lemma sanitize_value_kept (v : pyval) (n : str) :
  sanitize_value v = Ok n -> Forall (fun c => char_in c keep = true) n.
Proof.
  unfold sanitize_value. destruct (truthy v).
  - destruct v; try discriminate. intros [= <-]. apply sanitize_name_kept.
  - intros [= <-]. apply sanitize_name_kept.
Qed.

Lemma uint_kept (d : Decimal.uint) :
  Forall (fun c => char_in c keep = true) (lit (NilEmpty.string_of_uint d)).
Proof.
  induction d; simpl; try (constructor; [reflexivity | exact IHd]). constructor.
Qed.

(** The decimal text of an integer is made of digits and a minus sign. *)
Lemma str_int_kept (z : Z) : Forall (fun c => char_in c keep = true) (str_int z).
Proof.
  unfold str_int. destruct (Z.to_int z) as [d|d]; simpl.
  - destruct d; try apply (uint_kept (_ d)); repeat constructor.
  - constructor; [reflexivity|].
    destruct d; try apply (uint_kept (_ d)); repeat constructor.
Qed.

(** A file name built from sanitized names, ids and literal endings. *)
Ltac kept_name :=
  repeat match goal with
  | |- context [if ?b then _ else _] => destruct b
  | |- context [match ?v with PNone => _ | _ => _ end] => destruct v
  end;
  repeat (apply Forall_app; split);
  first [ eapply sanitize_value_kept; eassumption
        | apply sanitize_name_kept
        | apply str_int_kept
        | repeat constructor ].

Ltac placed_side :=
  cbn [well_placed];
  lazymatch goal with
  | |- _ /\ True =>
      split; [eexists _, _; split; [reflexivity|]; split; [left | kept_name] | exact I]
  | |- True => exact I
  end.

Ltac placed_step :=
  lazymatch goal with
  | |- placed _ (ensure_dir _ ≫= _) => apply placed_ensure_dir_bind
  | |- placed _ (call _ ≫= _) => apply placed_call_bind; intros ? ?
  | |- placed _ (_ ≫= _) => apply placed_bind; [|intros ?]
  | |- placed _ (try_except _ _) => apply placed_try; [|intros ?]
  | |- placed _ (mret _) => apply placed_ret
  | |- placed _ (raise _) => apply placed_raise
  | |- placed _ (call _) => apply placed_call
  | |- placed _ (count _) => apply placed_count
  | |- placed _ (emit _) => apply placed_emit; placed_side
  | |- placed _ (for_each _ _) => apply placed_for_each; intros ? ?
  | |- placed _ (match ?x with _ => _ end) => destruct x eqn:?
  | |- placed _ (let '(_, _) := ?x in _) => destruct x eqn:?
  end.

Ltac placed_auto :=
  unfold save_image, write_binary, write_text, write_json, logging; repeat placed_step.

Section ObjectPlaces.
Variables (out_root : path) (obj : object).

Lemma extract_texture_placed : placed [] (extract_texture out_root obj).
Proof. unfold extract_texture. placed_auto. Qed.

Lemma extract_sprite_placed (dir : path) (id : Z) :
  placed [dir] (extract_sprite obj dir id).
Proof. unfold extract_sprite. placed_auto. Qed.

Lemma extract_mono_script_placed (dir : path) (id : Z) :
  placed [dir] (extract_mono_script obj dir id).
Proof. unfold extract_mono_script. placed_auto. Qed.

Lemma extract_sprites_placed : placed [] (extract_sprites out_root obj).
Proof. unfold extract_sprites. placed_auto. apply extract_sprite_placed. Qed.

Lemma extract_audio_placed : placed [] (extract_audio out_root obj).
Proof. unfold extract_audio. placed_auto. Qed.

Lemma extract_mesh_placed : placed [] (extract_mesh out_root obj).
Proof. unfold extract_mesh. placed_auto. Qed.

Lemma extract_text_placed : placed [] (extract_text out_root obj).
Proof. unfold extract_text. placed_auto. Qed.

Lemma extract_font_placed : placed [] (extract_font out_root obj).
Proof. unfold extract_font. placed_auto. Qed.

Lemma extract_scripts_placed : placed [] (extract_scripts out_root obj).
Proof. unfold extract_scripts. placed_auto. apply extract_mono_script_placed. Qed.

Lemma extract_material_placed : placed [] (extract_material out_root obj).
Proof. unfold extract_material. placed_auto. Qed.
End ObjectPlaces.

(** The chain of tests of [handle_object] selects the extractor of the
    kind the object is handled as. *)
Lemma handle_object_dispatch (out_root : path) (opts : options) (obj : object) :
  handle_object out_root opts obj
  = match dispatched opts obj with
    | textures => extract_texture out_root obj
    | sprites => extract_sprites out_root obj
    | audio => extract_audio out_root obj
    | meshes => extract_mesh out_root obj
    | texts => extract_text out_root obj
    | fonts => extract_font out_root obj
    | scripts => extract_scripts out_root obj
    | materials => extract_material out_root obj
    | other => count other
    end.
Proof.
  unfold handle_object, dispatched, kind_of_type.
  repeat match goal with
  | |- context [str_eqb (type_name obj) ?l] =>
      let E := fresh "E" in
      destruct (str_eqb (type_name obj) l) eqn:E;
      [ apply str_eqb_eq in E; rewrite E; compare_literals; cbn [andb];
        match goal with |- context [opts ?k] => destruct (opts k) end;
        reflexivity
      | cbn [andb] ]
  | |- context [in_set (type_name obj) ?l] =>
      let E := fresh "E" in
      destruct (in_set (type_name obj) l) eqn:E;
      [ cbn [andb];
        match goal with |- context [opts scripts] => destruct (opts scripts) eqn:? end;
        try reflexivity
      | cbn [andb] ]
  end.
  destruct (opts other); reflexivity.
Qed.

Lemma handle_object_placed (out_root : path) (opts : options) (obj : object) :
  placed [] (handle_object out_root opts obj).
Proof.
  rewrite handle_object_dispatch. destruct (dispatched opts obj).
  - apply extract_texture_placed.
  - apply extract_sprites_placed.
  - apply extract_audio_placed.
  - apply extract_mesh_placed.
  - apply extract_text_placed.
  - apply extract_font_placed.
  - apply extract_scripts_placed.
  - apply extract_material_placed.
  - apply placed_count.
Qed.

Lemma extract_from_file_placed (src : source) (out_root : path) (opts : option options) :
  placed [] (extract_from_file src out_root opts).
Proof.
  unfold extract_from_file, logging.
  apply placed_bind; [apply placed_emit; exact I|]. intros _.
  destruct (src_load src) as [objs|e].
  - apply placed_bind.
    + apply placed_with_new_stats, placed_for_each. intros obj _.
      unfold guarded_object. apply placed_try; [apply handle_object_placed|].
      intros e. apply placed_emit. exact I.
    + intros st. apply placed_bind; [apply placed_emit; exact I|].
      intros _. apply placed_ret.
  - apply placed_bind; [apply placed_emit; exact I|]. intros _. apply placed_ret.
Qed.

(** A file of a well-placed list of events is written into a directory of
    [D] or into one created earlier in the list. *)
Lemma well_placed_lookup (evs : list event) :
  forall D i p c,
    well_placed D evs -> evs !! i = Some (Write p c) ->
    exists d fname,
      p = child d fname /\ Forall (fun x => char_in x keep = true) fname
      /\ (d ∈ D \/ exists j, (j < i)%nat /\ evs !! j = Some (Mkdir d)).
Proof.
  induction evs as [|ev evs IH]; intros D i p c Hw Hi; [destruct i; discriminate|].
  destruct i as [|i]; simpl in Hi.
  - inversion Hi; subst ev. simpl in Hw.
    destruct Hw as [(d & fname & -> & Hd & Hk) _]. exists d, fname. auto.
  - assert (Hrest : exists D', well_placed D' evs
                      /\ forall d, d ∈ D' -> d ∈ D \/ ev = Mkdir d).
    { destruct ev as [q|q c0| |]; simpl in Hw.
      - exists (q :: D). split; [exact Hw|]. intros d Hd.
        apply elem_of_cons in Hd as [->|Hd]; auto.
      - exists D. split; [apply Hw | auto].
      - exists D. auto.
      - exists D. auto. }
    destruct Hrest as (D' & Hw' & HD').
    destruct (IH D' i p c Hw' Hi) as (d & fname & -> & Hk & [Hd|(j & Hj & Hl)]).
    + exists d, fname. split; [reflexivity|]. split; [exact Hk|].
      destruct (HD' d Hd) as [Hd'| ->]; [left; exact Hd'|].
      right. exists O. split; [lia | reflexivity].
    + exists d, fname. split; [reflexivity|]. split; [exact Hk|].
      right. exists (S j). split; [lia | exact Hl].
Qed.

Lemma pass_writes (src : source) (out_root : path) (opts : options) (s : state) :
  exists evs,
    trace (extract_from_file src out_root (Some opts) s).1 = trace s ++ evs
    /\ forall i p c, evs !! i = Some (Write p c) ->
         exists k fname j,
           (j < i)%nat /\ evs !! j = Some (Mkdir (kind_dir out_root k))
           /\ k <> other /\ opts k = true
           /\ p = child (kind_dir out_root k) fname
           /\ Forall (fun x => char_in x keep = true) fname.
Proof.
  destruct (extract_from_file_placed src out_root (Some opts) s) as (evs & Ht & Hw).
  destruct (emits_run _ _ s (extract_from_file_events src out_root opts))
    as (evs' & Ht' & Hev & _).
  assert (evs' = evs) by (rewrite Ht in Ht'; apply app_inv_head in Ht'; auto).
  subst evs'. exists evs. split; [exact Ht|].
  intros i p c Hi.
  destruct (well_placed_lookup evs [] i p c Hw Hi)
    as (d & fname & -> & Hk & [Hd|(j & Hj & Hl)]); [inversion Hd|].
  rewrite Forall_forall in Hev.
  assert (Hin : Mkdir d ∈ evs) by (eapply list_elem_of_lookup_2; exact Hl).
  destruct (Hev _ Hin) as [(objs & obj & _ & _ & Hobj)|[(m & Hm & _)|(e & He)]];
    [|discriminate|discriminate].
  inversion Hobj as [k Hk' Hd Hr Heq| | | |]. subst d.
  destruct (dispatched_kind opts obj k Hk' Hd) as [_ Hopt].
  exists k, fname, j. auto 10.
Qed.

(** X10. A pass writes every file directly into the directory of an
    enabled kind under the output root, after it has created that
    directory, and under a name made of allow-listed characters only (so a
    name cannot reach outside the directory). *)
Theorem writes_follow_directories
  (src : source) (out_root : path) (opts : options) (s : state) :
  exists evs,
    trace (extract_from_file src out_root (Some opts) s).1 = trace s ++ evs
    /\ forall i p c, evs !! i = Some (Write p c) ->
         exists k fname j,
           (j < i)%nat /\ evs !! j = Some (Mkdir (kind_dir out_root k))
           /\ k <> other /\ opts k = true
           /\ p = child (kind_dir out_root k) fname
           /\ Forall (fun x => char_in x keep = true) fname.
Proof. exact (pass_writes src out_root opts s). Qed.

(** ** What the counts count *)

(** Symbolic execution of a computation without loops: unfold the
    operations, split on everything the outcome depends on. *)
Ltac run_monad :=
  unfold ensure_dir, save_image, write_binary, write_text, write_json, logging;
  unfold mbind, M_bind, mret, M_ret, call, raise, try_except, emit, count.

Ltac case_innermost x :=
  lazymatch x with
  | context [match ?y with _ => _ end] => case_innermost y
  | _ => destruct x
  end.

Ltac split_cases :=
  cbv beta iota zeta;
  repeat (match goal with
          | |- context [match ?x with _ => _ end] => case_innermost x
          end; cbv beta iota zeta).

Ltac finish_step :=
  cbn [fst snd trace counts];
  eexists; split;
  [rewrite <- ?app_assoc; first [reflexivity | symmetry; apply app_nil_r]|];
  split; [simpl; lia|];
  split;
  [intros k Hk; unfold add_to; try rewrite bool_decide_eq_false_2 by exact Hk;
   reflexivity|];
  unfold add_to; try rewrite bool_decide_eq_true_2 by reflexivity; lia.

Section ObjectCounts.
Variables (out_root : path) (obj : object).

Lemma extract_texture_step : one_step textures 1 (extract_texture out_root obj).
Proof. intros s. unfold extract_texture. run_monad. split_cases; finish_step. Qed.

Lemma extract_sprites_step : one_step sprites 1 (extract_sprites out_root obj).
Proof.
  intros s. unfold extract_sprites, extract_sprite. run_monad.
  split_cases; finish_step.
Qed.

Lemma extract_mesh_step : one_step meshes 1 (extract_mesh out_root obj).
Proof. intros s. unfold extract_mesh. run_monad. split_cases; finish_step. Qed.

Lemma extract_text_step : one_step texts 1 (extract_text out_root obj).
Proof. intros s. unfold extract_text. run_monad. split_cases; finish_step. Qed.

Lemma extract_font_step : one_step fonts 1 (extract_font out_root obj).
Proof. intros s. unfold extract_font. run_monad. split_cases; finish_step. Qed.

Lemma extract_scripts_step : one_step scripts 1 (extract_scripts out_root obj).
Proof.
  intros s. unfold extract_scripts, extract_mono_script. run_monad.
  split_cases; finish_step.
Qed.

Lemma extract_material_step : one_step materials 1 (extract_material out_root obj).
Proof. intros s. unfold extract_material. run_monad. split_cases; finish_step. Qed.
End ObjectCounts.

Lemma run_call_bind {A B} (r : result A) (f : A -> M B) (s : state) :
  (call r ≫= f) s
  = match r with
    | Ok a => f a s
    | Raise e => (s, Raise e)
    end.
Proof. destruct r; reflexivity. Qed.

Lemma write_sample_run (dir : path) (id : Z) (x : list N * list N) (s : state) :
  exists s1 evs1,
    write_sample dir id x s = (s1, Ok tt)
    /\ trace s1 = trace s ++ evs1
    /\ length (written evs1) = 1%nat
    /\ counts s1 = add_to audio 1 (counts s).
Proof.
  destruct x as [name b]. eexists. eexists. split; [reflexivity|].
  cbn [trace counts]. split; [rewrite <- app_assoc; reflexivity|].
  split; reflexivity.
Qed.

(** The loop over the samples writes one file and counts one item for
    every entry, and never raises. *)
Lemma write_sample_loop (dir : path) (id : Z) (d : list (list N * list N)) :
  forall s,
    (for_each d (write_sample dir id) s).2 = Ok tt
    /\ exists evs,
         trace (for_each d (write_sample dir id) s).1 = trace s ++ evs
         /\ length (written evs) = length d
         /\ (forall k, k <> audio ->
               counts (for_each d (write_sample dir id) s).1 k = counts s k)
         /\ counts (for_each d (write_sample dir id) s).1 audio
            = (counts s audio + length d)%nat.
Proof.
  induction d as [|x d IH]; intros s.
  - simpl. split; [reflexivity|]. exists []. rewrite app_nil_r. auto.
  - cbn [for_each]. rewrite run_bind.
    destruct (write_sample_run dir id x s) as (s1 & evs1 & -> & Ht1 & Hw1 & Hc1).
    cbv beta iota.
    destruct (IH s1) as (Hr & evs & Ht & Hw & Hf & Hc).
    split; [exact Hr|].
    exists (evs1 ++ evs). split; [rewrite Ht, Ht1, <- app_assoc; reflexivity|].
    split; [rewrite written_app, length_app, Hw, Hw1; reflexivity|].
    split.
    + intros k Hk. rewrite (Hf k Hk), Hc1. unfold add_to.
      rewrite bool_decide_eq_false_2 by exact Hk. reflexivity.
    + rewrite Hc, Hc1. cbn [length]. unfold add_to.
      rewrite bool_decide_eq_true_2 by reflexivity. lia.
Qed.

(** An audio clip adds as many files and as many counted items as it has
    samples. *)
Lemma extract_audio_step (out_root : path) (obj : object) (s : state) :
  exists evs,
    trace (extract_audio out_root obj s).1 = trace s ++ evs
    /\ length (written evs) = sample_count obj
    /\ (forall k, k <> audio -> counts (extract_audio out_root obj s).1 k = counts s k)
    /\ counts (extract_audio out_root obj s).1 audio
       = (counts s audio + sample_count obj)%nat.
Proof.
  unfold extract_audio, sample_count. rewrite run_call_bind.
  destruct (read obj) as [clip|e].
  2:{ exists []. rewrite app_nil_r. simpl. auto. }
  rewrite run_call_bind.
  destruct (samples clip) as [smp|e].
  2:{ exists []. rewrite app_nil_r. simpl. auto. }
  rewrite run_ensure_dir_bind.
  destruct smp as [[|x d]|].
  - eexists. split; [reflexivity|]. simpl. auto.
  - match goal with
    | |- context [for_each (x :: d) ?body ?st] =>
        change (for_each (x :: d) body st)
          with (for_each (x :: d)
                  (write_sample (child out_root (lit "audio")) (path_id obj)) st);
        destruct (write_sample_loop (child out_root (lit "audio")) (path_id obj)
                    (x :: d) st) as (_ & evs & Ht & Hw & Hf & Hc)
    end.
    eexists. split; [rewrite Ht; cbn [trace]; rewrite <- app_assoc; reflexivity|].
    split; [rewrite written_app, length_app, Hw; reflexivity|].
    split; [intros k Hk; rewrite (Hf k Hk); reflexivity | rewrite Hc; reflexivity].
  - eexists. split; [reflexivity|]. simpl. auto.
Qed.

Lemma one_step_guard (k0 : kind) (cap : nat) (m : M unit) (msg : exn -> message) :
  one_step k0 cap m ->
  one_step k0 cap (try_except m (fun e => logging error (msg e))).
Proof.
  intros Hm s. destruct (Hm s) as (evs & Ht & Hw & Hf & Hc).
  unfold try_except. destruct (m s) as [s' [a|e]]; cbn [fst] in *.
  - exists evs. auto.
  - exists (evs ++ [Log error (msg e)]). cbn [logging emit fst counts trace].
    unfold logging, emit. cbn [fst counts trace].
    rewrite Ht, <- app_assoc, written_app. simpl. rewrite app_nil_r. auto.
Qed.

Lemma weight_other_kind (opts : options) (k : kind) (obj : object) :
  dispatched opts obj <> k -> weight opts k obj = O.
Proof. intros H. unfold weight. rewrite bool_decide_eq_false_2 by exact H. reflexivity. Qed.

Lemma weight_own_kind (opts : options) (k : kind) (obj : object) :
  dispatched opts obj = k ->
  weight opts k obj
  = match k with
    | audio => sample_count obj
    | _ => 1%nat
    end.
Proof. intros H. unfold weight. rewrite bool_decide_eq_true_2 by exact H. reflexivity. Qed.

(** One turn of the loop over the objects: what it can add to each count
    and how many files it can write. *)
Lemma guarded_object_counts (out_root : path) (opts : options) (obj : object) (s : state) :
  exists evs,
    trace (guarded_object out_root opts obj s).1 = trace s ++ evs
    /\ (length (written evs) <= max_files opts obj)%nat
    /\ forall k,
         (counts s k <= counts (guarded_object out_root opts obj s).1 k
          <= counts s k + weight opts k obj)%nat
         /\ (k = other \/ k = audio ->
             counts (guarded_object out_root opts obj s).1 k
             = (counts s k + weight opts k obj)%nat).
Proof.
  assert (Hone : forall k0 (m : M unit), k0 <> audio -> k0 <> other ->
            dispatched opts obj = k0 -> handle_object out_root opts obj = m ->
            one_step k0 1 m ->
            exists evs,
              trace (guarded_object out_root opts obj s).1 = trace s ++ evs
              /\ (length (written evs) <= max_files opts obj)%nat
              /\ forall k,
                   (counts s k <= counts (guarded_object out_root opts obj s).1 k
                    <= counts s k + weight opts k obj)%nat
                   /\ (k = other \/ k = audio ->
                       counts (guarded_object out_root opts obj s).1 k
                       = (counts s k + weight opts k obj)%nat)).
  { intros k0 m Ha Ho Hd Hm Hstep. unfold guarded_object. rewrite Hm.
    destruct (one_step_guard k0 1 m ObjectError Hstep s) as (evs & Ht & Hw & Hf & Hc).
    exists evs. split; [exact Ht|]. split.
    - unfold max_files. rewrite Hd. destruct k0; try congruence; exact Hw.
    - intros k. destruct (decide (k = k0)) as [->|Hk].
      + rewrite (weight_own_kind opts k0 obj Hd).
        split; [destruct k0; try congruence; exact Hc|].
        intros [->| ->]; congruence.
      + rewrite (Hf k Hk), weight_other_kind by congruence.
        split; [lia | intros _; lia]. }
  pose proof (handle_object_dispatch out_root opts obj) as Hh.
  destruct (dispatched opts obj) eqn:Hd.
  - eapply Hone; eauto using extract_texture_step; discriminate.
  - eapply Hone; eauto using extract_sprites_step; discriminate.
  - unfold guarded_object, try_except. rewrite Hh.
    destruct (extract_audio_step out_root obj s) as (evs & Ht & Hw & Hf & Hc).
    assert (Hex : exists s' r, extract_audio out_root obj s = (s', r)
                              /\ trace s' = trace s ++ evs
                              /\ (forall k, k <> audio -> counts s' k = counts s k)
                              /\ counts s' audio = (counts s audio + sample_count obj)%nat).
    { destruct (extract_audio out_root obj s) as [s' r]. exists s', r. auto. }
    destruct Hex as (s' & r & -> & Ht' & Hf' & Hc').
    assert (Hfin : forall k,
              (counts s k <= counts s' k <= counts s k + weight opts k obj)%nat
              /\ (k = other \/ k = audio ->
                  counts s' k = (counts s k + weight opts k obj)%nat)).
    { intros k. destruct (decide (k = audio)) as [->|Hk].
      - rewrite (weight_own_kind opts audio obj Hd), Hc'. split; [lia | auto].
      - rewrite (Hf' k Hk), weight_other_kind by congruence.
        split; [lia | intros _; lia]. }
    destruct r as [[]|e]; cbn [fst logging emit counts trace].
    + exists evs. split; [exact Ht'|]. split; [|exact Hfin].
      unfold max_files. rewrite Hd, Hw. lia.
    + exists (evs ++ [Log error (ObjectError e)]). unfold logging, emit.
      cbn [fst counts trace]. rewrite Ht', <- app_assoc.
      split; [reflexivity|]. split; [|exact Hfin].
      rewrite written_app. simpl. rewrite app_nil_r.
      unfold max_files. rewrite Hd, Hw. lia.
  - eapply Hone; eauto using extract_mesh_step; discriminate.
  - eapply Hone; eauto using extract_text_step; discriminate.
  - eapply Hone; eauto using extract_font_step; discriminate.
  - eapply Hone; eauto using extract_scripts_step; discriminate.
  - eapply Hone; eauto using extract_material_step; discriminate.
  - unfold guarded_object, try_except. rewrite Hh. unfold count.
    cbn [fst counts trace]. exists []. rewrite app_nil_r.
    split; [reflexivity|]. split; [simpl; lia|].
    intros k. unfold add_to. destruct (decide (k = other)) as [->|Hk].
    + rewrite bool_decide_eq_true_2 by reflexivity.
      rewrite (weight_own_kind opts other obj Hd). split; [lia | auto].
    + rewrite bool_decide_eq_false_2 by exact Hk.
      rewrite weight_other_kind by congruence. split; [lia | intros _; lia].
Qed.

Lemma list_sum_map_cons {A} (f : A -> nat) (x : A) (l : list A) :
  list_sum (List.map f (x :: l)) = (f x + list_sum (List.map f l))%nat.
Proof. reflexivity. Qed.

(** The loop over the objects of a container, started in any state. *)
Lemma loop_weights (out_root : path) (opts : options) (objs : list object) :
  forall s,
    exists evs,
      trace (for_each objs (guarded_object out_root opts) s).1 = trace s ++ evs
      /\ (length (written evs) <= list_sum (List.map (max_files opts) objs))%nat
      /\ forall k,
           (counts s k <= counts (for_each objs (guarded_object out_root opts) s).1 k
            <= counts s k + list_sum (List.map (weight opts k) objs))%nat
           /\ (k = other \/ k = audio ->
               counts (for_each objs (guarded_object out_root opts) s).1 k
               = (counts s k + list_sum (List.map (weight opts k) objs))%nat).
Proof.
  induction objs as [|obj objs IH]; intros s.
  - exists []. simpl. rewrite app_nil_r. split; [reflexivity|].
    split; [lia|]. intros k. split; [lia | intros _; lia].
  - cbn [for_each]. rewrite run_bind.
    destruct (guarded_object_counts out_root opts obj s) as (evs1 & Ht1 & Hw1 & Hk1).
    pose proof (guarded_object_returns out_root opts obj s) as Hr.
    destruct (guarded_object out_root opts obj s) as [s1 r1].
    cbn [fst snd] in *. subst r1. cbv beta iota.
    destruct (IH s1) as (evs & Ht & Hw & Hk).
    exists (evs1 ++ evs). split; [rewrite Ht, Ht1, <- app_assoc; reflexivity|].
    split; [rewrite written_app, length_app, list_sum_map_cons; lia|].
    intros k. destruct (Hk1 k) as [Hb1 He1]. destruct (Hk k) as [Hb He].
    rewrite list_sum_map_cons. split; [lia|].
    intros Hka. rewrite (He Hka), (He1 Hka). lia.
Qed.

Lemma weight_sum_handled (opts : options) (k : kind) (objs : list object) :
  k <> audio ->
  list_sum (List.map (weight opts k) objs) = length (handled_as opts k objs).
Proof.
  intros Hk. unfold handled_as.
  induction objs as [|obj objs IH]; [reflexivity|].
  rewrite list_sum_map_cons. cbn [List.filter]. unfold weight at 1.
  destruct (bool_decide (dispatched opts obj = k)).
  - cbn [length]. rewrite IH. destruct k; try reflexivity. congruence.
  - rewrite IH. reflexivity.
Qed.

Lemma weight_sum_audio (opts : options) (objs : list object) :
  list_sum (List.map (weight opts audio) objs)
  = list_sum (List.map sample_count (handled_as opts audio objs)).
Proof.
  unfold handled_as.
  induction objs as [|obj objs IH]; [reflexivity|].
  rewrite list_sum_map_cons. cbn [List.filter]. unfold weight at 1.
  destruct (bool_decide (dispatched opts obj = audio)).
  - rewrite list_sum_map_cons, IH. reflexivity.
  - rewrite IH. reflexivity.
Qed.

(** What the engine returns for a container that opens, and the files it
    writes meanwhile. *)
Lemma extract_from_file_stats
      (src : source) (out_root : path) (opts : options) (s : state)
      (objs : list object) :
  src_load src = Ok objs ->
  exists st evs,
    (extract_from_file src out_root (Some opts) s).2 = Ok (Some st)
    /\ trace (extract_from_file src out_root (Some opts) s).1 = trace s ++ evs
    /\ (length (written evs) <= list_sum (List.map (max_files opts) objs))%nat
    /\ forall k,
         (st k <= list_sum (List.map (weight opts k) objs))%nat
         /\ (k = other \/ k = audio ->
             st k = list_sum (List.map (weight opts k) objs)).
Proof.
  intros Hload.
  rewrite (extract_from_file_loaded src out_root (Some opts) s objs Hload).
  cbn [fst snd options_or_default trace].
  destruct (loop_weights out_root opts objs
              {| counts := zero_stats;
                 trace := trace s ++ [Log info (Processing (src_path src))] |})
    as (evs & Ht & Hw & Hk).
  eexists. exists ([Log info (Processing (src_path src))] ++ evs
                   ++ [Log info (Stats (counts (for_each objs (guarded_object out_root opts)
                         {| counts := zero_stats;
                            trace := trace s ++ [Log info (Processing (src_path src))] |}).1))]).
  split; [reflexivity|].
  split; [rewrite Ht; cbn [trace]; rewrite <- !app_assoc; reflexivity|].
  split.
  - rewrite !written_app. simpl. rewrite app_nil_r. exact Hw.
  - intros k. destruct (Hk k) as [Hb He]. cbn [counts] in *. unfold zero_stats in *.
    split; [lia|]. intros Hka. rewrite (He Hka). lia.
Qed.

(** X11. For a container that opens, the count the engine returns for a
    kind is at most the number of objects handled as that kind (the type
    name selects the kind and its option is enabled), and the count of
    [other] is exactly the number of objects no enabled branch takes.
    Audio is apart: a clip counts once per sample. *)
Theorem counts_bounded_by_objects
  (src : source) (out_root : path) (opts : options) (s : state) (objs : list object) :
  src_load src = Ok objs ->
  exists st,
    (extract_from_file src out_root (Some opts) s).2 = Ok (Some st)
    /\ (forall k, k <> audio -> (st k <= length (handled_as opts k objs))%nat)
    /\ st other = length (handled_as opts other objs).
Proof.
  intros Hload.
  destruct (extract_from_file_stats src out_root opts s objs Hload)
    as (st & evs & Hr & _ & _ & Hk).
  exists st. split; [exact Hr|]. split.
  - intros k Hka. rewrite <- (weight_sum_handled opts k objs Hka). apply Hk.
  - rewrite <- (weight_sum_handled opts other objs) by discriminate.
    apply Hk. left. reflexivity.
Qed.

Lemma counts_bounded_by_objects_witness :
  exists st,
    (extract_from_file
       (source_example "level0" (Ok [broken_object; mesh_example 1; unknown_object]))
       out_dir_example (Some default_options) start).2 = Ok (Some st)
    /\ (forall k, k <> audio ->
          (st k <= length (handled_as default_options k
                             [broken_object; mesh_example 1; unknown_object]))%nat)
    /\ st other = length (handled_as default_options other
                            [broken_object; mesh_example 1; unknown_object]).
Proof.
  apply (counts_bounded_by_objects
           (source_example "level0" (Ok [broken_object; mesh_example 1; unknown_object]))
           out_dir_example default_options start).
  reflexivity.
Defined.

(** X12. The count of audio is the number of samples of the clips handled
    as audio: a clip that decodes to several samples counts several times,
    and a clip that fails to decode or has no sample does not count. *)
Theorem audio_counts_samples
  (src : source) (out_root : path) (opts : options) (s : state) (objs : list object) :
  src_load src = Ok objs ->
  exists st,
    (extract_from_file src out_root (Some opts) s).2 = Ok (Some st)
    /\ st audio = list_sum (List.map sample_count (handled_as opts audio objs)).
Proof.
  intros Hload.
  destruct (extract_from_file_stats src out_root opts s objs Hload)
    as (st & evs & Hr & _ & _ & Hk).
  exists st. split; [exact Hr|].
  rewrite <- weight_sum_audio. apply Hk. right. reflexivity.
Qed.

Lemma audio_counts_samples_witness :
  exists st,
    (extract_from_file
       (source_example "level0" (Ok [two_samples; silent_clip; mesh_example 1]))
       out_dir_example (Some default_options) start).2 = Ok (Some st)
    /\ st audio = list_sum (List.map sample_count
                              (handled_as default_options audio
                                 [two_samples; silent_clip; mesh_example 1])).
Proof.
  apply (audio_counts_samples
           (source_example "level0" (Ok [two_samples; silent_clip; mesh_example 1]))
           out_dir_example default_options start).
  reflexivity.
Defined.

(** X13. A pass over a container that opens writes at most one file for
    every object handled as a kind other than audio, one file per sample
    for a clip, and none for an object that no enabled branch takes. *)
Theorem files_bounded_by_objects
  (src : source) (out_root : path) (opts : options) (s : state) (objs : list object) :
  src_load src = Ok objs ->
  exists evs,
    trace (extract_from_file src out_root (Some opts) s).1 = trace s ++ evs
    /\ (length (written evs) <= list_sum (List.map (max_files opts) objs))%nat.
Proof.
  intros Hload.
  destruct (extract_from_file_stats src out_root opts s objs Hload)
    as (st & evs & _ & Ht & Hw & _).
  exists evs. auto.
Qed.

Lemma files_bounded_by_objects_witness :
  exists evs,
    trace (extract_from_file
             (source_example "level0" (Ok [two_samples; texture_example 1; unknown_object]))
             out_dir_example (Some default_options) start).1 = trace start ++ evs
    /\ (length (written evs)
        <= list_sum (List.map (max_files default_options)
                       [two_samples; texture_example 1; unknown_object]))%nat.
Proof.
  apply (files_bounded_by_objects
           (source_example "level0" (Ok [two_samples; texture_example 1; unknown_object]))
           out_dir_example default_options start).
  reflexivity.
Defined.

Lemma weight_disabled (opts : options) (k : kind) (objs : list object) :
  opts k = false -> k <> other ->
  list_sum (List.map (weight opts k) objs) = O.
Proof.
  intros Ho Hk. induction objs as [|obj objs IH]; [reflexivity|].
  rewrite list_sum_map_cons, IH, weight_other_kind; [reflexivity|].
  intros Hd. destruct (dispatched_kind opts obj k Hk Hd) as [_ Ht]. congruence.
Qed.

(** X14. A kind whose option is off leaves nothing behind: the pass does
    not create its directory, writes no file into it, and returns a count
    of zero for it. *)
Theorem disabled_kind_is_untouched
  (src : source) (out_root : path) (opts : options) (k : kind) (s : state) :
  opts k = false -> k <> other ->
  exists evs,
    trace (extract_from_file src out_root (Some opts) s).1 = trace s ++ evs
    /\ (kind_dir out_root k ∉ created evs)
    /\ (forall fname c, Write (child (kind_dir out_root k) fname) c ∉ evs)
    /\ (forall st, (extract_from_file src out_root (Some opts) s).2 = Ok (Some st) ->
          st k = O).
Proof.
  intros Ho Hk.
  destruct (pass_writes src out_root opts s) as (evs & Ht & Hw).
  destruct (emits_run _ _ s (extract_from_file_events src out_root opts))
    as (evs' & Ht' & Hev & _).
  assert (evs' = evs) by (rewrite Ht in Ht'; apply app_inv_head in Ht'; auto).
  subst evs'. exists evs. split; [exact Ht|]. split; [|split].
  - intros Hin. apply elem_of_created in Hin.
    rewrite Forall_forall in Hev.
    destruct (Hev _ Hin) as [(objs & obj & _ & _ & Hobj)|[(m & Hm & _)|(e & He)]];
      [|discriminate|discriminate].
    inversion Hobj as [k' Hk' Hd Hr Heq| | | |].
    apply kind_dir_inj in Heq.
    destruct (dispatched_kind opts obj k' Hk' Hd) as [_ Hopt]. congruence.
  - intros fname c Hin. apply list_elem_of_lookup_1 in Hin as [i Hi].
    destruct (Hw i _ _ Hi) as (k' & fname' & j & _ & _ & _ & Hopt & Heq & _).
    unfold child in Heq. apply app_inj_tail in Heq as [Heq _].
    apply kind_dir_inj in Heq. congruence.
  - intros st Hst. destruct (src_load src) as [objs|e] eqn:Hload.
    + destruct (extract_from_file_stats src out_root opts s objs Hload)
        as (st' & evs' & Hr & _ & _ & Hc).
      rewrite Hr in Hst. injection Hst as <-.
      destruct (Hc k) as [Hb _]. rewrite (weight_disabled opts k objs Ho Hk) in Hb. lia.
    + rewrite (extract_from_file_failed src out_root (Some opts) s e Hload) in Hst.
      discriminate.
Qed.

Lemma disabled_kind_is_untouched_witness :
  exists evs,
    trace (extract_from_file
             (source_example "level0" (Ok [mesh_example 1; texture_example 1]))
             out_dir_example (Some (without meshes)) start).1 = trace start ++ evs
    /\ (kind_dir out_dir_example meshes ∉ created evs)
    /\ (forall fname c, Write (child (kind_dir out_dir_example meshes) fname) c ∉ evs)
    /\ (forall st,
          (extract_from_file
             (source_example "level0" (Ok [mesh_example 1; texture_example 1]))
             out_dir_example (Some (without meshes)) start).2 = Ok (Some st) ->
          st meshes = O).
Proof.
  apply (disabled_kind_is_untouched
           (source_example "level0" (Ok [mesh_example 1; texture_example 1]))
           out_dir_example (without meshes) meshes start).
  - reflexivity.
  - discriminate.
Defined.

(** ** Counts and files *)





Section ObjectTallies.
Variables (out_root : path) (obj : object).





End ObjectTallies.

Lemma total_extracted_sum (c : kind_stats) :
  total_extracted c
  = (c textures + c sprites + c audio + c meshes + c texts + c fonts + c scripts
     + c materials)%nat.
Proof. unfold total_extracted. vm_compute List.filter. simpl. lia. Qed.








(** A mesh whose text does not encode leaves its file, empty, and is not
    counted: the number reported falls behind the number of files. *)
Lemma unencodable_mesh_is_not_counted :
  written (trace (extract_from_file (source_example "level0" (Ok [unencodable_mesh]))
                    out_dir_example (Some default_options) start).1)
  = [child (kind_dir out_dir_example meshes) (lit "Rock.obj")]
  /\ exists st,
       (extract_from_file (source_example "level0" (Ok [unencodable_mesh]))
          out_dir_example (Some default_options) start).2 = Ok (Some st)
       /\ total_extracted st = O.
Proof.
  split; [vm_compute; reflexivity|].
  eexists. split; [reflexivity | vm_compute; reflexivity].
Qed.

(** ** The lines of a batch *)

Lemma gui_lines_app (t1 t2 : list event) :
  gui_lines (t1 ++ t2) = gui_lines t1 ++ gui_lines t2.
Proof.
  induction t1 as [|ev t1 IH]; simpl; [reflexivity|].
  destruct ev; simpl; rewrite IH; reflexivity.
Qed.

Lemma reported_app (l1 l2 : list gui_line) :
  reported (l1 ++ l2) = reported l1 ++ reported l2.
Proof.
  induction l1 as [|g l1 IH]; simpl; [reflexivity|].
  destruct g; simpl; rewrite IH; reflexivity.
Qed.

(** The engine writes to the log, never to the window. *)
Lemma pass_gui_lines (src : source) (out_root : path) (opts : options) (s : state) :
  gui_lines (trace (extract_from_file src out_root (Some opts) s).1)
  = gui_lines (trace s).
Proof.
  destruct (emits_run _ _ s (extract_from_file_events src out_root opts))
    as (evs & Ht & Hev & _).
  rewrite Ht, gui_lines_app.
  assert (Hnone : gui_lines evs = []).
  { clear Ht. induction Hev as [|ev evs Hev _ IH]; [reflexivity|].
    destruct Hev as [(objs & obj & _ & _ & Hobj)|[(m & -> & _)|(e & ->)]];
      [inversion Hobj; subst| |]; exact IH. }
  rewrite Hnone, app_nil_r. reflexivity.
Qed.

Lemma extract_from_file_returns
      (src : source) (out_root : path) (opts : option options) (s : state) :
  exists r, (extract_from_file src out_root opts s).2 = Ok r.
Proof.
  destruct (src_load src) as [objs|e] eqn:Hload.
  - rewrite (extract_from_file_loaded src out_root opts s objs Hload). eauto.
  - rewrite (extract_from_file_failed src out_root opts s e Hload). eauto.
Qed.

Lemma process_file_lines (n : nat) (out_root : path) (opts : options)
      (idx : nat) (f : source) (s : state) :
  gui_lines (trace (process_file n out_root opts idx f s).1)
  = gui_lines (trace s) ++ file_lines n out_root opts (idx, f).
Proof.
  unfold process_file, file_lines, file_stats. cbn [fst snd].
  set (sub := child out_root (stem (path_name (src_path f)))).
  unfold try_except.
  rewrite run_ensure_dir_bind, run_emit_bind, run_bind.
  set (s1 := {| counts := counts {| counts := counts s; trace := trace s ++ [Mkdir sub] |};
               trace := _ |}).
  assert (Hg1 : gui_lines (trace s1)
                = gui_lines (trace s) ++ [GuiProcessing idx n (path_name (src_path f))]).
  { subst s1. cbn [trace counts]. rewrite !gui_lines_app. simpl.
    rewrite app_nil_r. reflexivity. }
  pose proof (extract_from_file_result f sub opts s1) as Hres.
  pose proof (pass_gui_lines f sub opts s1) as Hg.
  destruct (extract_from_file_returns f sub (Some opts) start) as [r Hret].
  rewrite Hg1 in Hg. clearbody s1.
  destruct (extract_from_file f sub (Some opts) s1) as [s2 r2].
  destruct (extract_from_file f sub (Some opts) start) as [s0 r0].
  cbn [fst snd] in *. subst r2.
  destruct r0 as [[st|]|e].
  - rewrite run_bind.
    pose proof (add_all_kinds st s2) as (Hr & Ht & Hk).
    destruct (for_each all_kinds _ s2) as [s3 r3]. cbn [fst snd] in *. subst r3.
    unfold emit. cbn [fst snd counts trace].
    rewrite gui_lines_app, Ht, Hg, <- app_assoc. reflexivity.
  - unfold mret, M_ret. cbn [fst snd]. exact Hg.
  - discriminate Hret.
Qed.

Lemma batch_lines (n : nat) (out_root : path) (opts : options) (files : list source) :
  forall idx s,
    gui_lines (trace (for_each (enumerate idx files)
                        (fun '(i, f) => process_file n out_root opts i f) s).1)
    = gui_lines (trace s)
      ++ flat_map (file_lines n out_root opts) (enumerate idx files).
Proof.
  induction files as [|f files IH]; intros idx s.
  - simpl. rewrite app_nil_r. reflexivity.
  - cbn [enumerate for_each flat_map]. rewrite run_bind.
    pose proof (process_file_run n out_root opts idx f s) as (Hr & _ & _).
    pose proof (process_file_lines n out_root opts idx f s) as Hl.
    destruct (process_file n out_root opts idx f s) as [s1 r1].
    cbn [fst snd] in *. subst r1. cbv beta iota.
    rewrite IH, Hl, <- app_assoc. reflexivity.
Qed.

(** X16. The window shows, for every file of a batch in order, its place
    in the batch (counted from one) with the size of the batch and its
    name, followed by the number of assets it gave when its container
    opened and by nothing when it did not.  The engine itself returns for
    every file, so the error line of the loop is left to a failure to
    create the directory of the file, which this model does not have. *)
Theorem batch_window_lines (files : list source) (out_root : path) (opts : options) :
  gui_lines (start_extraction files out_root opts).2
  = flat_map (file_lines (length files) out_root opts) (enumerate 1 files).
Proof.
  unfold start_extraction.
  pose proof (batch_lines (length files) out_root opts files 1
                {| counts := zero_stats; trace := [Mkdir out_root] |}) as Hl.
  destruct (for_each _ _ _) as [s r]. cbn [fst snd trace] in *. exact Hl.
Qed.

Lemma total_extracted_contributions
      (out_root : path) (opts : options) (files : list source) (c : kind_stats) :
  (forall k, c k = list_sum (List.map (contribution out_root opts k) files)) ->
  total_extracted c
  = list_sum (reported (flat_map (file_lines (length files) out_root opts)
                          (enumerate 1 files))).
Proof.
  intros Hc. rewrite total_extracted_sum, !Hc. clear Hc c.
  generalize (length files) 1%nat. induction files as [|f files IH]; intros n idx.
  - reflexivity.
  - cbn [enumerate flat_map]. rewrite reported_app, !list_sum_map_cons.
    rewrite list_sum_app, <- (IH n (S idx)).
    repeat match goal with
           | |- context [list_sum (List.map ?g files)] =>
               generalize (list_sum (List.map g files)); intro
           end.
    unfold file_lines, contribution. cbn [fst snd reported].
    destruct (file_stats out_root opts f) as [st|].
    + cbn [reported]. rewrite total_extracted_sum. simpl list_sum. lia.
    + cbn [reported]. simpl list_sum. lia.
Qed.

(** X17. The total number of assets announced at the end of a batch is
    the sum of the numbers announced file by file. *)
Theorem batch_total_is_sum_of_reports
  (files : list source) (out_root : path) (opts : options) :
  total_extracted (start_extraction files out_root opts).1
  = list_sum (reported (gui_lines (start_extraction files out_root opts).2)).
Proof.
  unfold start_extraction.
  pose proof (batch_lines (length files) out_root opts files 1
                {| counts := zero_stats; trace := [Mkdir out_root] |}) as Hl.
  pose proof (batch_run (length files) out_root opts files 1
                {| counts := zero_stats; trace := [Mkdir out_root] |}) as [Hk _].
  destruct (for_each _ _ _) as [s r]. cbn [fst snd trace counts] in *.
  rewrite Hl. cbn [gui_lines app].
  apply total_extracted_contributions. intros k. rewrite Hk. reflexivity.
Qed.

(** ** File names that carry the id *)

Lemma after_last_none (c : N) (t : list N) :
  Forall (fun x => x <> c) t -> after_last c t = None.
Proof.
  induction 1 as [|x t Hx _ IH]; [reflexivity|].
  cbn [after_last]. rewrite IH.
  destruct (N.eqb_spec x c); [contradiction | reflexivity].
Qed.

Lemma after_last_app (c : N) (n t : list N) :
  Forall (fun x => x <> c) t -> after_last c (n ++ c :: t) = Some t.
Proof.
  intros Ht. induction n as [|x n IH].
  - cbn [app after_last]. rewrite (after_last_none c t Ht), N.eqb_refl. reflexivity.
  - cbn [app after_last]. rewrite IH. reflexivity.
Qed.

Lemma before_first (c : N) (u v x y : list N) :
  Forall (fun a => a <> c) u -> Forall (fun a => a <> c) v ->
  u ++ c :: x = v ++ c :: y -> u = v.
Proof.
  intros Hu. revert v. induction Hu as [|a u Ha _ IH]; intros v Hv Heq.
  - destruct Hv as [|b v Hb _]; [reflexivity|].
    cbn [app] in Heq. injection Heq as Hab _. congruence.
  - destruct Hv as [|b v Hb Hv].
    + cbn [app] in Heq. injection Heq as Hab _. congruence.
    + cbn [app] in Heq. injection Heq as -> Heq. f_equal. exact (IH v Hv Heq).
Qed.

Lemma uint_chars (d : Decimal.uint) :
  Forall (fun c => c <> 95 /\ c <> 46)%N (lit (NilEmpty.string_of_uint d)).
Proof.
  induction d; simpl; try (constructor; [split; discriminate | exact IHd]). constructor.
Qed.

(** The decimal text of an integer has neither an underscore nor a dot. *)
Lemma str_int_chars (z : Z) : Forall (fun c => c <> 95 /\ c <> 46)%N (str_int z).
Proof.
  unfold str_int. destruct (Z.to_int z) as [d|d]; simpl.
  - destruct d; try apply (uint_chars (_ d)); repeat constructor; discriminate.
  - constructor; [split; discriminate|].
    destruct d; try apply (uint_chars (_ d)); repeat constructor; discriminate.
Qed.

Lemma ending_shape (ext : list N) :
  List.In ext [lit ".png"; lit ".json"; lit ".cs"; lit ".txt"] ->
  exists e, ext = 46%N :: e /\ Forall (fun c => c <> 95%N) e.
Proof.
  simpl. intros [<-|[<-|[<-|[<-|[]]]]]; eexists; (split; [reflexivity|]);
    repeat constructor; discriminate.
Qed.

(** Two tagged names are equal only for the same id. *)
Lemma tagged_names_inj (n1 n2 e1 e2 : list N) (a b : Z) :
  List.In e1 [lit ".png"; lit ".json"; lit ".cs"; lit ".txt"] ->
  List.In e2 [lit ".png"; lit ".json"; lit ".cs"; lit ".txt"] ->
  n1 ++ lit "_" ++ str_int a ++ e1 = n2 ++ lit "_" ++ str_int b ++ e2 ->
  a = b.
Proof.
  intros H1 H2 Heq.
  destruct (ending_shape e1 H1) as (x1 & -> & Hx1).
  destruct (ending_shape e2 H2) as (x2 & -> & Hx2).
  assert (Hus : forall z x, Forall (fun c => c <> 95%N) x ->
                  Forall (fun c => c <> 95%N) (str_int z ++ 46%N :: x)).
  { intros z x Hx. apply Forall_app. split.
    - eapply Forall_impl; [apply str_int_chars|]. intros c [Hc _]. exact Hc.
    - constructor; [discriminate | exact Hx]. }
  change (lit "_" ++ str_int a ++ 46%N :: x1) with (95%N :: (str_int a ++ 46%N :: x1)) in Heq.
  change (lit "_" ++ str_int b ++ 46%N :: x2) with (95%N :: (str_int b ++ 46%N :: x2)) in Heq.
  pose proof (after_last_app 95 n1 _ (Hus a x1 Hx1)) as Ha.
  pose proof (after_last_app 95 n2 _ (Hus b x2 Hx2)) as Hb.
  rewrite Heq, Hb in Ha. injection Ha as Ht.
  apply str_int_inj. symmetry.
  apply (before_first 46 _ _ x2 x1); [| |exact Ht].
  - eapply Forall_impl; [apply str_int_chars|]. intros c [_ Hc]. exact Hc.
  - eapply Forall_impl; [apply str_int_chars|]. intros c [_ Hc]. exact Hc.
Qed.

(** A computation all of whose files carry [id]. *)
Ltac tagged_file :=
  unfold id_tagged; eexists _, _, _; split; [reflexivity|]; simpl; auto 6.

Ltac finish_tagged :=
  cbn [fst snd trace counts]; eexists; split;
  [rewrite <- ?app_assoc; first [reflexivity | symmetry; apply app_nil_r]|];
  cbn [written app];
  repeat (apply List.Forall_cons; [tagged_file|]); apply List.Forall_nil.

Section ObjectTags.
Variables (out_root : path) (obj : object).

Lemma extract_texture_tagged (s : state) :
  exists evs,
    trace (extract_texture out_root obj s).1 = trace s ++ evs
    /\ Forall (id_tagged (path_id obj)) (written evs).
Proof. unfold extract_texture. run_monad. split_cases; finish_tagged. Qed.

Lemma extract_sprites_tagged (s : state) :
  exists evs,
    trace (extract_sprites out_root obj s).1 = trace s ++ evs
    /\ Forall (id_tagged (path_id obj)) (written evs).
Proof.
  unfold extract_sprites, extract_sprite. run_monad. split_cases; finish_tagged.
Qed.

Lemma extract_scripts_tagged (s : state) :
  exists evs,
    trace (extract_scripts out_root obj s).1 = trace s ++ evs
    /\ Forall (id_tagged (path_id obj)) (written evs).
Proof.
  unfold extract_scripts, extract_mono_script. run_monad. split_cases; finish_tagged.
Qed.

Lemma extract_material_tagged (s : state) :
  exists evs,
    trace (extract_material out_root obj s).1 = trace s ++ evs
    /\ Forall (id_tagged (path_id obj)) (written evs).
Proof. unfold extract_material. run_monad. split_cases; finish_tagged. Qed.
End ObjectTags.

Lemma object_files_tagged (out_root : path) (opts : options) (obj : object)
      (c : kind_stats) :
  tagged (dispatched opts obj) = true ->
  Forall (id_tagged (path_id obj)) (object_files out_root opts obj c).
Proof.
  intros Ht. unfold object_files, guarded_object, try_except.
  assert (Hone : forall m : M unit,
            (forall s, exists evs, trace (m s).1 = trace s ++ evs
                                   /\ Forall (id_tagged (path_id obj)) (written evs)) ->
            Forall (id_tagged (path_id obj))
              (written (trace (match m {| counts := c; trace := [] |} with
                               | (s', Ok a) => (s', Ok a)
                               | (s', Raise e) => logging error (ObjectError e) s'
                               end).1))).
  { intros m Hm. destruct (Hm {| counts := c; trace := [] |}) as (evs & Hev & Hall).
    destruct (m _) as [s' [[]|e]]; cbn [fst trace] in *.
    - rewrite Hev. exact Hall.
    - unfold logging, emit. cbn [fst trace]. rewrite Hev, written_app. simpl.
      rewrite app_nil_r. exact Hall. }
  rewrite handle_object_dispatch.
  destruct (dispatched opts obj); try discriminate Ht; apply Hone.
  - apply extract_texture_tagged.
  - apply extract_sprites_tagged.
  - apply extract_scripts_tagged.
  - apply extract_material_tagged.
Qed.

(** X18. The files of textures, sprites, scripts and materials carry the
    id of their object: whatever their names are, two objects handled as
    such kinds whose ids differ never write to the same path. *)
Theorem tagged_files_never_collide
  (out_root : path) (opts : options) (o1 o2 : object) (c1 c2 : kind_stats) (p : path) :
  tagged (dispatched opts o1) = true -> tagged (dispatched opts o2) = true ->
  path_id o1 <> path_id o2 ->
  p ∈ object_files out_root opts o1 c1 ->
  p ∉ object_files out_root opts o2 c2.
Proof.
  intros H1 H2 Hid Hp1 Hp2.
  pose proof (object_files_tagged out_root opts o1 c1 H1) as Ha.
  pose proof (object_files_tagged out_root opts o2 c2 H2) as Hb.
  rewrite Forall_forall in Ha, Hb.
  destruct (Ha p Hp1) as (d1 & n1 & e1 & -> & He1).
  destruct (Hb _ Hp2) as (d2 & n2 & e2 & Heq & He2).
  unfold child in Heq. apply app_inj_tail in Heq as [_ Heq].
  apply Hid. exact (tagged_names_inj n1 n2 e1 e2 _ _ He1 He2 Heq).
Qed.

Lemma tagged_files_never_collide_witness :
  (child (kind_dir out_dir_example textures) (lit "Wall_1.png")
   ∈ object_files out_dir_example default_options (texture_example 1) zero_stats)
  /\ (child (kind_dir out_dir_example textures) (lit "Wall_1.png")
      ∉ object_files out_dir_example default_options (texture_example 2) zero_stats).
Proof.
  split; [vm_compute; left|].
  apply (tagged_files_never_collide out_dir_example default_options
           (texture_example 1) (texture_example 2) zero_stats zero_stats).
  - reflexivity.
  - reflexivity.
  - discriminate.
  - vm_compute. left.
Defined.
